(** * ablate: boundary solver monitor and buoyancy source

    A shallow embedding of
      - [src/finiteVolume/processes/buoyancy.cpp]
        ([Buoyancy::ComputeBuoyancySource] and [::UpdateAverageDensity]), and
      - [src/monitors/boundarySolverMonitor.cpp]
        ([BoundarySolverMonitor::Register], [::Save] and the destructor),
    together with the properties the design document states about them.

    Conventions.  [PetscInt] is [Z].  In the buoyancy source term, whose
    statements are about the values computed, [PetscScalar] and [PetscReal]
    are IEEE 754 binary64 numbers.  The values the monitor copies and adds,
    and the densities the pre-step sums, are exact rationals [Q]; what is
    stated there is which values are combined, and a quotient that is not
    a number is kept apart.  A C array reached through a bare pointer is a
    function from indices to values; a PETSc [Vec], whose length matters, is
    a list. *)

From Stdlib Require Import ZArith QArith Qminmax List Lia Bool String SpecFloat.
From stdpp Require Import base option list sorting gmap strings.

Local Open Scope Z_scope.

(* ===================================================================== *)
(** * Buoyancy source term                                                 *)
(* ===================================================================== *)

Module Buoyancy.

(** [PetscReal] and [PetscScalar] in this file are C doubles: IEEE 754
    binary64 numbers with their zeros, infinities and NaN, every operation
    rounded to nearest even. *)
Definition double : Type := spec_float.

Definition prec : Z := 53.
Definition emax : Z := 1024.

Definition add (x y : double) : double := SFadd prec emax x y.
Definition sub (x y : double) : double := SFsub prec emax x y.
Definition mul (x y : double) : double := SFmul prec emax x y.
Definition div (x y : double) : double := SFdiv prec emax x y.

(** The literal [0.0]. *)
Definition zero : double := S754_zero false.

(** The double nearest to [m * 2^e]. *)
Definition dbl (m e : Z) : double := binary_normalize prec emax m e false.

(** [#define PetscMax(a, b) (((a) < (b)) ? (b) : (a))] *)
Definition PetscMax (a b : double) : double := if SFltb a b then b else a.

(** A C array behind a pointer ([const PetscScalar *u], [PetscScalar *f],
    [const PetscInt *uOff]). *)
Definition array (A : Type) : Type := Z -> A.

Definition store {A} (f : array A) (i : Z) (v : A) : array A :=
  fun j => if Z.eq_dec j i then v else f j.

(** The members of [class Buoyancy] read by the source function. *)
Record Buoyancy := {
  buoyancyVector : list double;      (* std::vector<double> *)
  densityAvg : double
}.

Section Source.

(** The enumerators [CompressibleFlowFields::RHO], [::RHOE] and [::RHOU]
    come from [finiteVolume/compressibleFlowFields.hpp], which is not among
    the sources; they are taken as parameters. *)
Variables RHO RHOE RHOU : Z.

Definition EULER_FIELD : Z := 0.

(** [buoyancyVector[n]]: indexing a [std::vector] past its end is undefined;
    the model stops with [None] there. *)
Definition vectorAt (v : list double) (n : Z) : option double :=
  if Z.ltb n 0 then None else v !! Z.to_nat n.

(** One turn of [for (PetscInt n = 0; n < dim; n++)] (lines 82-84). *)
Definition sourceStep (ctx : Buoyancy) (uOff : array Z) (u : array double)
    (density : double) (f : array double) (n : Z) : option (array double) :=
  match vectorAt (buoyancyVector ctx) n with
  | None => None
  | Some b =>
      let f1 := store f (RHOU + n) (PetscMax (mul (sub density (densityAvg ctx)) b) zero) in
      let vel := div (u (uOff EULER_FIELD + RHOU + n)) density in
      Some (store f1 RHOE (add (f1 RHOE) (mul vel (f1 (RHOU + n)))))
  end.

Fixpoint sourceLoop (ctx : Buoyancy) (uOff : array Z) (u : array double)
    (density : double) (ns : list Z) (f : array double) : option (array double) :=
  match ns with
  | [] => Some f
  | n :: ns' =>
      match sourceStep ctx uOff u density f n with
      | None => None
      | Some f' => sourceLoop ctx uOff u density ns' f'
      end
  end.

(** [Buoyancy::ComputeBuoyancySource] (lines 67-88).  [time], [cg], [aOff]
    and [a] are not read.  The function always returns error code 0, so the
    result is the contents of [f] on return.  [u] and [f] are arrays of
    their own, and every operation is rounded by itself, as written. *)
Definition ComputeBuoyancySource (dim : Z) (time : double) (uOff : array Z)
    (u : array double) (f : array double) (ctx : Buoyancy) : option (array double) :=
  let density := u (uOff EULER_FIELD + RHO) in
  let f1 := store f RHO zero in
  let f2 := store f1 RHOE zero in
  sourceLoop ctx uOff u density (seqZ 0 dim) f2.

(** ** The source terms as the design document words them *)

(** "max(x, 0)", negative values clamped to zero: 0 for a negative [x],
    [x] itself otherwise. *)
Definition clamped (x : double) : double := if SFltb x zero then zero else x.

(** The clamped momentum source of a direction whose buoyancy component is
    [b]: max((density - densityAvg) * b, 0). *)
Definition momentumSource (ctx : Buoyancy) (uOff : array Z) (u : array double)
    (b : double) : double :=
  clamped (mul (sub (u (uOff EULER_FIELD + RHO)) (densityAvg ctx)) b).

(** The energy source: the sum, taken in doubles from 0.0 in the order
    n = 0, 1, ..., of (momentum[n] / density) times the clamped momentum
    source. *)
Definition energySource (ctx : Buoyancy) (uOff : array Z) (u : array double)
    (dim : Z) : double :=
  fold_left
    (fun acc n =>
       add acc (mul (div (u (uOff EULER_FIELD + RHOU + n)) (u (uOff EULER_FIELD + RHO)))
                    (momentumSource ctx uOff u
                       (default zero (vectorAt (buoyancyVector ctx) n)))))
    (seqZ 0 dim) zero.

End Source.

End Buoyancy.

(* ===================================================================== *)
(** * The reference density of the buoyancy process                       *)
(* ===================================================================== *)

Module Average.
Import Buoyancy.

(** A [PetscReal] that may have stopped being a number: dividing by a zero
    count gives an infinity or a NaN, which no rational stands for. *)
Inductive PetscReal := Finite (q : Q) | NotFinite.

Definition PETSC_ERR_MPI : Z := 98.

(** [solver::Range] as the loop reads it: [start], [end], and [points],
    which is null when the cells are the numbers of the range themselves. *)
Record Range := { start : Z; end_ : Z; points : option (list Z) }.

(** What [UpdateAverageDensity] reads of the solver [flow]:
    [GetField(EULER_FIELD).id], the array of the solution vector, the range
    [GetCellRange] fills in, and, for [DMPlexPointGlobalFieldRead], where
    the data of a field of a point starts in the global array; a point this
    process does not own has none, and the pointer handed back is null. *)
Record Flow := {
  flowEulerId : Z;
  flowArray : array Q;
  cellRange : Range;
  globalField : Z -> Z -> option Z
}.

Inductive Step :=
| VecGetArrayRead_
| GetCellRange_
| DMPlexPointGlobalFieldRead_ (cell field : Z)
| Allreduce_density_
| Allreduce_count_
| RestoreRange_
| VecRestoreArrayRead_.

(** The error code each call returns, and the local density sum and cell
    count of every other rank of the communicator. *)
Record Ranks := {
  code : Step -> Z;
  others : list (Q * Z)
}.

(** The member [densityAvg] and the calls made so far. *)
Record Run := { average : PetscReal; steps : list Step }.

(** How the function stops early: [return ierr], or a read outside the
    [points] array, which is undefined. *)
Inductive Stop := Returned (ierr : Z) | Undefined.

Definition R (A : Type) : Type := Run -> (Stop + A) * Run.

Definition ret {A} (a : A) : R A := fun s => (inr a, s).
Definition stop {A} (e : Stop) : R A := fun s => (inl e, s).
Definition bind {A B} (m : R A) (k : A -> R B) : R B :=
  fun s => match m s with
           | (inl e, s') => (inl e, s')
           | (inr a, s') => k a s'
           end.

#[global] Instance R_ret : MRet R := @ret.
#[global] Instance R_bind : MBind R := fun A B k m => bind m k.

Definition made (c : Step) : R unit :=
  fun s => (inr tt, {| average := average s; steps := steps s ++ [c] |}).

Definition setAverage (x : PetscReal) : R unit :=
  fun s => (inr tt, {| average := x; steps := steps s |}).

(** [ierr = call; CHKERRQ(ierr);] *)
Definition CHKERRQ (ranks : Ranks) (c : Step) : R unit :=
  made c ;;
  if Z.eqb (code ranks c) 0 then ret tt else stop (Returned (code ranks c)).

(** [ierr = call; CHKERRMPI(ierr);]: an MPI failure is returned as
    [PETSC_ERR_MPI]. *)
Definition CHKERRMPI (ranks : Ranks) (c : Step) : R unit :=
  made c ;;
  if Z.eqb (code ranks c) 0 then ret tt else stop (Returned PETSC_ERR_MPI).

(** [cellRange.points ? cellRange.points[c] : c] *)
Definition cellOf (r : Range) (c : Z) : R Z :=
  match points r with
  | None => ret c
  | Some ps =>
      match (if Z.ltb c 0 then None else ps !! Z.to_nat c) with
      | Some cell => ret cell
      | None => stop Undefined
      end
  end.

Section Update.

Variable RHO : Z.
Variable ranks : Ranks.
Variable flow : Flow.

(** The body of the loop of lines 31-44, on the pair
    [(locDensitySum, locCellCount)]. *)
Definition visit (acc : Q * Z) (c : Z) : R (Q * Z) :=
  cell ← cellOf (cellRange flow) c;
  CHKERRQ ranks (DMPlexPointGlobalFieldRead_ cell (flowEulerId flow)) ;;
  match globalField flow cell (flowEulerId flow) with
  | Some euler => ret ((acc.1 + flowArray flow (euler + RHO)%Z)%Q, acc.2 + 1)
  | None => ret acc
  end.

Fixpoint march (cs : list Z) (acc : Q * Z) : R (Q * Z) :=
  match cs with
  | [] => ret acc
  | c :: cs' => acc' ← visit acc c; march cs' acc'
  end.

(** [MPIU_Allreduce(..., MPIU_SUM, comm)] of the two local values. *)
Definition allDensity (locDensitySum : Q) : Q :=
  fold_left Qplus (map fst (others ranks)) locDensitySum.
Definition allCount (locCellCount : Z) : Z :=
  fold_left Z.add (map snd (others ranks)) locCellCount.

(** [densitySum / cellCount] *)
Definition quotient (densitySum : Q) (cellCount : Z) : PetscReal :=
  if Z.eqb cellCount 0 then NotFinite else Finite (densitySum / inject_Z cellCount).

(** [Buoyancy::UpdateAverageDensity] (lines 13-65); returning normally is
    [PetscFunctionReturn(0)]. *)
Definition UpdateAverageDensity : R unit :=
  CHKERRQ ranks VecGetArrayRead_ ;;
  (* Get the valid cell range over this region *)
  made GetCellRange_ ;;
  let r := cellRange flow in
  (* March over each cell *)
  loc ← march (seqZ (start r) (end_ r - start r)) (0%Q, 0);
  (* sum across all mpi ranks *)
  CHKERRMPI ranks Allreduce_density_ ;;
  CHKERRMPI ranks Allreduce_count_ ;;
  (* update reference density *)
  setAverage (quotient (allDensity loc.1) (allCount loc.2)) ;;
  (* cleanup *)
  made RestoreRange_ ;;
  CHKERRQ ranks VecRestoreArrayRead_.


(** The cells of the range, and the densities of those this process owns,
    in the order of the loop. *)
Definition cells : list Z :=
  let r := cellRange flow in
  match points r with
  | None => seqZ (start r) (end_ r - start r)
  | Some ps => omap (fun c => if Z.ltb c 0 then None else ps !! Z.to_nat c)
                    (seqZ (start r) (end_ r - start r))
  end.

Definition ownedDensities : list Q :=
  omap (fun cell => (fun euler => flowArray flow (euler + RHO))
                      <$> globalField flow cell (flowEulerId flow))
       cells.

(** Every index of the range lies inside the [points] array. *)
Definition rangeInBounds : Prop :=
  let r := cellRange flow in
  match points r with
  | None => True
  | Some ps => forall c, start r <= c < end_ r -> 0 <= c < Z.of_nat (length ps)
  end.

End Update.

(** The calls of the loop. *)
Definition isRead (c : Step) : bool :=
  match c with DMPlexPointGlobalFieldRead_ _ _ => true | _ => false end.

(** Three cells in a row, four values each, the density first; the last
    cell belongs to another rank.  Every cell has density 3/2. *)
Definition threeCells : Flow :=
  {| flowEulerId := 0;
     flowArray := fun i => if Z.eqb (i mod 4) 0 then (3 # 2)%Q else 1%Q;
     cellRange := {| start := 0; end_ := 3; points := None |};
     globalField := fun cell _ => if Z.eqb cell 2 then None else Some (4 * cell) |}.


(** The same, with the second reduction failing. *)
Definition reductionFails : Ranks :=
  {| code := fun c => match c with Allreduce_count_ => 17 | _ => 0 end;
     others := [(3%Q, 2)] |}.


(** One rank and a range without cells. *)
Definition alone : Ranks := {| code := fun _ => 0; others := [] |}.
Definition noCells : Flow :=
  {| flowEulerId := 0;
     flowArray := fun _ => 1%Q;
     cellRange := {| start := 5; end_ := 5; points := Some [] |};
     globalField := fun cell _ => Some (4 * cell) |}.

Definition before : Run := {| average := Finite 1%Q; steps := [] |}.

End Average.

(* ===================================================================== *)
(** * The PETSc objects the monitor works with                             *)
(* ===================================================================== *)

(** PETSc is an outside library; the monitor only calls it.  This module
    gives each object and call the monitor uses the meaning PETSc documents
    for it, on one process.  Mesh points are integers. *)
Module Petsc.

Definition PETSC_ERR_ARG_OUTOFRANGE : Z := 63.
Definition PETSC_ERR_ARG_WRONGSTATE : Z := 73.
Definition PETSC_ERR_ARG_NULL : Z := 85.

(** ** DMLabel: for each value, the set of points carrying it *)

Definition stratum (l : gmap Z (gset Z)) (v : Z) : gset Z := default ∅ (l !! v).

(** [DMLabelSetValue]: the default value -1 is never stored. *)
Definition DMLabelSetValue (l : gmap Z (gset Z)) (p v : Z) : gmap Z (gset Z) :=
  if Z.eqb v (-1) then l else <[v := {[p]} ∪ stratum l v]> l.

(** [DMLabelGetStratumIS]: the points of a stratum in increasing order. *)
Definition sortedPoints (s : gset Z) : list Z := merge_sort Z.le (elements s).

(** ** PetscSection: a dof count per point of a chart *)

Record PetscSection := {
  pStart : Z;
  pEnd : Z;
  atlasDof : list Z;          (* entry [p - pStart] is the dof of point p *)
  isSetUp : bool
}.

Definition PetscSectionCreate : PetscSection :=
  {| pStart := -1; pEnd := -1; atlasDof := []; isSetUp := false |}.

(** [PetscSectionSetChart] allocates the dof array, cleared. *)
Definition PetscSectionSetChart (s : PetscSection) (a b : Z) : PetscSection :=
  {| pStart := a; pEnd := b; atlasDof := replicate (Z.to_nat (b - a)) 0;
     isSetUp := false |}.

Definition inChart (s : PetscSection) (p : Z) : bool :=
  Z.leb (pStart s) p && Z.ltb p (pEnd s).

(** [PetscSectionSetDof]: a point outside the chart is an error
    (PETSC_ERR_ARG_OUTOFRANGE). *)
Definition PetscSectionSetDof (s : PetscSection) (p n : Z) : Z + PetscSection :=
  if inChart s p
  then inr {| pStart := pStart s; pEnd := pEnd s;
              atlasDof := <[Z.to_nat (p - pStart s) := n]> (atlasDof s);
              isSetUp := isSetUp s |}
  else inl PETSC_ERR_ARG_OUTOFRANGE.

Definition PetscSectionSetUp (s : PetscSection) : PetscSection :=
  {| pStart := pStart s; pEnd := pEnd s; atlasDof := atlasDof s; isSetUp := true |}.

Definition Zsum (l : list Z) : Z := foldr Z.add 0 l.

(** Dof and offset of a point.  After [PetscSectionSetUp], the offset of a
    point is the number of dofs of the points before it. *)
Definition dofOf (s : PetscSection) (p : Z) : Z :=
  default 0 (atlasDof s !! Z.to_nat (p - pStart s)).

Definition offsetOf (s : PetscSection) (p : Z) : Z :=
  Zsum (take (Z.to_nat (p - pStart s)) (atlasDof s)).

Definition PetscSectionGetStorageSize (s : PetscSection) : Z := Zsum (atlasDof s).

(** ** Vec: values and block size *)

Record Vec := { values : list Q; blockSize : Z }.

(** Block size a vector gets from the section that lays it out
    ([DMCreateLocalVector]): the common divisor of the non-zero dof counts,
    1 when there is none. *)
Definition sectionBlockSize (s : PetscSection) : Z :=
  let g := foldr Z.gcd 0 (atlasDof s) in
  if Z.eqb g 0 then 1 else g.

Definition VecZeroEntries (v : Vec) : Vec :=
  {| values := replicate (length (values v)) 0%Q; blockSize := blockSize v |}.

(** [VecGetArray]/[VecGetArrayRead]: the storage of an empty vector is the
    null pointer. *)
Definition arrayNonNull (v : Vec) : bool := negb (Nat.eqb (length (values v)) 0).

(** ** DMPlex: strata and cones *)

Record DMPlex := {
  dimension : Z;
  depthStrata : list (Z * Z);   (* entry d: the points [start, end) of depth d *)
  cone : Z -> list Z
}.

Definition inRange (r : Z * Z) (p : Z) : bool := Z.leb r.1 p && Z.ltb p r.2.

(** [DMPlexGetHeightStratum]: height h is depth (top - h); an empty mesh
    answers (0, 0), a stratum that does not exist (-1, -1). *)
Definition DMPlexGetHeightStratum (m : DMPlex) (h : nat) : Z * Z :=
  match depthStrata m with
  | [] => (0, 0)
  | _ =>
      let top := (length (depthStrata m) - 1)%nat in
      if Nat.ltb top h then (-1, -1)
      else default (-1, -1) (depthStrata m !! (top - h)%nat)
  end.

(** [DMPlexGetTransitiveClosure] along cones: the point, its cone, the cones
    of those, ...; cones go down one stratum, so as many rounds as there are
    strata reach everything. *)
Fixpoint closureUpTo (m : DMPlex) (fuel : nat) (p : Z) : list Z :=
  match fuel with
  | O => [p]
  | S k => p :: flat_map (closureUpTo m k) (cone m p)
  end.

Definition closure (m : DMPlex) (p : Z) : list Z :=
  closureUpTo m (length (depthStrata m)) p.

Definition closureOfSet (m : DMPlex) (s : gset Z) : gset Z :=
  list_to_set (flat_map (closure m) (elements s)).

(** [DMPlexLabelComplete]: every stratum of the label is closed under
    cones.  (The exchange of marks on points shared with other processes is
    outside this one-process model.) *)
Definition DMPlexLabelComplete (m : DMPlex) (l : gmap Z (gset Z)) : gmap Z (gset Z) :=
  closureOfSet m <$> l.

(** The points of [s] that have depth [d], in increasing order. *)
Definition pointsAtDepth (m : DMPlex) (s : gset Z) (d : nat) : list Z :=
  match depthStrata m !! d with
  | Some r => filter (fun p => inRange r p = true) (sortedPoints s)
  | None => []
  end.

(** Largest depth at which [s] has a point ([None] when [s] has none in
    strata [0 .. n-1]). *)
Fixpoint topDepth (m : DMPlex) (s : gset Z) (n : nat) : option nat :=
  match n with
  | O => None
  | S k => match pointsAtDepth m s k with
           | [] => topDepth m s k
           | _ => Some k
           end
  end.

(** Plex numbers the points of a mesh stratum by stratum: the top stratum
    (cells) first, then the vertices, then the strata in between from the
    higher to the lower. *)
Definition depthOrder (top : nat) : list nat :=
  match top with
  | O => [O]
  | S _ => top :: O :: reverse (seq 1 (top - 1))
  end.

(** [DMPlexFilter] followed by [DMPlexGetSubpointIS]: the sub-mesh made of
    the points carrying [value] and of their closures.  Entry [i] of the
    result is the point of the parent mesh that sub-mesh point [i] stands
    for; the index set covers the whole chart of the sub-mesh. *)
Definition subpoints (m : DMPlex) (l : gmap Z (gset Z)) (value : Z) : list Z :=
  let s := closureOfSet m (stratum l value) in
  match topDepth m s (length (depthStrata m)) with
  | None => []
  | Some top => flat_map (pointsAtDepth m s) (depthOrder top)
  end.

(** Position of a parent point in the sub-mesh numbering. *)
Fixpoint indexOf (p : Z) (l : list Z) : option Z :=
  match l with
  | [] => None
  | q :: l' => if Z.eqb p q then Some 0 else Z.succ <$> indexOf p l'
  end.

(** First sub-mesh point of depth [d] when the strata are laid out in
    [order]. *)
Fixpoint startOf (size : nat -> Z) (d : nat) (order : list nat) : Z :=
  match order with
  | [] => 0
  | e :: rest => if Nat.eqb e d then 0 else size e + startOf size d rest
  end.

(** Strata of the sub-mesh, by depth, in the numbering above. *)
Definition subStrata (m : DMPlex) (l : gmap Z (gset Z)) (value : Z) : list (Z * Z) :=
  let s := closureOfSet m (stratum l value) in
  match topDepth m s (length (depthStrata m)) with
  | None => []
  | Some top =>
      let size d := Z.of_nat (length (pointsAtDepth m s d)) in
      let start d := startOf size d (depthOrder top) in
      map (fun d => (start d, start d + size d)) (seq 0 (S top))
  end.

Definition subPlex (m : DMPlex) (l : gmap Z (gset Z)) (value : Z) : DMPlex :=
  let sub := subpoints m l value in
  {| dimension := dimension m;
     depthStrata := subStrata m l value;
     cone := fun i =>
       match sub !! Z.to_nat i with
       | Some p => if Z.ltb i 0 then [] else omap (fun q => indexOf q sub) (cone m p)
       | None => []
       end |}.

(** The depth of a point: the first stratum that holds it. *)
Definition depthOf (m : DMPlex) (p : Z) : option nat :=
  fst <$> list_find (fun r => inRange r p = true) (depthStrata m).

(** A point of depth [d] is well placed when no earlier stratum holds it
    and its cone lies in the stratum just below. *)
Definition wfPoint (m : DMPlex) (d : nat) (p : Z) : bool :=
  bool_decide (depthOf m p = Some d) &&
  forallb (fun q => match d with
                    | O => false
                    | S d' => bool_decide (depthOf m q = Some d')
                    end)
          (cone m p).

(** A mesh is well formed when every point of every stratum is well
    placed. *)
Definition wfPlex (m : DMPlex) : bool :=
  forallb (fun dr : nat * (Z * Z) =>
             forallb (wfPoint m dr.1) (seqZ dr.2.1 (dr.2.2 - dr.2.1)))
          (imap pair (depthStrata m)).
(** [T] holds the faces [marked], all of depth [F], and besides them only
    points of smaller depth. *)
Definition facesOnTop (m : DMPlex) (F : nat) (marked T : gset Z) : Prop :=
  (forall x, x ∈ T -> exists d, depthOf m x = Some d /\ (d <= F)%nat) /\
  (forall x, x ∈ T /\ depthOf m x = Some F <-> x ∈ marked).

(** A section as [PetscSectionSetUp] leaves it: a dof count, not negative,
    for every point of the chart. *)
Definition wfSection (sec : PetscSection) : Prop :=
  length (atlasDof sec) = Z.to_nat (pEnd sec - pStart sec) /\
  Forall (fun d => 0 <= d) (atlasDof sec).

(** A point has data in a local vector laid out by [sec]: the pointer
    [DMPlexPointLocalRead] / [DMPlexPointLocalRef] returns is not null. *)
Definition hasData (sec : PetscSection) (p : Z) : bool := Z.ltb 0 (dofOf sec p).

End Petsc.

(* ===================================================================== *)
(** * The boundary solver monitor                                          *)
(* ===================================================================== *)

Module Monitor.
Import Petsc.

(** ** Objects *)

Record DM := {
  plex : DMPlex;
  labels : gmap string (gmap Z (gset Z));
  localSection : option PetscSection;
  subpointIS : option (list Z);         (* only a sub-mesh has one *)
  fields : list (string * Z);           (* name and number of components *)
  outputSequence : Z * Q                (* sequence number and time *)
}.

Definition setLabels (d : DM) (x : gmap string (gmap Z (gset Z))) : DM :=
  {| plex := plex d; labels := x; localSection := localSection d;
     subpointIS := subpointIS d; fields := fields d;
     outputSequence := outputSequence d |}.
Definition setLocalSection (d : DM) (x : option PetscSection) : DM :=
  {| plex := plex d; labels := labels d; localSection := x;
     subpointIS := subpointIS d; fields := fields d;
     outputSequence := outputSequence d |}.
Definition setFields (d : DM) (x : list (string * Z)) : DM :=
  {| plex := plex d; labels := labels d; localSection := localSection d;
     subpointIS := subpointIS d; fields := x;
     outputSequence := outputSequence d |}.
Definition setOutputSequence (d : DM) (x : Z * Q) : DM :=
  {| plex := plex d; labels := labels d; localSection := localSection d;
     subpointIS := subpointIS d; fields := fields d;
     outputSequence := x |}.

(** What the monitor reads of [ablate::boundarySolver::BoundarySolver]:
    the face identifier of each boundary-geometry entry
    ([gradientStencil.geometry.faceId]), the output component names, and the
    routine [ComputeRHSFunction], which maps the time, the local solution
    and the current local boundary vector to the new contents of the local
    boundary vector. *)
Record BoundarySolver := {
  GetBoundaryGeometry : list Z;
  GetOutputComponents : list string;
  ComputeRHSFunction : Q -> list Q -> list Q -> list Q
}.

Inductive SolverType :=
| IsBoundarySolver (b : BoundarySolver)
| OtherSolver.

(** [solver::Solver]: identifier, the sub-domain's DM and solution vector,
    and the dynamic type. *)
Record Solver := {
  GetSolverId : string;
  GetDM : DM;
  GetSolutionVector : list Q;
  solverType : SolverType
}.

(** [std::dynamic_pointer_cast<BoundarySolver>(solver)] *)
Definition dynamic_pointer_cast (s : Solver) : option BoundarySolver :=
  match solverType s with
  | IsBoundarySolver b => Some b
  | OtherSolver => None
  end.

(** The members of [BoundarySolverMonitor]; a null pointer is [None]. *)
Record BoundarySolverMonitor := {
  name : string;
  solver : option Solver;                 (* Monitor::solver *)
  boundarySolver : option BoundarySolver;
  boundaryDm : option DM;
  faceDm : option DM
}.

Inductive DMId := SolverDM | BoundaryDM | FaceDM.
Inductive VecId := LocXVec | LocalBoundaryVec | LocalFaceVec | GlobalFaceVec.

Definition VecId_eqb (a b : VecId) : bool :=
  match a, b with
  | LocXVec, LocXVec | LocalBoundaryVec, LocalBoundaryVec
  | LocalFaceVec, LocalFaceVec | GlobalFaceVec, GlobalFaceVec => true
  | _, _ => false
  end.

(** Every library call the monitor makes, with the arguments that tell the
    calls apart. *)
Inductive Call :=
| DMDestroy_ (dm : DMId)
| DMGetCoordinateDM_
| DMClone_
| DMSetCoordinateDM_
| DMCreateLabel_ (label : string)
| DMGetLabel_ (label : string)
| PetscSectionCreate_
| DMPlexGetHeightStratum_ (dm : DMId) (height : nat)
| PetscSectionSetChart_ (pStart pEnd : Z)
| PetscSectionSetDof_ (point dof : Z)
| DMLabelSetValue_ (point value : Z)
| PetscSectionSetUp_
| DMSetLocalSection_
| PetscSectionDestroy_
| DMPlexLabelComplete_
| DMPlexFilter_ (value : Z)
| PetscFVCreate_
| PetscObjectSetName_ (s : string)
| PetscFVSetFromOptions_
| PetscFVSetNumComponents_ (n : Z)
| DMGetCoordinateDim_
| PetscFVSetSpatialDimension_ (dim : Z)
| DMAddField_ (field : string)
| PetscFVDestroy_
| DMCreateDS_
| DMView_
| DMSetOutputSequenceNumber_ (sequenceNumber : Z) (time : Q)
| DMGetLocalVector_ (dm : DMId)
| DMGlobalToLocalBegin_
| DMGlobalToLocalEnd_
| VecZeroEntries_ (v : VecId)
| ComputeRHSFunction_ (time : Q)
| VecGetArrayRead_ (v : VecId)
| VecGetArray_ (v : VecId)
| VecGetBlockSize_ (v : VecId)
| DMPlexGetSubpointIS_
| ISGetIndices_
| DMPlexPointLocalRead_ (point : Z)
| DMPlexPointLocalRef_ (point : Z)
| PetscArraycpy_ (dst src count : Z)
| ISRestoreIndices_
| VecRestoreArrayRead_ (v : VecId)
| VecRestoreArray_ (v : VecId)
| DMGetGlobalVector_
| DMLocalToGlobal_ADD_VALUES_
| VecView_
| DMRestoreGlobalVector_
| DMRestoreLocalVector_ (dm : DMId).

(** What can stop [Register] or [Save]: the [std::invalid_argument] thrown
    by [Register] itself, the exception [checkError] raises for a non-zero
    PETSc error code, and behaviour C++ leaves undefined (a null object
    dereferenced, memory touched outside an array).  What stops the
    destructor is [std::terminate]: the program ends. *)
Inductive Exn :=
| invalid_argument (what : string)
| petsc_error (c : Call) (code : Z)
| undefined_behaviour
| std_terminate.

(** A record written to the output stream. *)
Inductive Output :=
| Topology (dm : DM)
| Field (name : string) (sequenceNumber : Z) (time : Q) (data : list Q).

(** A named PETSc vector. *)
Record NamedVec := { vecName : string; vec : Vec }.

(** The state [Register] and [Save] act on: the monitor object, the calls
    made so far, the vectors currently taken from a DM and not yet given
    back, the vectors themselves (a DM hands out the same vector again, with
    whatever was left in it), and the output stream. *)
Record World := {
  this : BoundarySolverMonitor;
  trace : list Call;
  checkedOut : list VecId;
  vecs : VecId -> NamedVec;
  viewer : list Output
}.

Definition setThis (w : World) (x : BoundarySolverMonitor) : World :=
  {| this := x; trace := trace w; checkedOut := checkedOut w;
     vecs := vecs w; viewer := viewer w |}.
Definition setTrace (w : World) (x : list Call) : World :=
  {| this := this w; trace := x; checkedOut := checkedOut w;
     vecs := vecs w; viewer := viewer w |}.
Definition setCheckedOut (w : World) (x : list VecId) : World :=
  {| this := this w; trace := trace w; checkedOut := x;
     vecs := vecs w; viewer := viewer w |}.
Definition setVecs (w : World) (x : VecId -> NamedVec) : World :=
  {| this := this w; trace := trace w; checkedOut := checkedOut w;
     vecs := x; viewer := viewer w |}.
Definition setViewer (w : World) (x : list Output) : World :=
  {| this := this w; trace := trace w; checkedOut := checkedOut w;
     vecs := vecs w; viewer := x |}.

Definition setVec (w : World) (v : VecId) (x : NamedVec) : World :=
  setVecs w (fun u => if VecId_eqb u v then x else vecs w u).

Definition setValues (w : World) (v : VecId) (x : list Q) : World :=
  setVec w v {| vecName := vecName (vecs w v);
                vec := {| values := x; blockSize := blockSize (vec (vecs w v)) |} |}.

Definition valuesOf (w : World) (v : VecId) : list Q := values (vec (vecs w v)).

Arguments setThis w x /.
Arguments setTrace w x /.
Arguments setCheckedOut w x /.
Arguments setVecs w x /.
Arguments setViewer w x /.
Arguments setVec w v x /.
Arguments setValues w v x /.
Arguments valuesOf w v /.

(** A vector keeps its size: what a routine writes into it is cut or padded
    to the size it has. *)
Definition fit (n : nat) (l : list Q) : list Q := take n (l ++ replicate n 0%Q).

Definition fill (w : World) (v : VecId) (x : list Q) : World :=
  setValues w v (fit (length (valuesOf w v)) x).

Arguments fill w v x /.

Definition setBoundaryDm (w : World) (x : option DM) : World :=
  setThis w {| name := name (this w); solver := solver (this w);
               boundarySolver := boundarySolver (this w);
               boundaryDm := x; faceDm := faceDm (this w) |}.
Definition setFaceDm (w : World) (x : option DM) : World :=
  setThis w {| name := name (this w); solver := solver (this w);
               boundarySolver := boundarySolver (this w);
               boundaryDm := boundaryDm (this w); faceDm := x |}.

Arguments setBoundaryDm w x /.
Arguments setFaceDm w x /.

(** ** The surroundings of one process *)

(** [ierr] is the error code each library call returns (0 is success).
    [globalToLocal] is the ghost exchange of the solver's mesh: the local,
    ghost-inclusive view of a global solution vector.  The remaining fields
    describe how the Face Sub-mesh vector is distributed: the size of the
    global vector, the global entry each local entry belongs to, and for
    each other process the contributions (global entry, value) its local
    buffer makes. *)
Record Env := {
  ierr : Call -> Z;
  globalToLocal : list Q -> list Q;
  faceGlobalSize : nat;
  faceLocalToGlobal : list nat;
  peers : list (list (nat * Q))
}.

(** ** State and exceptions *)

Definition M (A : Type) : Type := World -> (Exn + A) * World.

Definition ret {A} (a : A) : M A := fun w => (inr a, w).
Definition throw {A} (e : Exn) : M A := fun w => (inl e, w).
Definition bind {A B} (m : M A) (k : A -> M B) : M B :=
  fun w => match m w with
           | (inl e, w') => (inl e, w')
           | (inr a, w') => k a w'
           end.

#[global] Instance M_ret : MRet M := @ret.
#[global] Instance M_bind : MBind M := fun A B k m => bind m k.

(** [for (x : xs) body], the body updating a local variable *)
Fixpoint foldM {A S} (xs : list A) (body : S -> A -> M S) (s : S) : M S :=
  match xs with
  | [] => ret s
  | x :: xs' => s' ← body s x; foldM xs' body s'
  end.

(** [for (x : xs) body] *)
Fixpoint forEach {A} (xs : list A) (body : A -> M unit) : M unit :=
  match xs with
  | [] => ret tt
  | x :: xs' => body x ;; forEach xs' body
  end.

(** ** The library calls, as the monitor makes them *)

Section WithEnv.

Variable env : Env.

Definition log (c : Call) : M unit :=
  fun w => (inr tt, setTrace w (trace w ++ [c])).

(** [call(...) >> checkError]: the call is made; when it returns a non-zero
    error code it has done nothing and [checkError] throws. *)
Definition checkError {A} (c : Call) (effect : M A) : M A :=
  log c ;;
  if Z.eqb (ierr env c) 0 then effect else throw (petsc_error c (ierr env c)).

(** A call whose error code is dropped (no [>> checkError]). *)
Definition ignoreError (c : Call) (effect : M unit) : M unit :=
  log c ;;
  if Z.eqb (ierr env c) 0 then effect else ret tt.

Definition get {A} (f : World -> A) : M A := fun w => (inr (f w), w).
Definition modify (f : World -> World) : M unit := fun w => (inr tt, f w).

(** [GetSolver()->GetSubDomain()]: dereferences the solver pointer. *)
Definition GetSolver : M Solver :=
  fun w => match solver (this w) with
           | Some s => (inr s, w)
           | None => (inl undefined_behaviour, w)
           end.

(** A DM member handed to PETSc: a null handle is refused by the call. *)
Definition handle (c : Call) (d : BoundarySolverMonitor -> option DM) : M DM :=
  fun w => match d (this w) with
           | Some x => (inr x, w)
           | None => (inl (petsc_error c PETSC_ERR_ARG_NULL), w)
           end.

Definition labelName : string := "boundaryFaceLabel".

(** [DMClone]: same topology and labels; no section, no fields. *)
Definition clone (d : DM) : DM :=
  {| plex := plex d; labels := labels d; localSection := None;
     subpointIS := subpointIS d; fields := [];
     outputSequence := (-1, 0%Q) |}.

(** End of the chart of a mesh (Plex numbers its points from 0). *)
Definition chartEnd (m : DMPlex) : Z := foldr Z.max 0 (map snd (depthStrata m)).

(** The local section [DMCreateDS] gives a mesh whose fields are all
    finite-volume fields: each cell (height-0 point) carries the components
    of every field, the other points carry nothing. *)
Definition cellSection (m : DMPlex) (dofPerCell : Z) : PetscSection :=
  {| pStart := 0; pEnd := chartEnd m;
     atlasDof := map (fun p => if inRange (DMPlexGetHeightStratum m 0) p
                               then dofPerCell else 0)
                     (seqZ 0 (chartEnd m));
     isSetUp := true |}.

Definition localSize (d : DM) : nat :=
  match localSection d with
  | Some s => Z.to_nat (PetscSectionGetStorageSize s)
  | None => O
  end.

Definition localBlockSize (d : DM) : Z :=
  match localSection d with
  | Some s => sectionBlockSize s
  | None => 1
  end.

(** A DM hands out vector [v] with [n] entries; what the entries hold is
    whatever the vector it keeps for the purpose held before. *)
Definition handOut (v : VecId) (n : nat) (bs : Z) : M unit :=
  modify (fun w =>
    setCheckedOut
      (setVec w v {| vecName := vecName (vecs w v);
                     vec := {| values := fit n (valuesOf w v); blockSize := bs |} |})
      (checkedOut w ++ [v])).

Definition giveBack (v : VecId) : M unit :=
  modify (fun w =>
    setCheckedOut w (filter (fun u => VecId_eqb u v = false) (checkedOut w))).

(** [GetSolver()->GetSubDomain().GetDM()] is evaluated before the call it
    is an argument of. *)
Definition DMGetLocalVector (which : DMId) (v : VecId) : M unit :=
  let c := DMGetLocalVector_ which in
  match which with
  | SolverDM =>
      s ← GetSolver;
      checkError c (handOut v (localSize (GetDM s)) (localBlockSize (GetDM s)))
  | BoundaryDM =>
      checkError c (d ← handle c boundaryDm; handOut v (localSize d) (localBlockSize d))
  | FaceDM =>
      checkError c (d ← handle c faceDm; handOut v (localSize d) (localBlockSize d))
  end.

Definition DMRestoreLocalVector (which : DMId) (v : VecId) : M unit :=
  let c := DMRestoreLocalVector_ which in
  match which with
  | SolverDM => s ← GetSolver; checkError c (giveBack v)
  | BoundaryDM => checkError c (d ← handle c boundaryDm; giveBack v)
  | FaceDM => checkError c (d ← handle c faceDm; giveBack v)
  end.

Definition zero (v : VecId) : M unit :=
  modify (fun w => setValues w v (replicate (length (valuesOf w v)) 0%Q)).

(** [DMPlexPointLocalRead] / [DMPlexPointLocalRef]: where the data of a
    point starts in the local array, or null when the point has no dof.  A
    point outside the chart of the section is refused. *)
Definition pointLocal (c : Call) (dm : BoundarySolverMonitor -> option DM)
    (point : Z) : M (option Z) :=
  checkError c
    (d ← handle c dm;
     match localSection d with
     | None => throw (petsc_error c PETSC_ERR_ARG_WRONGSTATE)
     | Some s =>
         if inChart s point
         then ret (if Z.ltb 0 (dofOf s point) then Some (offsetOf s point) else None)
         else throw (petsc_error c PETSC_ERR_ARG_OUTOFRANGE)
     end).

(** [count] entries of [src] from [so] on, written over [dst] from [to] on;
    [None] when either block leaves its array. *)
Definition copyBlock (src : list Q) (so : Z) (dst : list Q) (to count : Z)
  : option (list Q) :=
  if Z.leb 0 so && Z.leb 0 to && Z.leb 0 count
     && Z.leb (so + count) (Z.of_nat (length src))
     && Z.leb (to + count) (Z.of_nat (length dst))
  then Some (take (Z.to_nat to) dst
             ++ take (Z.to_nat count) (drop (Z.to_nat so) src)
             ++ drop (Z.to_nat (to + count)) dst)
  else None.

(** [PetscArraycpy(globalFaceData, localBoundaryData, dataSize)]: the
    pointers point into the local face vector and the local boundary
    vector. *)
Definition PetscArraycpy (dst src count : Z) : M unit :=
  checkError (PetscArraycpy_ dst src count)
    (fun w =>
       match copyBlock (valuesOf w LocalBoundaryVec) src
                       (valuesOf w LocalFaceVec) dst count with
       | Some x => (inr tt, setValues w LocalFaceVec x)
       | None => (inl undefined_behaviour, w)
       end).

(** [DMLocalToGlobal(..., ADD_VALUES, ...)]: every contribution is added to
    the global entry it belongs to, those of this process first. *)
Definition addContribution (g : list Q) (c : nat * Q) : list Q :=
  alter (fun y => (y + c.2)%Q) c.1 g.

Definition contributions (localValues : list Q) : list (nat * Q) :=
  zip (faceLocalToGlobal env) localValues ++ concat (peers env).

Definition localToGlobalAdd (localValues g : list Q) : list Q :=
  fold_left addContribution (contributions localValues) g.

(** ** The destructor (lines 4-12) *)

(** A function that is [noexcept], as a destructor is unless it is declared
    otherwise: an exception that is about to leave it calls
    [std::terminate] instead. *)
Definition noexcept {A} (m : M A) : M A :=
  fun w => match m w with
           | (inr a, w') => (inr a, w')
           | (inl undefined_behaviour, w') => (inl undefined_behaviour, w')
           | (inl _, w') => (inl std_terminate, w')
           end.

Definition destroy : M unit :=
  noexcept
    (b ← get (fun w => boundaryDm (this w));
     match b with
     | Some _ => checkError (DMDestroy_ BoundaryDM) (modify (fun w => setBoundaryDm w None))
     | None => ret tt
     end ;;
     f ← get (fun w => faceDm (this w));
     match f with
     | Some _ => checkError (DMDestroy_ FaceDM) (modify (fun w => setFaceDm w None))
     | None => ret tt
     end).

(** ** Register (lines 14-86) *)

(** Modelled from the spec: [Monitor::Register] of the base class
    ([monitors/monitor.hpp], not among the sources) records the parent
    solver, which [GetSolver()] later returns. *)
Definition Monitor_Register (s : Solver) : M unit :=
  modify (fun w =>
    setThis w {| name := name (this w); solver := Some s;
                 boundarySolver := boundarySolver (this w);
                 boundaryDm := boundaryDm (this w); faceDm := faceDm (this w) |}).

Definition setBoundarySolver (b : option BoundarySolver) : M unit :=
  modify (fun w =>
    setThis w {| name := name (this w); solver := solver (this w);
                 boundarySolver := b;
                 boundaryDm := boundaryDm (this w); faceDm := faceDm (this w) |}).

Definition setName (n : string) : M unit :=
  modify (fun w =>
    setThis w {| name := n; solver := solver (this w);
                 boundarySolver := boundarySolver (this w);
                 boundaryDm := boundaryDm (this w); faceDm := faceDm (this w) |}).

(** The label [boundaryFaceLabel] lives inside [boundaryDm]; the handle the
    code holds points to it, so a change through the handle is a change of
    the DM. *)
Definition labelOf (d : DM) : gmap Z (gset Z) := default ∅ (labels d !! labelName).

Definition onLabel (c : Call) (present : bool)
    (f : DM -> gmap Z (gset Z) -> gmap Z (gset Z)) : M unit :=
  checkError c
    (if present
     then d ← handle c boundaryDm;
          modify (fun w =>
            setBoundaryDm w (Some (setLabels d (<[labelName := f d (labelOf d)]> (labels d)))))
     else throw (petsc_error c PETSC_ERR_ARG_NULL)).

Definition SetDof (sec : PetscSection) (point dof : Z) : M PetscSection :=
  checkError (PetscSectionSetDof_ point dof)
    match PetscSectionSetDof sec point dof with
    | inl code => throw (petsc_error (PetscSectionSetDof_ point dof) code)
    | inr sec' => ret sec'
    end.

(** The loop of lines 46-48. *)
Definition clearDofs (fStart fEnd : Z) (section : PetscSection) : M PetscSection :=
  foldM (seqZ fStart (fEnd - fStart)) (fun sec f => SetDof sec f 0) section.

(** The loop of lines 52-58. *)
Definition markFaces (present : bool) (numberOfComponents : Z)
    (faceIds : list Z) (section : PetscSection) : M PetscSection :=
  foldM faceIds
    (fun sec faceId =>
       onLabel (DMLabelSetValue_ faceId 1) present
               (fun _ l => DMLabelSetValue l faceId 1) ;;
       SetDof sec faceId numberOfComponents)
    section.

(** The body of the loop of lines 72-84, for one output component. *)
Definition addField (field : string) : M unit :=
  checkError PetscFVCreate_ (ret tt) ;;
  checkError (PetscObjectSetName_ field) (ret tt) ;;
  checkError PetscFVSetFromOptions_ (ret tt) ;;
  checkError (PetscFVSetNumComponents_ 1) (ret tt) ;;
  dim ← checkError DMGetCoordinateDim_
          (d ← handle DMGetCoordinateDim_ faceDm; ret (dimension (plex d)));
  checkError (PetscFVSetSpatialDimension_ dim) (ret tt) ;;
  checkError (DMAddField_ field)
    (d ← handle (DMAddField_ field) faceDm;
     modify (fun w => setFaceDm w (Some (setFields d (fields d ++ [(field, 1)]))))) ;;
  ignoreError PetscFVDestroy_ (ret tt).

Definition Register (s : Solver) : M unit :=
  Monitor_Register s ;;
  (* this monitor will only work boundary solver *)
  setBoundarySolver (dynamic_pointer_cast s) ;;
  match dynamic_pointer_cast s with
  | None =>
      throw (invalid_argument
        "The BoundarySolverMonitor monitor can only be used with ablate::boundarySolver::BoundarySolver")
  | Some bs =>
      (* update the name *)
      n ← get (fun w => name (this w));
      setName (GetSolverId s ++ n)%string ;;
      (* make a copy of the dm for a boundary dm *)
      checkError DMGetCoordinateDM_ (ret tt) ;;
      checkError DMClone_ (modify (fun w => setBoundaryDm w (Some (clone (GetDM s))))) ;;
      checkError DMSetCoordinateDM_ (d ← handle DMSetCoordinateDM_ boundaryDm; ret tt) ;;
      (* create a label in the dm copy to mark boundary faces *)
      checkError (DMCreateLabel_ labelName)
        (d ← handle (DMCreateLabel_ labelName) boundaryDm;
         match labels d !! labelName with
         | Some _ => ret tt
         | None => modify (fun w =>
                     setBoundaryDm w (Some (setLabels d (<[labelName := ∅]> (labels d)))))
         end) ;;
      boundaryFaceLabel ← checkError (DMGetLabel_ labelName)
        (d ← handle (DMGetLabel_ labelName) boundaryDm;
         ret (bool_decide (is_Some (labels d !! labelName))));
      (* also create a section on each of the faces *)
      sec ← checkError PetscSectionCreate_ (ret PetscSectionCreate);
      '(fStart, fEnd) ← checkError (DMPlexGetHeightStratum_ SolverDM 1)
                          (ret (DMPlexGetHeightStratum (plex (GetDM s)) 1));
      sec ← checkError (PetscSectionSetChart_ fStart fEnd)
              (ret (PetscSectionSetChart sec fStart fEnd));
      (* default section dof to zero *)
      sec ← clearDofs fStart fEnd sec;
      (* set the label at each of the faces and set the dof at each point *)
      let numberOfComponents := Z.of_nat (length (GetOutputComponents bs)) in
      sec ← markFaces boundaryFaceLabel numberOfComponents (GetBoundaryGeometry bs) sec;
      (* finish the section *)
      sec ← checkError PetscSectionSetUp_ (ret (PetscSectionSetUp sec));
      checkError DMSetLocalSection_
        (d ← handle DMSetLocalSection_ boundaryDm;
         modify (fun w => setBoundaryDm w (Some (setLocalSection d (Some sec))))) ;;
      checkError PetscSectionDestroy_ (ret tt) ;;
      (* complete the label *)
      onLabel DMPlexLabelComplete_ boundaryFaceLabel
              (fun d l => DMPlexLabelComplete (plex d) l) ;;
      (* now create a sub dm with only the faces *)
      checkError (DMPlexFilter_ 1)
        (d ← handle (DMPlexFilter_ 1) boundaryDm;
         match boundaryFaceLabel with
         | true => modify (fun w => setFaceDm w (Some
                {| plex := subPlex (plex d) (labelOf d) 1;
                   labels := ∅;
                   localSection := None;
                   subpointIS := Some (subpoints (plex d) (labelOf d) 1);
                   fields := [];
                   outputSequence := (-1, 0%Q) |}))
         | false => throw (petsc_error (DMPlexFilter_ 1) PETSC_ERR_ARG_NULL)
         end) ;;
      (* add each of the output components on each face in the faceDm *)
      forEach (GetOutputComponents bs) addField ;;
      checkError DMCreateDS_
        (d ← handle DMCreateDS_ faceDm;
         modify (fun w => setFaceDm w (Some
           (setLocalSection d
              (Some (cellSection (plex d) (Zsum (map snd (fields d)))))))))
  end.

(** ** Save (lines 88-177) *)

(** Modelled from the spec: [GetId()] is declared in
    [monitors/boundarySolverMonitor.hpp], not among the sources; it is the
    monitor's identifier string, the member [name]. *)
Definition GetId : M string := get (fun w => name (this w)).

(** [boundarySolver->...]: dereferences the member pointer. *)
Definition GetBoundarySolver : M BoundarySolver :=
  fun w => match boundarySolver (this w) with
           | Some b => (inr b, w)
           | None => (inl undefined_behaviour, w)
           end.

(** [faceToBoundary[facePt]]: reading outside the index array is
    undefined. *)
Definition indexAt (faceToBoundary : list Z) (facePt : Z) : M Z :=
  match (if Z.ltb facePt 0 then None else faceToBoundary !! Z.to_nat facePt) with
  | Some boundaryPt => ret boundaryPt
  | None => throw undefined_behaviour
  end.

(** The body of the loop of lines 141-152. *)
Definition transferPoint (dataSize : Z) (faceToBoundary : list Z) (facePt : Z)
  : M unit :=
  boundaryPt ← indexAt faceToBoundary facePt;
  localBoundaryData ← pointLocal (DMPlexPointLocalRead_ boundaryPt) boundaryDm boundaryPt;
  globalFaceData ← pointLocal (DMPlexPointLocalRef_ facePt) faceDm facePt;
  match globalFaceData, localBoundaryData with
  | Some dst, Some src => PetscArraycpy dst src dataSize
  | _, _ => ret tt
  end.

Definition Save (sequenceNumber : Z) (time : Q) : M unit :=
  (* If this is the first output, store a copy of the faceDm *)
  (if Z.eqb sequenceNumber 0
   then checkError DMView_
          (d ← handle DMView_ faceDm;
           modify (fun w => setViewer w (viewer w ++ [Topology d])))
   else ret tt) ;;
  (* Set the output sequence number to the face dm *)
  checkError (DMSetOutputSequenceNumber_ sequenceNumber time)
    (d ← handle (DMSetOutputSequenceNumber_ sequenceNumber time) faceDm;
     modify (fun w => setFaceDm w (Some (setOutputSequence d (sequenceNumber, time))))) ;;
  (* Create a local version of the solution (X) vector *)
  DMGetLocalVector SolverDM LocXVec ;;
  s ← GetSolver;
  checkError DMGlobalToLocalBegin_ (ret tt) ;;
  (* create a local vector on the boundary solver *)
  DMGetLocalVector BoundaryDM LocalBoundaryVec ;;
  checkError (VecZeroEntries_ LocalBoundaryVec) (zero LocalBoundaryVec) ;;
  (* finish with the locXVec *)
  s ← GetSolver;
  checkError DMGlobalToLocalEnd_
    (modify (fun w => fill w LocXVec (globalToLocal env (GetSolutionVector s)))) ;;
  (* compute the rhs *)
  bs ← GetBoundarySolver;
  checkError (ComputeRHSFunction_ time)
    (modify (fun w =>
       fill w LocalBoundaryVec
         (ComputeRHSFunction bs time (valuesOf w LocXVec) (valuesOf w LocalBoundaryVec)))) ;;
  (* Create a local vector for just the monitor *)
  DMGetLocalVector FaceDM LocalFaceVec ;;
  checkError (VecZeroEntries_ LocalFaceVec) (zero LocalFaceVec) ;;
  (* Get the raw data for the global vectors *)
  localBoundaryArray ← checkError (VecGetArrayRead_ LocalBoundaryVec)
                         (get (fun w => arrayNonNull (vec (vecs w LocalBoundaryVec))));
  localFaceArray ← checkError (VecGetArray_ LocalFaceVec)
                     (get (fun w => arrayNonNull (vec (vecs w LocalFaceVec))));
  (* Determine the size of data *)
  dataSize ← checkError (VecGetBlockSize_ LocalFaceVec)
               (get (fun w => blockSize (vec (vecs w LocalFaceVec))));
  (* March over each cell in the face dm *)
  '(cStart, cEnd) ← checkError (DMPlexGetHeightStratum_ FaceDM 0)
                      (d ← handle (DMPlexGetHeightStratum_ FaceDM 0) faceDm;
                       ret (DMPlexGetHeightStratum (plex d) 0));
  (* get the mapping information *)
  faceIs ← checkError DMPlexGetSubpointIS_
             (d ← handle DMPlexGetSubpointIS_ faceDm; ret (subpointIS d));
  faceToBoundary ← checkError ISGetIndices_
                     match faceIs with
                     | Some ix => ret ix
                     | None => throw (petsc_error ISGetIndices_ PETSC_ERR_ARG_NULL)
                     end;
  (* Copy over the values.  We may skip some local ghost values *)
  (if localBoundaryArray && localFaceArray
   then forEach (seqZ cStart (cEnd - cStart))
                (transferPoint dataSize faceToBoundary)
   else ret tt) ;;
  (* restore *)
  checkError ISRestoreIndices_ (ret tt) ;;
  checkError (VecRestoreArrayRead_ LocalBoundaryVec) (ret tt) ;;
  checkError (VecRestoreArray_ LocalFaceVec) (ret tt) ;;
  (* Map to a global array with add values *)
  checkError DMGetGlobalVector_
    (d ← handle DMGetGlobalVector_ faceDm;
     handOut GlobalFaceVec (faceGlobalSize env) (localBlockSize d)) ;;
  id ← GetId;
  checkError (PetscObjectSetName_ id)
    (modify (fun w =>
       setVec w GlobalFaceVec {| vecName := id; vec := vec (vecs w GlobalFaceVec) |})) ;;
  ignoreError (VecZeroEntries_ GlobalFaceVec) (zero GlobalFaceVec) ;;
  checkError DMLocalToGlobal_ADD_VALUES_
    (modify (fun w =>
       setValues w GlobalFaceVec
         (localToGlobalAdd (valuesOf w LocalFaceVec) (valuesOf w GlobalFaceVec)))) ;;
  (* write to the output file *)
  checkError VecView_
    (d ← handle VecView_ faceDm;
     modify (fun w =>
       setViewer w (viewer w ++ [Field (vecName (vecs w GlobalFaceVec))
                                       (outputSequence d).1 (outputSequence d).2
                                       (valuesOf w GlobalFaceVec)]))) ;;
  checkError DMRestoreGlobalVector_ (giveBack GlobalFaceVec) ;;
  (* cleanup *)
  DMRestoreLocalVector FaceDM LocalFaceVec ;;
  DMRestoreLocalVector SolverDM LocXVec ;;
  DMRestoreLocalVector BoundaryDM LocalBoundaryVec.

End WithEnv.

End Monitor.

(* ===================================================================== *)
(** * Vocabulary of the statements                                         *)
(* ===================================================================== *)

Module Statements.
Import Petsc Monitor.

(** The calls a computation added to the trace. *)
Definition newCalls (w w' : World) : list Call := drop (length (trace w)) (trace w').

(** The calls made for one point inside the transfer loop of [Save]. *)
Definition perPoint (c : Call) : bool :=
  match c with
  | DMPlexPointLocalRead_ _ | DMPlexPointLocalRef_ _ | PetscArraycpy_ _ _ _ => true
  | _ => false
  end.

(** What the transfer loop leaves alone: the monitor, the outstanding
    vectors, the output stream, every vector but the local face vector, and
    of that one the name, block size and length; the trace only grows, by
    per-point calls. *)
Definition frame (w w' : World) : Prop :=
  this w' = this w /\
  checkedOut w' = checkedOut w /\
  viewer w' = viewer w /\
  (forall v, v <> LocalFaceVec -> vecs w' v = vecs w v) /\
  vecName (vecs w' LocalFaceVec) = vecName (vecs w LocalFaceVec) /\
  blockSize (vec (vecs w' LocalFaceVec)) = blockSize (vec (vecs w LocalFaceVec)) /\
  length (valuesOf w' LocalFaceVec) = length (valuesOf w LocalFaceVec) /\
  exists t, trace w' = trace w ++ t /\ forallb perPoint t = true.

(** [m], started in [w], ends with result [r] in [w']. *)
Definition ran {A} (m : M A) (w : World) (r : Exn + A) (w' : World) : Prop :=
  m w = (r, w').

(** [a] is immediately followed by [b] somewhere in [t]. *)
Definition immediatelyFollowed (a b : Call) (t : list Call) : Prop :=
  exists pre post, t = pre ++ a :: b :: post.

(** The calls of a [Save] that runs to its end, in the order of the source
    (lines 91-175); [loopCalls] are those of the transfer loop. *)
Definition saveCalls (sequenceNumber : Z) (time : Q) (id : string)
    (loopCalls : list Call) : list Call :=
  (if Z.eqb sequenceNumber 0 then [DMView_] else []) ++
  [DMSetOutputSequenceNumber_ sequenceNumber time;
   DMGetLocalVector_ SolverDM;
   DMGlobalToLocalBegin_;
   DMGetLocalVector_ BoundaryDM;
   VecZeroEntries_ LocalBoundaryVec;
   DMGlobalToLocalEnd_;
   ComputeRHSFunction_ time;
   DMGetLocalVector_ FaceDM;
   VecZeroEntries_ LocalFaceVec;
   VecGetArrayRead_ LocalBoundaryVec;
   VecGetArray_ LocalFaceVec;
   VecGetBlockSize_ LocalFaceVec;
   DMPlexGetHeightStratum_ FaceDM 0;
   DMPlexGetSubpointIS_;
   ISGetIndices_] ++
  loopCalls ++
  [ISRestoreIndices_;
   VecRestoreArrayRead_ LocalBoundaryVec;
   VecRestoreArray_ LocalFaceVec;
   DMGetGlobalVector_;
   PetscObjectSetName_ id;
   VecZeroEntries_ GlobalFaceVec;
   DMLocalToGlobal_ADD_VALUES_;
   VecView_;
   DMRestoreGlobalVector_;
   DMRestoreLocalVector_ FaceDM;
   DMRestoreLocalVector_ SolverDM;
   DMRestoreLocalVector_ BoundaryDM].

(** The distributed exchanges and the boundary solver's computation. *)
Definition exchangeOrCompute (c : Call) : bool :=
  match c with
  | DMGlobalToLocalBegin_ | DMGlobalToLocalEnd_ | ComputeRHSFunction_ _
  | DMLocalToGlobal_ADD_VALUES_ => true
  | _ => false
  end.

Definition isField (o : Output) : bool :=
  match o with
  | Field _ _ _ _ => true
  | Topology _ => false
  end.

(** The records a computation added to the output stream. *)
Definition newOutput (w w' : World) : list Output :=
  drop (length (viewer w)) (viewer w').

(** Only the trace differs between [w] and [w']. *)
Definition onlyTrace (w w' : World) : Prop :=
  this w' = this w /\ checkedOut w' = checkedOut w /\
  vecs w' = vecs w /\ viewer w' = viewer w.
(** [b'] is [b] with other labels. *)
Definition sameMesh (b b' : DM) : Prop :=
  plex b' = plex b /\ localSection b' = localSection b /\
  subpointIS b' = subpointIS b /\ fields b' = fields b /\
  outputSequence b' = outputSequence b.

(** [sec'] is [sec] with the dof of the points [ids] set to [n]. *)
Definition dofsSet (sec sec' : PetscSection) (ids : list Z) (n : Z) : Prop :=
  pStart sec' = pStart sec /\ pEnd sec' = pEnd sec /\
  isSetUp sec' = isSetUp sec /\
  length (atlasDof sec') = length (atlasDof sec) /\
  forall p, inChart sec p = true ->
    dofOf sec' p = if decide (p ∈ ids) then n else dofOf sec p.

(** What [Register] leaves in the monitor when it succeeds on a boundary
    solver [bs] of the solver [s]: every face of the boundary geometry lies
    in the face range of the mesh; the Boundary Mesh carries the completed
    label and the section of the faces; the Face Sub-mesh is the filtered
    mesh with its index set and the layout of its fields. *)
Definition registeredWith (s : Solver) (bs : BoundarySolver)
    (mon : BoundarySolverMonitor) : Prop :=
  let m := plex (GetDM s) in
  let faces := DMPlexGetHeightStratum m 1 in
  let n := Z.of_nat (length (GetOutputComponents bs)) in
  solver mon = Some s /\ boundarySolver mon = Some bs /\
  (forall id, id ∈ GetBoundaryGeometry bs -> inRange faces id = true) /\
  exists b f sec,
    boundaryDm mon = Some b /\ faceDm mon = Some f /\
    plex b = m /\
    stratum (labelOf b) 1 = closureOfSet m (list_to_set (GetBoundaryGeometry bs)) /\
    localSection b = Some sec /\
    pStart sec = faces.1 /\ pEnd sec = faces.2 /\
    length (atlasDof sec) = Z.to_nat (faces.2 - faces.1) /\
    (forall p, inRange faces p = true ->
       dofOf sec p = if decide (p ∈ GetBoundaryGeometry bs) then n else 0) /\
    plex f = subPlex m (labelOf b) 1 /\
    subpointIS f = Some (subpoints m (labelOf b) 1) /\
    localSection f = Some (cellSection (plex f) n).

(** The values contributed to global entry [j], in the order they arrive. *)
Definition contributionsTo (j : nat) (cs : list (nat * Q)) : list Q :=
  map snd (filter (fun c => c.1 = j) cs).

(** Their sum, accumulated from 0 in that order. *)
Definition Qsum (l : list Q) : Q := fold_left Qplus l 0%Q.



(** The calls the destructor makes for the meshes it finds. *)
Definition destroyCalls (mon : BoundarySolverMonitor) : list Call :=
  match boundaryDm mon with Some _ => [DMDestroy_ BoundaryDM] | None => [] end ++
  match faceDm mon with Some _ => [DMDestroy_ FaceDM] | None => [] end.


End Statements.

(* ===================================================================== *)
(** * A small mesh to run the monitor on                                   *)
(* ===================================================================== *)

Module Examples.
Import Petsc Monitor.

(** One quadrilateral cell (point 0) with vertices 1-4 and edges 5-8; in
    two dimensions the edges are the faces. *)
Definition quad : DMPlex :=
  {| dimension := 2;
     depthStrata := [(1, 5); (5, 9); (0, 1)];
     cone := fun p =>
       if Z.eqb p 0 then [5; 6; 7; 8]
       else if Z.eqb p 5 then [1; 2]
       else if Z.eqb p 6 then [2; 3]
       else if Z.eqb p 7 then [3; 4]
       else if Z.eqb p 8 then [4; 1]
       else [] |}.

Definition quadDM : DM :=
  {| plex := quad; labels := ∅;
     localSection := Some (cellSection quad 4);
     subpointIS := None; fields := []; outputSequence := (-1, 0%Q) |}.

(** A boundary solver on the faces 7 and 5 with two output components; its
    computation writes 1, 2, 3, ... into the boundary vector. *)
Definition fluxes : BoundarySolver :=
  {| GetBoundaryGeometry := [7; 5];
     GetOutputComponents := ["heatFlux"; "massFlux"]%string;
     ComputeRHSFunction := fun _ _ b =>
       map (fun i => inject_Z (Z.of_nat (S i))) (seq 0 (length b)) |}.

Definition boundarySolverEx : Solver :=
  {| GetSolverId := "boundary"; GetDM := quadDM;
     GetSolutionVector := [1; 1; 1; 1]%Q;
     solverType := IsBoundarySolver fluxes |}.

Definition flowSolverEx : Solver :=
  {| GetSolverId := "flow"; GetDM := quadDM;
     GetSolutionVector := [1; 1; 1; 1]%Q;
     solverType := OtherSolver |}.

(** One process, every library call succeeding. *)
Definition serial : Env :=
  {| ierr := fun _ => 0;
     globalToLocal := fun x => x;
     faceGlobalSize := 4;
     faceLocalToGlobal := [0; 1; 2; 3]%nat;
     peers := [] |}.

(** The same, but the boundary solver's computation reports failure. *)
Definition computeFails : Env :=
  {| ierr := fun c => match c with ComputeRHSFunction_ _ => 1 | _ => 0 end;
     globalToLocal := fun x => x;
     faceGlobalSize := 4;
     faceLocalToGlobal := [0; 1; 2; 3]%nat;
     peers := [] |}.

(** A second process holds a copy of the first face and contributes 0 to
    each of its two entries. *)
Definition twoProcesses : Env :=
  {| ierr := fun _ => 0;
     globalToLocal := fun x => x;
     faceGlobalSize := 4;
     faceLocalToGlobal := [0; 1; 2; 3]%nat;
     peers := [[(0%nat, 0%Q); (1%nat, 0%Q)]] |}.




(** A monitor as constructed, before [Register]. *)
Definition fresh : World :=
  {| this := {| name := "_monitor"; solver := None; boundarySolver := None;
                boundaryDm := None; faceDm := None |};
     trace := [];
     checkedOut := [];
     vecs := fun _ => {| vecName := ""; vec := {| values := []; blockSize := 1 |} |};
     viewer := [] |}.

(** The monitor after [Register]. *)
Definition registered : World :=
  setTrace (Register serial boundarySolverEx fresh).2 [].

(** The boundary solver of the quadrilateral with one face too many: 9 is
    not a face of the mesh. *)
Definition stray : BoundarySolver :=
  {| GetBoundaryGeometry := [7; 9];
     GetOutputComponents := ["heatFlux"; "massFlux"]%string;
     ComputeRHSFunction := fun _ _ b => b |}.

Definition straySolverEx : Solver :=
  {| GetSolverId := "stray"; GetDM := quadDM;
     GetSolutionVector := [1; 1; 1; 1]%Q;
     solverType := IsBoundarySolver stray |}.

(** One process on which the Boundary Mesh cannot be destroyed. *)
Definition destroyFails : Env :=
  {| ierr := fun c => match c with DMDestroy_ BoundaryDM => 62 | _ => 0 end;
     globalToLocal := fun x => x;
     faceGlobalSize := 4;
     faceLocalToGlobal := [0; 1; 2; 3]%nat;
     peers := [] |}.

End Examples.

(* ===================================================================== *)
(** * Properties of the buoyancy source                                    *)
(* ===================================================================== *)

Module BuoyancyFacts.
Import Buoyancy.

(** The macro and the clamp of the design document agree. *)
Lemma PetscMax_clamped (a : double) : PetscMax a zero = clamped a.
Proof. reflexivity. Qed.

Lemma clamped_nonneg (a : double) : a <> S754_nan -> SFleb zero (clamped a) = true.
Proof.
  intros Ha. unfold clamped, zero.
  destruct a as [[] | [] | | [] m e]; try reflexivity. contradiction.
Qed.

Lemma store_same {A} (f : array A) i v : store f i v i = v.
Proof. unfold store. destruct (Z.eq_dec i i); congruence. Qed.

Lemma store_other {A} (f : array A) i j v : j <> i -> store f i v j = f j.
Proof. unfold store. intros H. destruct (Z.eq_dec j i); congruence. Qed.

Section Source.

Variables RHO RHOE RHOU : Z.
Hypothesis RHO_RHOE : RHO <> RHOE.
Hypothesis RHO_first : RHO < RHOU.
Hypothesis RHOE_first : RHOE < RHOU.

Variables (ctx : Buoyancy) (uOff : array Z) (u : array double).

Let density : double := u (uOff EULER_FIELD + RHO).

(** What one turn of the loop adds to the energy source. *)
Let energyStep (acc : double) (n : Z) : double :=
  add acc (mul (div (u (uOff EULER_FIELD + RHOU + n)) density)
               (momentumSource RHO ctx uOff u
                  (default zero (vectorAt (buoyancyVector ctx) n)))).

Lemma sourceLoop_spec (ns : list Z) :
  forall f : array double,
    NoDup ns ->
    (forall n, n ∈ ns -> 0 <= n /\ is_Some (vectorAt (buoyancyVector ctx) n)) ->
    exists f',
      sourceLoop RHOE RHOU ctx uOff u density ns f = Some f' /\
      f' RHO = f RHO /\
      f' RHOE = fold_left energyStep ns (f RHOE) /\
      (forall n, n ∈ ns ->
         f' (RHOU + n) =
           momentumSource RHO ctx uOff u (default zero (vectorAt (buoyancyVector ctx) n))) /\
      (forall n, n ∉ ns -> 0 <= n -> f' (RHOU + n) = f (RHOU + n)).
Proof.
  induction ns as [| n ns IH]; intros f Hnd Hin.
  - exists f. simpl. repeat split; auto.
    intros n Hn. inversion Hn.
  - apply NoDup_cons in Hnd as [Hn Hnd].
    destruct (Hin n) as [Hn0 [b Hb]]; [left |].
    simpl. unfold sourceStep. rewrite Hb.
    set (m := PetscMax (mul (sub density (densityAvg ctx)) b) zero).
    set (f1 := store f (RHOU + n) m).
    set (f2 := store f1 RHOE _).
    destruct (IH f2 Hnd) as (f' & Hrun & HRHO & HRHOE & Hmom & Hrest).
    { intros k Hk. apply Hin. now right. }
    exists f'. split; [exact Hrun |].
    assert (Hm : f1 (RHOU + n) = m) by apply store_same.
    assert (HE : f1 RHOE = f RHOE) by (apply store_other; lia).
    repeat split.
    + rewrite HRHO. unfold f2, f1. rewrite !store_other by lia. reflexivity.
    + rewrite HRHOE. unfold f2 at 1. rewrite store_same, Hm, HE.
      f_equal. unfold energyStep, momentumSource. rewrite Hb. reflexivity.
    + intros k Hk. apply elem_of_cons in Hk as [-> | Hk].
      * rewrite (Hrest n Hn Hn0). unfold f2. rewrite store_other by lia.
        rewrite Hm. unfold momentumSource. rewrite Hb. reflexivity.
      * apply Hmom, Hk.
    + intros k Hk Hk0. apply not_elem_of_cons in Hk as [Hkn Hk].
      rewrite (Hrest k Hk Hk0).
      unfold f2, f1. rewrite !store_other; [reflexivity | lia | lia].
Qed.

(** C10, as the code has it.  [ComputeBuoyancySource] returns normally
    whenever the buoyancy vector has an entry for each of the [dim]
    directions, and then, all arithmetic being that of doubles: the density
    source is 0.0; for every direction [n < dim] the momentum source is
    max((density - densityAvg) * buoyancyVector[n], 0), that is 0.0 when the
    product is negative and the product itself otherwise; it is not
    negative whenever the product is a number, and it is NaN when the
    product is NaN; and the energy source is the sum over [n], taken from
    0.0 in the order of [n], of (momentum[n] / density) times that clamped
    momentum source. *)
Theorem ComputeBuoyancySource_spec (dim : Z) (time : double) (f : array double) :
  dim <= Z.of_nat (length (buoyancyVector ctx)) ->
  exists f',
    ComputeBuoyancySource RHO RHOE RHOU dim time uOff u f ctx = Some f' /\
    f' RHO = zero /\
    (forall n, 0 <= n < dim ->
       exists b,
         vectorAt (buoyancyVector ctx) n = Some b /\
         let product := mul (sub (u (uOff EULER_FIELD + RHO)) (densityAvg ctx)) b in
         f' (RHOU + n) = clamped product /\
         (SFltb product zero = true -> f' (RHOU + n) = zero) /\
         (SFltb product zero = false -> f' (RHOU + n) = product) /\
         (product <> S754_nan -> SFleb zero (f' (RHOU + n)) = true) /\
         (product = S754_nan -> f' (RHOU + n) = S754_nan)) /\
    f' RHOE = energySource RHO RHOU ctx uOff u dim.
Proof.
  intros Hdim. unfold ComputeBuoyancySource.
  assert (Hvec : forall n, 0 <= n < dim -> is_Some (vectorAt (buoyancyVector ctx) n)).
  { intros n Hn. unfold vectorAt.
    destruct (Z.ltb_spec n 0); [lia |].
    apply lookup_lt_is_Some. lia. }
  destruct (sourceLoop_spec (seqZ 0 dim) (store (store f RHO zero) RHOE zero))
    as (f' & Hrun & HRHO & HRHOE & Hmom & _).
  { apply NoDup_seqZ. }
  { intros n Hn. apply elem_of_seqZ in Hn.
    split; [lia | apply Hvec; lia]. }
  exists f'. split; [exact Hrun |]. split; [| split].
  - rewrite HRHO, store_other by lia. apply store_same.
  - intros n Hn. destruct (Hvec n Hn) as [b Hb]. exists b.
    split; [exact Hb |]. cbv zeta.
    assert (Hf : f' (RHOU + n) =
                 clamped (mul (sub (u (uOff EULER_FIELD + RHO)) (densityAvg ctx)) b)).
    { rewrite Hmom by (apply elem_of_seqZ; lia).
      rewrite Hb. reflexivity. }
    rewrite Hf. split; [reflexivity |]. unfold clamped at 1 2.
    split; [intros ->; reflexivity |].
    split; [intros ->; reflexivity |].
    split; [apply clamped_nonneg |].
    intros ->. reflexivity.
  - rewrite HRHOE, store_same. reflexivity.
Qed.

End Source.

(** The usual layout of the Euler field (density, energy, then momentum) in
    three dimensions: a fluid of density 1/2 in a reference density of 1
    under the buoyancy vector (8, 0, -8).  Along the first axis the product
    is -4 and the source is clamped to 0; along the third the fluid is
    pushed with 4; with a velocity of 2 everywhere the energy source is 8. *)
Lemma ComputeBuoyancySource_spec_witness :
  3 <= Z.of_nat (length [dbl 8 0; zero; dbl (-8) 0]) /\
  exists f',
    ComputeBuoyancySource 0 1 2 3 zero (fun _ => 0)
      (fun i => if Z.eqb i 0 then dbl 1 (-1) else dbl 1 0) (fun _ => dbl 7 0)
      {| buoyancyVector := [dbl 8 0; zero; dbl (-8) 0]; densityAvg := dbl 1 0 |}
      = Some f' /\
    f' 0 = zero /\ f' 2 = zero /\ f' 4 = dbl 4 0 /\ f' 1 = dbl 8 0.
Proof.
  split; [simpl; lia |].
  destruct (ComputeBuoyancySource_spec 0 1 2 ltac:(lia) ltac:(lia) ltac:(lia)
              {| buoyancyVector := [dbl 8 0; zero; dbl (-8) 0]; densityAvg := dbl 1 0 |}
              (fun _ => 0) (fun i => if Z.eqb i 0 then dbl 1 (-1) else dbl 1 0)
              3 zero (fun _ => dbl 7 0) ltac:(simpl; lia))
    as (f' & Hrun & H0 & Hm & He).
  exists f'. split; [exact Hrun |]. split; [exact H0 |]. split; [| split].
  - destruct (Hm 0 ltac:(lia)) as (b & Hb & _ & Hc & _).
    injection Hb as <-. change (f' 2) with (f' (2 + 0)). apply Hc.
    vm_compute. reflexivity.
  - destruct (Hm 2 ltac:(lia)) as (b & Hb & _ & _ & Hc & _).
    injection Hb as <-. change (f' 4) with (f' (2 + 2)). rewrite Hc.
    + vm_compute. reflexivity.
    + vm_compute. reflexivity.
  - rewrite He. vm_compute. reflexivity.
Defined.

(** With a reference density that is not a number, as
    [UpdateAverageDensity] leaves it for a region without cells, the
    momentum source is NaN, which is not greater than or equal to 0. *)
Lemma nan_reference_density_gives_nan_source :
  exists f',
    ComputeBuoyancySource 0 1 2 1 zero (fun _ => 0)
      (fun _ => dbl 1 0) (fun _ => zero)
      {| buoyancyVector := [dbl (-8) 0]; densityAvg := S754_nan |} = Some f' /\
    f' 2 = S754_nan /\ SFleb zero (f' 2) = false /\
    PetscMax S754_nan zero = S754_nan.
Proof. eexists. repeat split. Qed.

End BuoyancyFacts.

(* ===================================================================== *)
(** * Properties of the mesh operations                                   *)
(* ===================================================================== *)

Module PetscFacts.
Import Petsc.

Lemma inRange_spec r p : inRange r p = true <-> r.1 <= p < r.2.
Proof. unfold inRange. rewrite andb_true_iff, Z.leb_le, Z.ltb_lt. tauto. Qed.

Lemma depthOf_inv m p d :
  depthOf m p = Some d ->
  exists r, depthStrata m !! d = Some r /\ inRange r p = true.
Proof.
  unfold depthOf. intros H.
  destruct (list_find _ _) as [[i r] |] eqn:E; [| discriminate].
  injection H as <-. apply list_find_Some in E as (Hl & Hr & _). eauto.
Qed.

Section WellFormed.

Variable m : DMPlex.
Hypothesis Hwf : wfPlex m = true.

Lemma wfPoint_stratum d r p :
  depthStrata m !! d = Some r -> inRange r p = true -> wfPoint m d p = true.
Proof.
  intros Hd Hp. unfold wfPlex in Hwf. rewrite forallb_forall in Hwf.
  specialize (Hwf (d, r)). cbn in Hwf.
  rewrite forallb_forall in Hwf. apply Hwf.
  - apply list_elem_of_In. apply (elem_of_lookup_imap_2 pair _ _ _ Hd).
  - apply list_elem_of_In, elem_of_seqZ. apply inRange_spec in Hp. lia.
Qed.

Lemma depthOf_stratum d r p :
  depthStrata m !! d = Some r -> inRange r p = true -> depthOf m p = Some d.
Proof.
  intros Hd Hp. pose proof (wfPoint_stratum d r p Hd Hp) as H.
  unfold wfPoint in H. apply andb_prop in H as [H _].
  apply bool_decide_eq_true in H. exact H.
Qed.

Lemma depthOf_cone p d q :
  depthOf m p = Some d -> q ∈ cone m p ->
  exists d', d = S d' /\ depthOf m q = Some d'.
Proof.
  intros Hp Hq. destruct (depthOf_inv _ _ _ Hp) as (r & Hr & Hin).
  pose proof (wfPoint_stratum d r p Hr Hin) as H.
  unfold wfPoint in H. apply andb_prop in H as [_ H].
  rewrite forallb_forall in H. specialize (H q (proj1 (list_elem_of_In _ _) Hq)).
  destruct d as [| d']; [discriminate |].
  apply bool_decide_eq_true in H. eauto.
Qed.

Lemma closureUpTo_depth fuel :
  forall p d q,
    depthOf m p = Some d -> q ∈ closureUpTo m fuel p ->
    q = p \/ exists d', depthOf m q = Some d' /\ (d' < d)%nat.
Proof.
  induction fuel as [| k IH]; intros p d q Hp Hq; cbn in Hq.
  - apply list_elem_of_singleton in Hq. auto.
  - apply elem_of_cons in Hq as [-> | Hq]; [auto |].
    apply list_elem_of_In, in_flat_map in Hq as (c & Hc & Hq).
    apply list_elem_of_In in Hc, Hq.
    destruct (depthOf_cone _ _ _ Hp Hc) as (d' & -> & Hd').
    right. destruct (IH c d' q Hd' Hq) as [-> | (d'' & Hd'' & Hlt)].
    + exists d'. split; [exact Hd' | lia].
    + exists d''. split; [exact Hd'' | lia].
Qed.

End WellFormed.

Lemma closure_self m p : p ∈ closure m p.
Proof. unfold closure. destruct (length _); cbn; left. Qed.

Lemma elem_of_closureOfSet m (s : gset Z) x :
  x ∈ closureOfSet m s <-> exists p, p ∈ s /\ x ∈ closure m p.
Proof.
  unfold closureOfSet. rewrite elem_of_list_to_set, list_elem_of_In, in_flat_map.
  split; intros (p & Hp & Hx); exists p.
  - apply list_elem_of_In, elem_of_elements in Hp.
    apply list_elem_of_In in Hx. auto.
  - split; [apply list_elem_of_In, elem_of_elements, Hp | apply list_elem_of_In, Hx].
Qed.

Lemma elem_of_sortedPoints (s : gset Z) x : x ∈ sortedPoints s <-> x ∈ s.
Proof.
  unfold sortedPoints. rewrite merge_sort_Permutation. apply elem_of_elements.
Qed.

Lemma NoDup_sortedPoints (s : gset Z) : NoDup (sortedPoints s).
Proof.
  unfold sortedPoints. rewrite merge_sort_Permutation. apply NoDup_elements.
Qed.

Lemma length_sortedPoints (s : gset Z) : length (sortedPoints s) = size s.
Proof.
  unfold sortedPoints. rewrite merge_sort_Permutation. reflexivity.
Qed.

Lemma elem_of_pointsAtDepth m s d x :
  x ∈ pointsAtDepth m s d <->
  x ∈ s /\ exists r, depthStrata m !! d = Some r /\ inRange r x = true.
Proof.
  unfold pointsAtDepth. destruct (depthStrata m !! d) as [r |].
  - rewrite list_elem_of_filter, elem_of_sortedPoints. split.
    + intros [H1 H2]. eauto.
    + intros (H1 & r' & [= <-] & H2). auto.
  - split; [intros H; inversion H | intros (_ & r & H & _); discriminate].
Qed.

Lemma NoDup_pointsAtDepth m s d : NoDup (pointsAtDepth m s d).
Proof.
  unfold pointsAtDepth. destruct (depthStrata m !! d).
  - apply NoDup_filter, NoDup_sortedPoints.
  - constructor.
Qed.

Section Filter.

Variable m : DMPlex.
Hypothesis Hwf : wfPlex m = true.
Variables (F : nat) (marked : gset Z).

Lemma facesOnTop_self :
  (forall p, p ∈ marked -> depthOf m p = Some F) -> facesOnTop m F marked marked.
Proof.
  intros HF. split.
  - intros x Hx. exists F. split; [apply HF, Hx | lia].
  - intros x. split; [tauto | intros Hx; split; [exact Hx | apply HF, Hx]].
Qed.

Lemma facesOnTop_closure T :
  facesOnTop m F marked T -> facesOnTop m F marked (closureOfSet m T).
Proof.
  intros [H1 H2]. split.
  - intros x Hx. apply elem_of_closureOfSet in Hx as (p & Hp & Hx).
    destruct (H1 p Hp) as (d & Hd & Hle).
    destruct (closureUpTo_depth m Hwf _ _ _ _ Hd Hx) as [-> | (d' & Hd' & Hlt)].
    + eauto.
    + exists d'. split; [exact Hd' | lia].
  - intros x. split.
    + intros [Hx HxF]. apply elem_of_closureOfSet in Hx as (p & Hp & Hx).
      destruct (H1 p Hp) as (d & Hd & Hle).
      destruct (closureUpTo_depth m Hwf _ _ _ _ Hd Hx) as [-> | (d' & Hd' & Hlt)].
      * apply H2. auto.
      * rewrite HxF in Hd'. injection Hd' as <-. lia.
    + intros Hx. apply H2 in Hx as [Hx HxF]. split; [| exact HxF].
      apply elem_of_closureOfSet. exists x. split; [exact Hx | apply closure_self].
Qed.

Variable T : gset Z.
Hypothesis HT : facesOnTop m F marked T.

Lemma elem_of_pointsAtDepth_depth d x :
  x ∈ pointsAtDepth m T d <-> x ∈ T /\ depthOf m x = Some d.
Proof.
  rewrite elem_of_pointsAtDepth. split.
  - intros (Hx & r & Hr & Hin). split; [exact Hx |].
    eapply depthOf_stratum; eauto.
  - intros [Hx Hd]. split; [exact Hx | apply depthOf_inv, Hd].
Qed.

Lemma elem_of_top x : x ∈ pointsAtDepth m T F <-> x ∈ marked.
Proof. rewrite elem_of_pointsAtDepth_depth. apply HT. Qed.

Lemma length_top : length (pointsAtDepth m T F) = size marked.
Proof.
  rewrite <- length_sortedPoints. apply Permutation_length.
  apply NoDup_Permutation.
  - apply NoDup_pointsAtDepth.
  - apply NoDup_sortedPoints.
  - intros x. rewrite elem_of_top, elem_of_sortedPoints. reflexivity.
Qed.

Lemma pointsAtDepth_above d : (F < d)%nat -> pointsAtDepth m T d = [].
Proof.
  intros Hd. apply elem_of_nil_inv. intros x Hx.
  apply elem_of_pointsAtDepth_depth in Hx as [Hx Hxd].
  destruct (proj1 HT x Hx) as (d' & Hd' & Hle).
  rewrite Hxd in Hd'. injection Hd' as <-. lia.
Qed.

Lemma topDepth_marked n :
  marked <> ∅ -> (F < n)%nat -> topDepth m T n = Some F.
Proof.
  intros Hne. induction n as [| k IH]; intros Hn; [lia |].
  cbn. destruct (decide (k = F)) as [-> | Hk].
  - destruct (pointsAtDepth m T F) eqn:E; [| reflexivity].
    exfalso. apply Hne. apply set_eq. intros x.
    rewrite <- elem_of_top, E. set_solver.
  - rewrite pointsAtDepth_above by lia. apply IH. lia.
Qed.

Lemma elem_of_depthOrder top d : d ∈ depthOrder top <-> (d <= top)%nat.
Proof.
  unfold depthOrder. destruct top as [| k].
  - rewrite list_elem_of_singleton. lia.
  - rewrite !elem_of_cons, elem_of_reverse, elem_of_seq. lia.
Qed.

Lemma NoDup_depthOrder top : NoDup (depthOrder top).
Proof.
  unfold depthOrder. destruct top as [| k]; [apply NoDup_singleton |].
  apply NoDup_cons. split.
  - rewrite elem_of_cons, elem_of_reverse, elem_of_seq. lia.
  - apply NoDup_cons. split.
    + rewrite elem_of_reverse, elem_of_seq. lia.
    + rewrite reverse_Permutation. apply NoDup_seq.
Qed.

Lemma depthOrder_head top : exists rest, depthOrder top = top :: rest.
Proof. unfold depthOrder. destruct top; eauto. Qed.

Lemma elem_of_levels x top :
  (F <= top)%nat ->
  x ∈ flat_map (pointsAtDepth m T) (depthOrder top) <-> x ∈ T.
Proof.
  intros Hle. rewrite list_elem_of_In, in_flat_map. split.
  - intros (d & _ & Hx). apply list_elem_of_In, elem_of_pointsAtDepth in Hx. tauto.
  - intros Hx. destruct (proj1 HT x Hx) as (d & Hd & Hd').
    exists d. split.
    + apply list_elem_of_In, elem_of_depthOrder. lia.
    + apply list_elem_of_In, elem_of_pointsAtDepth_depth. auto.
Qed.

Lemma NoDup_levels (order : list nat) :
  NoDup order -> NoDup (flat_map (pointsAtDepth m T) order).
Proof.
  induction order as [| d order IH]; intros Hnd; [constructor |].
  apply NoDup_cons in Hnd as [Hd Hnd]. cbn. apply NoDup_app.
  split; [apply NoDup_pointsAtDepth |]. split; [| apply IH, Hnd].
  intros x Hx Hx'. apply list_elem_of_In, in_flat_map in Hx' as (d' & Hd' & Hx').
  apply list_elem_of_In in Hd', Hx'.
  apply elem_of_pointsAtDepth_depth in Hx as [_ Hx], Hx' as [_ Hx'].
  rewrite Hx in Hx'. injection Hx' as <-. contradiction.
Qed.

End Filter.

Lemma closureOfSet_empty m : closureOfSet m ∅ = ∅.
Proof. unfold closureOfSet. rewrite elements_empty. reflexivity. Qed.

Lemma pointsAtDepth_empty m d : pointsAtDepth m ∅ d = [].
Proof.
  apply elem_of_nil_inv. intros x Hx.
  apply elem_of_pointsAtDepth in Hx as [Hx _]. set_solver.
Qed.

Lemma topDepth_empty m n : topDepth m ∅ n = None.
Proof.
  induction n as [| k IH]; [reflexivity |]. cbn.
  rewrite pointsAtDepth_empty. exact IH.
Qed.

Lemma stratum_complete m (l : gmap Z (gset Z)) v :
  stratum (DMPlexLabelComplete m l) v = closureOfSet m (stratum l v).
Proof.
  unfold stratum, DMPlexLabelComplete. rewrite lookup_fmap.
  destruct (l !! v); cbn; [reflexivity |]. now rewrite closureOfSet_empty.
Qed.

Lemma stratum_setValue l p v :
  stratum (DMLabelSetValue l p 1) v =
    if decide (v = 1) then {[p]} ∪ stratum l 1 else stratum l v.
Proof.
  unfold DMLabelSetValue. cbn. unfold stratum at 1.
  destruct (decide (v = 1)) as [-> | Hv].
  - rewrite lookup_insert_eq. reflexivity.
  - rewrite lookup_insert_ne by congruence. reflexivity.
Qed.

Lemma heightStratum_top m n :
  length (depthStrata m) = S n ->
  DMPlexGetHeightStratum m 0 = default (-1, -1) (depthStrata m !! n).
Proof.
  unfold DMPlexGetHeightStratum. intros H.
  destruct (depthStrata m) as [| r rs]; [discriminate |].
  rewrite H. cbn [Nat.ltb Nat.leb].
  replace (S n - 1 - 0)%nat with n by lia. reflexivity.
Qed.

(** The sub-mesh of the points labelled [v]. *)
Section SubMesh.

Variable m : DMPlex.
Variables (l : gmap Z (gset Z)) (v : Z).

Let T : gset Z := closureOfSet m (stratum l v).

Lemma subpoints_none :
  topDepth m T (length (depthStrata m)) = None ->
  subpoints m l v = [] /\ DMPlexGetHeightStratum (subPlex m l v) 0 = (0, 0).
Proof.
  intros H. unfold subpoints, DMPlexGetHeightStratum, subPlex, subStrata.
  cbn. fold T. rewrite H. auto.
Qed.

Lemma subpoints_some top :
  topDepth m T (length (depthStrata m)) = Some top ->
  subpoints m l v = flat_map (pointsAtDepth m T) (depthOrder top) /\
  DMPlexGetHeightStratum (subPlex m l v) 0
    = (0, Z.of_nat (length (pointsAtDepth m T top))).
Proof.
  intros H. split.
  - unfold subpoints. fold T. rewrite H. reflexivity.
  - rewrite (heightStratum_top _ top).
    + unfold subPlex, subStrata. cbn [depthStrata]. fold T. rewrite H.
      rewrite list_lookup_fmap.
      assert (Hs : seq 0 (S top) !! top = Some top) by (apply lookup_seq; lia).
      rewrite Hs. cbn.
      destruct (depthOrder_head top) as [rest ->]. cbn.
      rewrite Nat.eqb_refl. reflexivity.
    + unfold subPlex, subStrata. cbn [depthStrata]. fold T. rewrite H.
      rewrite length_fmap, length_seq. reflexivity.
Qed.

End SubMesh.

End PetscFacts.

(* ===================================================================== *)
(** * Properties of the monitor                                            *)
(* ===================================================================== *)

Module MonitorFacts.
Import Petsc Monitor Statements PetscFacts.

(** ** Running a computation step by step *)

Section Run.

Variable env : Env.

Lemma bind_run {A B} (m : M A) (k : A -> M B) w r w' :
  (m ≫= k) w = (r, w') ->
  (exists e, m w = (inl e, w') /\ r = inl e) \/
  (exists a w1, m w = (inr a, w1) /\ k a w1 = (r, w')).
Proof.
  unfold mbind, M_bind, bind. destruct (m w) as [[e | a] w1]; intros H.
  - left. exists e. inversion H. auto.
  - right. eauto.
Qed.

Lemma ret_run {A} (a : A) w r w' :
  @mret M M_ret A a w = (r, w') -> r = inr a /\ w' = w.
Proof. unfold mret, M_ret, ret. intros H. inversion H. auto. Qed.

Lemma ret_run' {A} (a : A) w r w' : ret a w = (r, w') -> r = inr a /\ w' = w.
Proof. unfold ret. intros H. inversion H. auto. Qed.

Lemma throw_run {A} (e : Exn) w (r : Exn + A) w' :
  throw e w = (r, w') -> r = inl e /\ w' = w.
Proof. unfold throw. intros H. inversion H. auto. Qed.

Lemma get_run {A} (f : World -> A) w r w' :
  get f w = (r, w') -> r = inr (f w) /\ w' = w.
Proof. unfold get. intros H. inversion H. auto. Qed.

Lemma modify_run (f : World -> World) w r w' :
  modify f w = (r, w') -> r = inr tt /\ w' = f w.
Proof. unfold modify. intros H. inversion H. auto. Qed.

Lemma log_run c w r w' :
  log c w = (r, w') -> r = inr tt /\ w' = setTrace w (trace w ++ [c]).
Proof. unfold log. intros H. inversion H. auto. Qed.

Lemma checkError_run {A} c (effect : M A) w r w' :
  checkError env c effect w = (r, w') ->
  (ierr env c <> 0 /\ r = inl (petsc_error c (ierr env c)) /\
   w' = setTrace w (trace w ++ [c])) \/
  (ierr env c = 0 /\ effect (setTrace w (trace w ++ [c])) = (r, w')).
Proof.
  unfold checkError, mbind, M_bind, bind, log.
  destruct (Z.eqb_spec (ierr env c) 0) as [E | E]; intros H.
  - right. auto.
  - left. unfold throw in H. inversion H. auto.
Qed.

Lemma ignoreError_run c (effect : M unit) w r w' :
  ignoreError env c effect w = (r, w') ->
  (ierr env c <> 0 /\ r = inr tt /\ w' = setTrace w (trace w ++ [c])) \/
  (ierr env c = 0 /\ effect (setTrace w (trace w ++ [c])) = (r, w')).
Proof.
  unfold ignoreError, mbind, M_bind, bind, log.
  destruct (Z.eqb_spec (ierr env c) 0) as [E | E]; intros H.
  - right. auto.
  - left. unfold ret in H. inversion H. auto.
Qed.

Lemma handle_run c (d : BoundarySolverMonitor -> option DM) w r w' :
  handle c d w = (r, w') ->
  w' = w /\
  ((exists x, d (this w) = Some x /\ r = inr x) \/
   (d (this w) = None /\ r = inl (petsc_error c PETSC_ERR_ARG_NULL))).
Proof.
  unfold handle. destruct (d (this w)) as [x |]; intros H; inversion H; eauto.
Qed.

Lemma GetSolver_run w r w' :
  GetSolver w = (r, w') ->
  w' = w /\
  ((exists s, solver (this w) = Some s /\ r = inr s) \/
   (solver (this w) = None /\ r = inl undefined_behaviour)).
Proof.
  unfold GetSolver. destruct (solver (this w)); intros H; inversion H; eauto.
Qed.

Lemma GetBoundarySolver_run w r w' :
  GetBoundarySolver w = (r, w') ->
  w' = w /\
  ((exists b, boundarySolver (this w) = Some b /\ r = inr b) \/
   (boundarySolver (this w) = None /\ r = inl undefined_behaviour)).
Proof.
  unfold GetBoundarySolver.
  destruct (boundarySolver (this w)); intros H; inversion H; eauto.
Qed.

End Run.

Section RunMore.

Variable env : Env.

Lemma pointLocal_run c dm point w r w' :
  pointLocal env c dm point w = (r, w') ->
  w' = setTrace w (trace w ++ [c]) /\
  (r = inl (petsc_error c (ierr env c)) /\ ierr env c <> 0 \/
   ierr env c = 0 /\
   (dm (this w) = None /\ r = inl (petsc_error c PETSC_ERR_ARG_NULL) \/
    exists d, dm (this w) = Some d /\
      (localSection d = None /\ r = inl (petsc_error c PETSC_ERR_ARG_WRONGSTATE) \/
       exists sec, localSection d = Some sec /\
         (inChart sec point = false /\
            r = inl (petsc_error c PETSC_ERR_ARG_OUTOFRANGE) \/
          inChart sec point = true /\
            r = inr (if Z.ltb 0 (dofOf sec point)
                     then Some (offsetOf sec point) else None))))).
Proof.
  unfold pointLocal. intros H.
  apply checkError_run in H as [(E & -> & ->) | (E & H)]; [auto |].
  apply bind_run in H as [(e & H & ->) | (d & w1 & H & K)].
  - apply handle_run in H as [-> [(? & ? & ?) | (Hd & ?)]]; [discriminate |].
    simplify_eq. split; [reflexivity |]. right. split; [exact E |]. left. auto.
  - apply handle_run in H as [-> [(x & Hx & [= <-]) | (? & ?)]]; [| discriminate].
    cbv beta in K.
    destruct (localSection d) as [sec |] eqn:Hsec.
    + destruct (inChart sec point) eqn:Hin.
      * apply ret_run' in K as [-> ->]. split; [reflexivity |].
        right. split; [exact E |]. right. exists d. split; [exact Hx |].
        right. exists sec. split; [exact Hsec |]. right. auto.
      * apply throw_run in K as [-> ->]. split; [reflexivity |].
        right. split; [exact E |]. right. exists d. split; [exact Hx |].
        right. exists sec. split; [exact Hsec |]. left. auto.
    + apply throw_run in K as [-> ->]. split; [reflexivity |].
      right. split; [exact E |]. right. exists d. split; [exact Hx |]. left. auto.
Qed.

Lemma PetscArraycpy_run dst src count w r w' :
  PetscArraycpy env dst src count w = (r, w') ->
  let c := PetscArraycpy_ dst src count in
  let w1 := setTrace w (trace w ++ [c]) in
  (ierr env c <> 0 /\ r = inl (petsc_error c (ierr env c)) /\ w' = w1) \/
  (ierr env c = 0 /\
   ((copyBlock (valuesOf w LocalBoundaryVec) src (valuesOf w LocalFaceVec) dst count = None /\
     r = inl undefined_behaviour /\ w' = w1) \/
    (exists x,
       copyBlock (valuesOf w LocalBoundaryVec) src (valuesOf w LocalFaceVec) dst count = Some x /\
       r = inr tt /\ w' = setValues w1 LocalFaceVec x))).
Proof.
  unfold PetscArraycpy. intros H.
  apply checkError_run in H as [(E & -> & ->) | (E & H)]; [auto |].
  right. split; [exact E |]. cbn in H.
  unfold valuesOf.
  destruct (copyBlock _ _ _ _ _) as [x |]; inversion H; subst; eauto.
Qed.

Lemma indexAt_run ix facePt w r w' :
  indexAt ix facePt w = (r, w') ->
  w' = w /\
  ((exists boundaryPt, 0 <= facePt /\ ix !! Z.to_nat facePt = Some boundaryPt /\
                       r = inr boundaryPt) \/
   r = inl undefined_behaviour).
Proof.
  unfold indexAt. destruct (Z.ltb_spec facePt 0) as [Hneg | Hpos].
  - intros H. apply throw_run in H as [-> ->]. auto.
  - destruct (ix !! Z.to_nat facePt) as [b |] eqn:E; intros H.
    + apply ret_run' in H as [-> ->]. split; [reflexivity |]. left. eauto.
    + apply throw_run in H as [-> ->]. auto.
Qed.

End RunMore.

(** ** The transfer loop touches only the local face vector *)

Lemma copyBlock_length src so dst to count x :
  copyBlock src so dst to count = Some x -> length x = length dst.
Proof.
  unfold copyBlock. intros H.
  destruct (_ && _) eqn:E in H; [| discriminate].
  repeat (apply andb_prop in E as [E ?]).
  injection H as <-.
  rewrite !length_app, !length_take, !length_drop. lia.
Qed.

Lemma frame_refl w : frame w w.
Proof.
  unfold frame. repeat split; auto.
  exists []. rewrite app_nil_r. auto.
Qed.

Lemma frame_trans w1 w2 w3 : frame w1 w2 -> frame w2 w3 -> frame w1 w3.
Proof.
  unfold frame.
  intros (A1 & A2 & A3 & A4 & A5 & A6 & A7 & t1 & A8 & A9)
         (B1 & B2 & B3 & B4 & B5 & B6 & B7 & t2 & B8 & B9).
  repeat split; try congruence.
  - intros v Hv. rewrite B4, A4; auto.
  - exists (t1 ++ t2). split.
    + rewrite B8, A8, app_assoc. reflexivity.
    + rewrite forallb_app, A9, B9. reflexivity.
Qed.

Lemma frame_log w c : perPoint c = true -> frame w (setTrace w (trace w ++ [c])).
Proof.
  intros Hc. unfold frame. cbn. repeat split; auto.
  exists [c]. cbn. rewrite Hc. auto.
Qed.

Lemma frame_setValues w x :
  length x = length (valuesOf w LocalFaceVec) ->
  frame w (setValues w LocalFaceVec x).
Proof.
  intros Hx. unfold frame. cbn. repeat split; auto.
  - intros v Hv. destruct v; cbn; congruence.
  - exists []. rewrite app_nil_r. auto.
Qed.

Section Transfer.

Variable env : Env.

Lemma transferPoint_frame dataSize ix facePt w r w' :
  transferPoint env dataSize ix facePt w = (r, w') -> frame w w'.
Proof.
  unfold transferPoint. intros H.
  apply bind_run in H as [(e & H & ->) | (boundaryPt & w1 & H & K)].
  { apply indexAt_run in H as [-> _]. apply frame_refl. }
  apply indexAt_run in H as [-> _]. cbv beta in K.
  apply bind_run in K as [(e & H & ->) | (src & w2 & H & K)].
  { apply pointLocal_run in H as [-> _]. now apply frame_log. }
  apply pointLocal_run in H as [-> _]. cbv beta in K.
  eapply frame_trans; [now apply (frame_log _ (DMPlexPointLocalRead_ boundaryPt)) |].
  apply bind_run in K as [(e & H & ->) | (dst & w3 & H & K)].
  { apply pointLocal_run in H as [-> _]. now apply frame_log. }
  apply pointLocal_run in H as [-> _]. cbv beta in K.
  eapply frame_trans; [now apply (frame_log _ (DMPlexPointLocalRef_ facePt)) |].
  destruct dst as [dst |], src as [src |];
    try (apply ret_run' in K as [_ ->]; apply frame_refl).
  apply PetscArraycpy_run in K as [(_ & _ & ->) | (_ & [(_ & _ & ->) | (x & Hx & _ & ->)])];
    try (now apply frame_log).
  eapply frame_trans; [now apply (frame_log _ (PetscArraycpy_ dst src dataSize)) |].
  apply frame_setValues. apply copyBlock_length in Hx. exact Hx.
Qed.

Lemma forEach_transfer_frame dataSize ix facePts :
  forall w r w',
    forEach facePts (transferPoint env dataSize ix) w = (r, w') -> frame w w'.
Proof.
  induction facePts as [| p ps IH]; intros w r w' H.
  - apply ret_run' in H as [_ ->]. apply frame_refl.
  - cbn [forEach] in H.
    apply bind_run in H as [(e & H & ->) | ([] & w1 & H & K)].
    + eapply transferPoint_frame, H.
    + eapply frame_trans; [eapply transferPoint_frame, H | eapply IH, K].
Qed.

End Transfer.

Lemma ran_intro {A} (m : M A) w r w' : m w = (r, w') -> ran m w r w'.
Proof. exact id. Qed.

(** Worlds are kept as plain records while a run is followed. *)
Ltac wsimpl :=
  cbn [setThis setTrace setCheckedOut setVecs setViewer setVec setValues fill
       valuesOf setBoundaryDm setFaceDm this trace checkedOut vecs viewer
       name solver boundarySolver boundaryDm faceDm VecId_eqb
       vecName vec values blockSize] in *.

(** One step of a run recorded in a hypothesis. *)
Ltac run1 :=
  match goal with
  | H : @mbind _ _ _ _ _ _ _ = (_, _) |- _ =>
      apply bind_run in H;
      destruct H as [(? & H & ?) | (? & ? & ? & H)];
      cbv beta in H
  | H : checkError _ _ _ _ = (_, _) |- _ =>
      apply checkError_run in H;
      destruct H as [(? & ? & ?) | (? & H)]
  | H : ignoreError _ _ _ _ = (_, _) |- _ =>
      apply ignoreError_run in H;
      destruct H as [(? & ? & ?) | (? & H)]
  | H : @mret _ _ _ _ _ = (_, _) |- _ => apply ret_run in H; destruct H
  | H : ret _ _ = (_, _) |- _ => apply ret_run' in H; destruct H
  | H : throw _ _ = (_, _) |- _ => apply throw_run in H; destruct H
  | H : get _ _ = (_, _) |- _ => apply get_run in H; destruct H
  | H : GetId _ = (_, _) |- _ => apply get_run in H; destruct H
  | H : modify _ _ = (_, _) |- _ => apply modify_run in H; destruct H
  | H : handOut _ _ _ _ = (_, _) |- _ => apply modify_run in H; destruct H
  | H : giveBack _ _ = (_, _) |- _ => apply modify_run in H; destruct H
  | H : zero _ _ = (_, _) |- _ => apply modify_run in H; destruct H
  | H : handle _ _ _ = (_, _) |- _ =>
      apply handle_run in H;
      destruct H as [? [(? & ? & ?) | (? & ?)]]
  | H : GetSolver _ = (_, _) |- _ =>
      apply GetSolver_run in H;
      destruct H as [? [(? & ? & ?) | (? & ?)]]
  | H : GetBoundarySolver _ = (_, _) |- _ =>
      apply GetBoundarySolver_run in H;
      destruct H as [? [(? & ? & ?) | (? & ?)]]
  | H : forEach _ (transferPoint _ _ _) _ = (_, ?w1) |- _ =>
      let F := fresh "Hframe" in
      pose proof (forEach_transfer_frame _ _ _ _ _ _ _ H) as F;
      apply ran_intro in H;
      destruct F as (? & ? & ? & ? & ? & ? & ? & ? & ? & ?);
      destruct w1
  | H : (if ?b then _ else _) _ = (_, _) |- _ => destruct b eqn:?
  | H : (match ?o with Some _ => _ | None => _ end) _ = (_, _) |- _ =>
      destruct o eqn:?
  | H : (let '(_, _) := ?p in _) _ = (_, _) |- _ => destruct p eqn:?
  end; try discriminate; wsimpl; simplify_eq; wsimpl; simplify_eq.

Ltac run := repeat run1.

(** ** The calls of Save *)

Section SaveCalls.

Variable env : Env.

Ltac normalise_trace :=
  repeat rewrite <- app_assoc in *; cbn [app] in *.

Lemma Save_calls sequenceNumber time w r w' :
  Save env sequenceNumber time w = (r, w') ->
  exists loopCalls new,
    forallb perPoint loopCalls = true /\
    trace w' = trace w ++ new /\
    new <> [] /\
    new `prefix_of` saveCalls sequenceNumber time (name (this w)) loopCalls /\
    (forall u, r = inr u ->
       new = saveCalls sequenceNumber time (name (this w)) loopCalls).
Proof.
  intros H. unfold Save in H.
  unfold DMGetLocalVector, DMRestoreLocalVector in H.
  run.
  all: match goal with
       | L : forallb perPoint ?t = true |- _ => exists t
       | _ => exists []
       end.
  all: unfold saveCalls;
       match goal with E : (_ =? 0) = _ |- _ => rewrite E end.
  all: eexists; split; [first [eassumption | reflexivity] |].
  all: split; [normalise_trace; reflexivity |].
  all: split; [discriminate |].
  all: split; [eexists; cbn [app]; repeat rewrite <- app_assoc; cbn [app];
               reflexivity
             | intros ? ?; try discriminate].
  all: cbn [app]; rewrite ?app_nil_r; reflexivity.
Qed.

End SaveCalls.

(** ** Statements about the calls of Save *)

Lemma prefix_through {A} (x : A) (L S new : list A) :
  new `prefix_of` L ++ x :: S -> x ∈ new -> x ∉ L ->
  exists post, new = L ++ x :: post.
Proof.
  revert new. induction L as [| a L IH]; intros new Hp Hin Hx.
  - destruct new as [| b new]; [inversion Hin |].
    cbn in Hp. apply prefix_cons_inv_1 in Hp as ->. eauto.
  - destruct new as [| b new]; [inversion Hin |].
    cbn in Hp. pose proof (prefix_cons_inv_1 _ _ _ _ Hp) as ->.
    apply prefix_cons_inv_2 in Hp.
    apply not_elem_of_cons in Hx as [Hxa Hx].
    apply elem_of_cons in Hin as [-> | Hin]; [done |].
    destruct (IH new Hp Hin Hx) as [post ->]. eauto.
Qed.

Lemma perPoint_elem c l : forallb perPoint l = true -> c ∈ l -> perPoint c = true.
Proof.
  intros H Hc. rewrite forallb_forall in H. apply H.
  apply list_elem_of_In. exact Hc.
Qed.

Lemma newCalls_app w w' new : trace w' = trace w ++ new -> newCalls w w' = new.
Proof. intros H. unfold newCalls. rewrite H. apply drop_app_length. Qed.

Section SaveStatements.

Variable env : Env.

(** C9, as the code has it.  In every [Save] call that reaches
    [DMGlobalToLocalEnd], exactly two local operations lie between the begin
    and the end of the ghost exchange: the local boundary vector is taken
    from the Boundary Mesh and zeroed. *)
Theorem exchange_encloses_local_work (sequenceNumber : Z) (time : Q) (w : World) r w' :
  Save env sequenceNumber time w = (r, w') ->
  DMGlobalToLocalEnd_ ∈ newCalls w w' ->
  exists pre post,
    newCalls w w' =
      pre ++ [DMGlobalToLocalBegin_; DMGetLocalVector_ BoundaryDM;
              VecZeroEntries_ LocalBoundaryVec; DMGlobalToLocalEnd_] ++ post.
Proof.
  intros H Hin.
  destruct (Save_calls env _ _ _ _ _ H) as (loopCalls & new & HL & Ht & Hne & Hp & _).
  rewrite (newCalls_app _ _ _ Ht) in *.
  set (head := (if Z.eqb sequenceNumber 0 then [DMView_] else []) ++
               [DMSetOutputSequenceNumber_ sequenceNumber time;
                DMGetLocalVector_ SolverDM]).
  destruct (prefix_through DMGlobalToLocalEnd_
              (head ++ [DMGlobalToLocalBegin_; DMGetLocalVector_ BoundaryDM;
                        VecZeroEntries_ LocalBoundaryVec])
              ([ComputeRHSFunction_ time; DMGetLocalVector_ FaceDM;
                VecZeroEntries_ LocalFaceVec; VecGetArrayRead_ LocalBoundaryVec;
                VecGetArray_ LocalFaceVec; VecGetBlockSize_ LocalFaceVec;
                DMPlexGetHeightStratum_ FaceDM 0; DMPlexGetSubpointIS_;
                ISGetIndices_] ++ loopCalls ++
               [ISRestoreIndices_; VecRestoreArrayRead_ LocalBoundaryVec;
                VecRestoreArray_ LocalFaceVec; DMGetGlobalVector_;
                PetscObjectSetName_ (name (this w)); VecZeroEntries_ GlobalFaceVec;
                DMLocalToGlobal_ADD_VALUES_; VecView_; DMRestoreGlobalVector_;
                DMRestoreLocalVector_ FaceDM; DMRestoreLocalVector_ SolverDM;
                DMRestoreLocalVector_ BoundaryDM])
              new) as [post Hpost].
  - unfold head. unfold saveCalls in Hp.
    destruct (Z.eqb sequenceNumber 0); cbn [app] in *; exact Hp.
  - exact Hin.
  - unfold head. destruct (Z.eqb sequenceNumber 0); cbn [app];
      intros Hx;
      repeat (apply elem_of_cons in Hx as [Hx | Hx]; [discriminate Hx |]);
      inversion Hx.
  - exists head, post. rewrite Hpost. rewrite <- !app_assoc. reflexivity.
Qed.

(** C5, as the code has it.  [Save] gives its transient vectors back only
    by the calls at its end: when it returns normally none is left
    outstanding; when a distributed exchange or the boundary solver's
    computation fails, the exception leaves at once, the local solution
    view (and, past the begin of the ghost exchange, the local boundary
    vector) stays outstanding, and no field has been written. *)
Theorem Save_releases_at_the_end_only (sequenceNumber : Z) (time : Q) (w : World) r w' :
  Save env sequenceNumber time w = (r, w') ->
  (forall u, r = inr u -> checkedOut w = [] -> checkedOut w' = []) /\
  (forall c code, r = inl (petsc_error c code) -> exchangeOrCompute c = true ->
     LocXVec ∈ checkedOut w' /\
     (c <> DMGlobalToLocalBegin_ -> LocalBoundaryVec ∈ checkedOut w') /\
     forallb (fun o => negb (isField o)) (newOutput w w') = true).
Proof.
  intros H. unfold Save in H.
  unfold DMGetLocalVector, DMRestoreLocalVector in H.
  run.
  all: split;
    [ intros u Hu Hco; try discriminate Hu
    | intros c code Hc Hx; try discriminate Hc ].
  all: try (injection Hc as <- <-; cbn in Hx; try discriminate Hx).
  all: try (cbn [checkedOut]; rewrite Hco; reflexivity).
  all: unfold newOutput; cbn [checkedOut viewer].
  all: split; [set_solver |].
  all: split; [intros ?; try done; set_solver |].
  all: rewrite ?drop_app_length, ?drop_all; reflexivity.
Qed.

End SaveStatements.

(** ** Register and a solver of another type *)

(** C6.  When the solver is not a boundary solver, [Register] throws
    [std::invalid_argument] before any library call: the Boundary Mesh and
    the Face Sub-mesh stay as they were, and for a monitor that had none the
    destructor finds nothing to destroy. *)
Theorem Register_rejects_other_solver (env : Env) (s : Solver) (w : World) :
  solverType s = OtherSolver ->
  exists what w',
    Register env s w = (inl (invalid_argument what), w') /\
    boundaryDm (this w') = boundaryDm (this w) /\
    faceDm (this w') = faceDm (this w) /\
    trace w' = trace w /\
    (boundaryDm (this w) = None -> faceDm (this w) = None ->
       destroy env w' = (inr tt, w')).
Proof.
  intros Hs. unfold Register, dynamic_pointer_cast. rewrite Hs.
  eexists _, _. split; [reflexivity |]. cbn.
  repeat split; auto.
  intros Hb Hf. unfold destroy, noexcept. cbn. rewrite Hb, Hf. reflexivity.
Qed.

(** ** Register on a boundary solver *)

Lemma onlyTrace_refl w : onlyTrace w w.
Proof. unfold onlyTrace. auto. Qed.

Lemma onlyTrace_trans w1 w2 w3 : onlyTrace w1 w2 -> onlyTrace w2 w3 -> onlyTrace w1 w3.
Proof. unfold onlyTrace. intuition congruence. Qed.

Lemma onlyTrace_log w c : onlyTrace w (setTrace w (trace w ++ [c])).
Proof. unfold onlyTrace. cbn. auto. Qed.

Section RegisterLoops.

Variable env : Env.

Lemma SetDof_run sec p n w r w' :
  SetDof env sec p n w = (r, w') ->
  let c := PetscSectionSetDof_ p n in
  w' = setTrace w (trace w ++ [c]) /\
  (ierr env c <> 0 /\ r = inl (petsc_error c (ierr env c)) \/
   ierr env c = 0 /\
   (inChart sec p = false /\ r = inl (petsc_error c PETSC_ERR_ARG_OUTOFRANGE) \/
    inChart sec p = true /\
      r = inr {| pStart := pStart sec; pEnd := pEnd sec;
                 atlasDof := <[Z.to_nat (p - pStart sec) := n]> (atlasDof sec);
                 isSetUp := isSetUp sec |})).
Proof.
  unfold SetDof, PetscSectionSetDof. intros H.
  apply checkError_run in H as [(E & -> & ->) | (E & H)]; [auto |].
  destruct (inChart sec p).
  - apply ret_run' in H as [-> ->]. split; [reflexivity |]. right. auto.
  - apply throw_run in H as [-> ->]. split; [reflexivity |]. right. auto.
Qed.

(** Clearing the dofs of a freshly charted section changes nothing. *)
Lemma clearDofs_points (ps : list Z) sec :
  forall w r w',
    (forall p, p ∈ ps -> inChart sec p = true) ->
    (forall i n, atlasDof sec !! i = Some n -> n = 0) ->
    foldM ps (fun sec f => SetDof env sec f 0) sec w = (r, w') ->
    onlyTrace w w' /\
    (r = inr sec \/ exists c, r = inl (petsc_error c (ierr env c)) /\ ierr env c <> 0).
Proof.
  induction ps as [| p ps IH]; intros w r w' Hin Hz H.
  - apply ret_run' in H as [-> ->]. split; [apply onlyTrace_refl | auto].
  - cbn [foldM] in H.
    apply bind_run in H as [(e & H & ->) | (sec' & w1 & H & K)].
    + apply SetDof_run in H as [-> [(E & [= ->]) | (E & [(Hc & _) | (_ & [=])])]].
      * split; [apply onlyTrace_log | eauto].
      * rewrite Hin in Hc by left. discriminate.
    + apply SetDof_run in H as [-> [(E & [=]) | (E & [(_ & [=]) | (_ & [= ->])])]].
      assert (Hid : <[Z.to_nat (p - pStart sec) := 0]> (atlasDof sec) = atlasDof sec).
      { destruct (atlasDof sec !! Z.to_nat (p - pStart sec)) as [n |] eqn:Hl.
        - apply list_insert_id. rewrite Hl. f_equal. eapply Hz, Hl.
        - apply list_insert_ge. apply lookup_ge_None, Hl. }
      rewrite Hid in K.
      assert (Hsec : {| pStart := pStart sec; pEnd := pEnd sec;
                        atlasDof := atlasDof sec; isSetUp := isSetUp sec |} = sec)
        by (destruct sec; reflexivity).
      rewrite Hsec in K.
      apply IH in K as [Hf Hr]; [| intros; apply Hin; now right | exact Hz].
      split; [| exact Hr].
      eapply onlyTrace_trans; [apply onlyTrace_log | exact Hf].
Qed.

Lemma clearDofs_run sec0 a b w r w' :
  clearDofs env a b (PetscSectionSetChart sec0 a b) w = (r, w') ->
  onlyTrace w w' /\
  (r = inr (PetscSectionSetChart sec0 a b) \/
   exists c, r = inl (petsc_error c (ierr env c)) /\ ierr env c <> 0).
Proof.
  unfold clearDofs. apply clearDofs_points.
  - intros p Hp. apply elem_of_seqZ in Hp. unfold inChart. cbn. lia.
  - cbn. intros i n Hl. apply lookup_replicate in Hl. tauto.
Qed.

Lemma onLabel_run c present f w r w' :
  onLabel env c present f w = (r, w') ->
  (ierr env c <> 0 /\ r = inl (petsc_error c (ierr env c)) /\
   w' = setTrace w (trace w ++ [c])) \/
  (ierr env c = 0 /\
   ((present = false \/ boundaryDm (this w) = None) /\
    r = inl (petsc_error c PETSC_ERR_ARG_NULL) /\ w' = setTrace w (trace w ++ [c]) \/
    exists d, present = true /\ boundaryDm (this w) = Some d /\ r = inr tt /\
      w' = setBoundaryDm (setTrace w (trace w ++ [c]))
             (Some (setLabels d (<[labelName := f d (labelOf d)]> (labels d)))))).
Proof.
  unfold onLabel. intros H.
  apply checkError_run in H as [(E & -> & ->) | (E & H)]; [auto |].
  right. split; [exact E |]. destruct present.
  - apply bind_run in H as [(e & H & ->) | (d & w1 & H & K)].
    + apply handle_run in H as [-> [(? & ? & ?) | (Hd & [= ->])]]; [discriminate |].
      left. auto.
    + apply handle_run in H as [-> [(x & Hx & [= <-]) | (? & ?)]]; [| discriminate].
      apply modify_run in K as [-> ->]. right. exists d. auto.
  - apply throw_run in H as [-> ->]. left. auto.
Qed.

Lemma dofsSet_refl sec n : dofsSet sec sec [] n.
Proof.
  unfold dofsSet. do 4 (split; [reflexivity |]). intros p _.
  destruct (decide (p ∈ [])) as [H | _]; [inversion H | reflexivity].
Qed.

Lemma dofsSet_step sec id n sec' ids :
  length (atlasDof sec) = Z.to_nat (pEnd sec - pStart sec) ->
  inChart sec id = true ->
  dofsSet {| pStart := pStart sec; pEnd := pEnd sec;
             atlasDof := <[Z.to_nat (id - pStart sec) := n]> (atlasDof sec);
             isSetUp := isSetUp sec |} sec' ids n ->
  dofsSet sec sec' (id :: ids) n.
Proof.
  intros Hlen Hid (H1 & H2 & H3 & H4 & H5). cbn in *.
  rewrite length_insert in H4.
  unfold dofsSet. do 4 (split; [assumption |]).
  intros p Hp. rewrite H5 by exact Hp.
  unfold inChart in Hid, Hp.
  apply andb_prop in Hid as [Hid1 Hid2], Hp as [Hp1 Hp2].
  apply Z.leb_le in Hid1, Hp1. apply Z.ltb_lt in Hid2, Hp2.
  unfold dofOf. cbn.
  destruct (decide (p ∈ ids)) as [Hin | Hnin].
  - rewrite decide_True by (now right). reflexivity.
  - destruct (decide (p = id)) as [-> | Hne].
    + rewrite decide_True by left.
      rewrite list_lookup_insert_eq by lia. reflexivity.
    + rewrite decide_False by (rewrite elem_of_cons; tauto).
      rewrite list_lookup_insert_ne by lia. reflexivity.
Qed.

(** The loop of lines 52-58, when it runs to its end. *)
Lemma markFaces_ok n (ids : list Z) :
  forall sec w sec' w' b,
    length (atlasDof sec) = Z.to_nat (pEnd sec - pStart sec) ->
    markFaces env true n ids sec w = (inr sec', w') ->
    boundaryDm (this w) = Some b ->
    (forall id, id ∈ ids -> inChart sec id = true) /\
    dofsSet sec sec' ids n /\
    checkedOut w' = checkedOut w /\ vecs w' = vecs w /\ viewer w' = viewer w /\
    name (this w') = name (this w) /\ solver (this w') = solver (this w) /\
    boundarySolver (this w') = boundarySolver (this w) /\
    faceDm (this w') = faceDm (this w) /\
    exists b', boundaryDm (this w') = Some b' /\ sameMesh b b' /\
               stratum (labelOf b') 1 = list_to_set ids ∪ stratum (labelOf b) 1.
Proof.
  unfold markFaces.
  induction ids as [| id ids IH]; intros sec w sec' w' b Hlen H Hb.
  - apply ret_run' in H as [[= ->] ->].
    split; [intros id Hid; inversion Hid |].
    split; [apply dofsSet_refl |]. repeat split; auto.
    exists b. split; [exact Hb |]. split; [unfold sameMesh; auto |].
    cbn. set_solver.
  - cbn [foldM] in H.
    apply bind_run in H as [(e & _ & [=]) | (sec1 & w1 & H & K)].
    apply bind_run in H as [(e & _ & [=]) | ([] & w0 & H & H1)].
    apply onLabel_run in H
      as [(_ & [=] & _) | (_ & [(_ & [=] & _) | (d & _ & Hd & _ & ->)])].
    rewrite Hb in Hd. injection Hd as <-.
    apply SetDof_run in H1 as [-> [(_ & [=]) | (_ & [(_ & [=]) | (Hc & [= ->])])]].
    eapply IH in K as (Hin & Hdofs & K1 & K2 & K3 & K4 & K5 & K6 & K7 & b' & Hb' & Hsame & Hstr);
      [| cbn; rewrite length_insert; exact Hlen | cbn; reflexivity].
    split.
    { intros x Hx. apply elem_of_cons in Hx as [-> | Hx]; [exact Hc |].
      apply Hin, Hx. }
    split; [apply dofsSet_step; assumption |].
    cbn in *. repeat split; auto.
    exists b'. split; [exact Hb' |]. split; [exact Hsame |].
    rewrite Hstr. unfold labelOf at 1. cbn. rewrite lookup_insert_eq. cbn.
    unfold stratum at 1. rewrite lookup_insert_eq. cbn. set_solver.
Qed.

End RegisterLoops.

Section RegisterOk.

Variable env : Env.

Lemma addFields_ok (comps : list string) :
  forall w w' f,
    forEach comps (addField env) w = (inr tt, w') ->
    faceDm (this w) = Some f ->
    checkedOut w' = checkedOut w /\ vecs w' = vecs w /\ viewer w' = viewer w /\
    name (this w') = name (this w) /\ solver (this w') = solver (this w) /\
    boundarySolver (this w') = boundarySolver (this w) /\
    boundaryDm (this w') = boundaryDm (this w) /\
    exists f', faceDm (this w') = Some f' /\
      plex f' = plex f /\ localSection f' = localSection f /\
      subpointIS f' = subpointIS f /\
      fields f' = fields f ++ map (fun n => (n, 1)) comps.
Proof.
  induction comps as [| field comps IH]; intros w w' f H Hf.
  - apply ret_run' in H as [_ ->]. repeat split; auto.
    exists f. rewrite app_nil_r. auto.
  - cbn [forEach] in H.
    apply bind_run in H as [(e & _ & [=]) | ([] & w1 & H & K)].
    unfold addField in H. run.
    all: eapply IH in K as (K1 & K2 & K3 & K4 & K5 & K6 & K7 & f' & Hf' & P1 & P2 & P3 & P4);
      [| reflexivity].
    all: cbn in *.
    all: repeat split; auto.
    all: exists f'; rewrite P4, <- app_assoc; auto.
Qed.

Lemma Zsum_ones (comps : list string) :
  Zsum (map snd (map (fun n : string => (n, 1)) comps)) = Z.of_nat (length comps).
Proof.
  induction comps as [| c comps IH]; [reflexivity |].
  cbn [map Zsum foldr snd length]. unfold Zsum in IH. rewrite IH. lia.
Qed.

Lemma dofOf_chart sec0 a b p : dofOf (PetscSectionSetChart sec0 a b) p = 0.
Proof.
  unfold dofOf. cbn.
  destruct (replicate _ _ !! _) as [n |] eqn:E; [| reflexivity].
  apply lookup_replicate in E as [-> _]. reflexivity.
Qed.

Lemma Register_ok s bs w w' :
  solverType s = IsBoundarySolver bs ->
  labels (GetDM s) !! labelName = None ->
  Register env s w = (inr tt, w') ->
  registeredWith s bs (this w') /\
  name (this w') = (GetSolverId s +:+ name (this w))%string /\
  checkedOut w' = checkedOut w /\ vecs w' = vecs w /\ viewer w' = viewer w.
Proof.
  intros Hs Hfresh H. unfold Register, dynamic_pointer_cast in H. rewrite Hs in H.
  unfold Monitor_Register, setBoundarySolver, setName, onLabel in H.
  cbn [clone labels] in H.
  run.
  { cbn in Heqo. congruence. }
  match goal with
  | K : clearDofs _ _ _ _ _ = _ |- _ =>
      apply clearDofs_run in K as [(C1 & C2 & C3 & C4) [[= ->] | (? & [=] & _)]]
  end.
  match goal with
  | K : markFaces _ _ _ _ _ _ = _ |- _ =>
      eapply markFaces_ok in K
        as (Hin & Hdofs & M1 & M2 & M3 & M4 & M5 & M6 & M7 & b' & Hb' & Hsame & Hstr);
        [| cbn; rewrite length_replicate; reflexivity
         | rewrite C1; cbn; reflexivity]
  end.
  match goal with
  | K : forEach _ (addField _) _ = (inr ?u, _) |- _ =>
      destruct u;
      eapply addFields_ok in K
        as (A1 & A2 & A3 & A4 & A5 & A6 & A7 & f' & Hf' & P1 & P2 & P3 & P4);
        [| cbn; reflexivity]
  end.
  match goal with
  | K : boundaryDm (this _) = Some ?x |- _ =>
      tryif constr_eq x b' then fail else (rewrite Hb' in K; injection K as <-)
  end.
  match goal with
  | K : faceDm (this _) = Some ?x |- _ =>
      tryif constr_eq x f' then fail else (rewrite Hf' in K; injection K as <-)
  end.
  cbn in *.
  destruct Hsame as (S1 & S2 & S3 & S4 & S5).
  destruct Hdofs as (D1 & D2 & D3 & D4 & D5). cbn in *.
  split; [| rewrite A4, M4, C1; cbn; rewrite A1, M1, C2, A2, M2, C3, A3, M3, C4; auto].
  unfold registeredWith.
  match goal with E : DMPlexGetHeightStratum _ 1 = _ |- _ => rewrite E end. cbn.
  rewrite A5, M5, C1, A6, M6, C1. cbn.
  split; [reflexivity |]. split; [reflexivity |].
  split; [intros id Hid; apply Hin in Hid; exact Hid |].
  eexists _, _, _. rewrite A7. cbn.
  split; [reflexivity |]. split; [reflexivity |]. cbn.
  split; [exact S1 |].
  assert (HL : stratum (labelOf b') 1 = list_to_set (GetBoundaryGeometry bs)).
  { rewrite Hstr. unfold labelOf, stratum. cbn. rewrite lookup_insert_eq. cbn.
    rewrite lookup_empty. cbn. set_solver. }
  split.
  { unfold labelOf at 1. cbn. rewrite lookup_insert_eq. cbn.
    rewrite stratum_complete.
    change (labelOf (setLocalSection b' ?x)) with (labelOf b').
    rewrite HL, S1. reflexivity. }
  split; [reflexivity |]. cbn.
  split; [exact D1 |]. split; [exact D2 |].
  split; [rewrite D4, length_replicate; reflexivity |].
  split.
  { intros p Hp. change (dofOf (PetscSectionSetUp ?x) p) with (dofOf x p).
    rewrite D5 by exact Hp. rewrite dofOf_chart. reflexivity. }
  rewrite P1, P3, P4. cbn. rewrite S1, Zsum_ones.
  auto.
Qed.

End RegisterOk.

Lemma faces_depth m p :
  inRange (DMPlexGetHeightStratum m 1) p = true ->
  depthStrata m !! (length (depthStrata m) - 2)%nat
    = Some (DMPlexGetHeightStratum m 1) /\
  (2 <= length (depthStrata m))%nat.
Proof.
  intros H. apply inRange_spec in H. revert H.
  unfold DMPlexGetHeightStratum.
  destruct (depthStrata m) as [| r rs] eqn:E; [cbn; lia |].
  cbn [length]. replace (S (length rs) - 1)%nat with (length rs) by lia.
  destruct (Nat.ltb_spec (length rs) 1) as [Hlt | Hge]; [cbn; lia |].
  replace (S (length rs) - 2)%nat with (length rs - 1)%nat by lia.
  destruct ((r :: rs) !! (length rs - 1)%nat) as [x |]; cbn; [| lia].
  intros _. split; [reflexivity | lia].
Qed.

Section Registered.

Variables (s : Solver) (bs : BoundarySolver) (mon : BoundarySolverMonitor).
Hypothesis Hwf : wfPlex (plex (GetDM s)) = true.
Hypothesis Hreg : registeredWith s bs mon.

Let m := plex (GetDM s).
Let F := (length (depthStrata m) - 2)%nat.
Let marked : gset Z := list_to_set (GetBoundaryGeometry bs).

Lemma face_depth p :
  inRange (DMPlexGetHeightStratum m 1) p = true -> depthOf m p = Some F.
Proof.
  intros Hp. destruct (faces_depth m p Hp) as [Hl _].
  eapply depthOf_stratum; eauto.
Qed.

Lemma marked_faces : facesOnTop m F marked marked.
Proof.
  apply facesOnTop_self. intros p Hp. apply face_depth.
  destruct Hreg as (_ & _ & Hin & _). apply Hin.
  apply elem_of_list_to_set in Hp. exact Hp.
Qed.

End Registered.

Section RegisterStatements.

Variable env : Env.

(** C3.  After [Register] has succeeded on a boundary solver with [N]
    output components, every face [f] of the face range of the mesh that is
    a face identifier of the boundary geometry is marked with value 1 in the
    label and has [N] dofs in the section of the Boundary Mesh; every other
    face of the range is unmarked and has 0 dofs. *)
Theorem Register_marks_and_lays_out (s : Solver) (bs : BoundarySolver) (w w' : World) :
  solverType s = IsBoundarySolver bs ->
  labels (GetDM s) !! labelName = None ->
  wfPlex (plex (GetDM s)) = true ->
  Register env s w = (inr tt, w') ->
  exists b sec,
    boundaryDm (this w') = Some b /\ localSection b = Some sec /\
    forall f,
      inRange (DMPlexGetHeightStratum (plex (GetDM s)) 1) f = true ->
      (f ∈ GetBoundaryGeometry bs ->
         (f ∈ stratum (labelOf b) 1) /\
         dofOf sec f = Z.of_nat (length (GetOutputComponents bs))) /\
      (f ∉ GetBoundaryGeometry bs ->
         (f ∉ stratum (labelOf b) 1) /\ dofOf sec f = 0).
Proof.
  intros Hs Hfresh Hwf H.
  destruct (Register_ok env s bs w w' Hs Hfresh H) as [Hreg _].
  pose proof (marked_faces s bs (this w') Hwf Hreg) as Hm.
  apply (facesOnTop_closure _ Hwf) in Hm. destruct Hm as [_ Hm].
  pose proof (face_depth s Hwf) as Hdepth.
  destruct Hreg as (_ & _ & Hin & b & f0 & sec & Hb & _ & _ & Hl & Hsec & _ & _ & _ & Hdof & _).
  exists b, sec. split; [exact Hb |]. split; [exact Hsec |].
  intros f Hf. specialize (Hdof f Hf). rewrite Hl.
  split; intros Hg.
  - rewrite decide_True in Hdof by exact Hg. split; [| exact Hdof].
    apply elem_of_closureOfSet. exists f.
    split; [apply elem_of_list_to_set, Hg | apply closure_self].
  - rewrite decide_False in Hdof by exact Hg. split; [| exact Hdof].
    intros Hc. apply Hg. apply (elem_of_list_to_set (C:=gset Z)).
    apply Hm. split; [exact Hc | apply Hdepth, Hf].
Qed.

(** C4, as the code has it.  After [Register], the index set of the Face
    Sub-mesh maps the cells of the sub-mesh one-to-one onto the marked
    faces, and there are as many cells as marked faces.  The index set
    itself is longer: it lists, without repetition, every point of the
    completed label, that is the marked faces and the points of their
    closure. *)
Theorem subpointIS_bijection_on_cells (s : Solver) (bs : BoundarySolver) (w w' : World) :
  solverType s = IsBoundarySolver bs ->
  labels (GetDM s) !! labelName = None ->
  wfPlex (plex (GetDM s)) = true ->
  Register env s w = (inr tt, w') ->
  exists b f ix cStart cEnd,
    boundaryDm (this w') = Some b /\ faceDm (this w') = Some f /\
    subpointIS f = Some ix /\
    DMPlexGetHeightStratum (plex f) 0 = (cStart, cEnd) /\
    let marked : gset Z := list_to_set (GetBoundaryGeometry bs) in
    cEnd - cStart = Z.of_nat (size marked) /\
    (forall facePt, cStart <= facePt < cEnd ->
       exists p, ix !! Z.to_nat facePt = Some p /\ (p ∈ marked)) /\
    (forall i j p, cStart <= i < cEnd -> cStart <= j < cEnd ->
       ix !! Z.to_nat i = Some p -> ix !! Z.to_nat j = Some p -> i = j) /\
    (forall p, p ∈ marked ->
       exists facePt, cStart <= facePt < cEnd /\ ix !! Z.to_nat facePt = Some p) /\
    NoDup ix /\
    (forall x, x ∈ ix <-> x ∈ closureOfSet (plex b) (stratum (labelOf b) 1)).
Proof.
  intros Hs Hfresh Hwf H.
  destruct (Register_ok env s bs w w' Hs Hfresh H) as [Hreg _].
  pose proof (marked_faces s bs (this w') Hwf Hreg) as Hm.
  do 2 apply (facesOnTop_closure _ Hwf) in Hm.
  destruct Hreg as (_ & _ & Hin & b & f & sec & Hb & Hf & Hplex & Hl & _ & _ & _ & _ & _ & Hpf & Hix & _).
  set (m := plex (GetDM s)) in *.
  set (F := (length (depthStrata m) - 2)%nat) in *.
  set (marked := list_to_set (GetBoundaryGeometry bs) : gset Z) in *.
  set (T := closureOfSet m (closureOfSet m marked)) in *.
  exists b, f, (subpoints m (labelOf b) 1).
  rewrite Hpf, Hplex, Hl. fold T.
  destruct (decide (marked = ∅)) as [He | Hne].
  - (* no face is marked *)
    assert (HT : T = ∅) by (unfold T; rewrite He, !closureOfSet_empty; reflexivity).
    destruct (subpoints_none m (labelOf b) 1) as [Hsub Hstr].
    { rewrite Hl. fold T. rewrite HT. apply topDepth_empty. }
    exists 0, 0. rewrite Hsub, Hstr.
    split; [exact Hb |]. split; [exact Hf |]. split; [rewrite Hix, Hsub; reflexivity |].
    split; [reflexivity |]. cbv zeta. rewrite He, HT.
    split; [reflexivity |]. split; [intros; lia |]. split; [intros; lia |].
    split; [intros p Hp; set_solver |]. split; [constructor |].
    intros x. split; [intros Hx; inversion Hx | set_solver].
  - (* some face is marked *)
    assert (HF : (F < length (depthStrata m))%nat).
    { apply set_choose_L in Hne as [p Hp].
      apply elem_of_list_to_set, Hin, faces_depth in Hp as [_ Hp]. unfold F. lia. }
    destruct (subpoints_some m (labelOf b) 1 F) as [Hsub Hstr].
    { rewrite Hl. apply (topDepth_marked m Hwf F marked _ Hm _ Hne HF). }
    rewrite Hl in Hsub, Hstr. fold T in Hsub, Hstr.
    exists 0, (Z.of_nat (length (pointsAtDepth m T F))).
    rewrite Hsub, Hstr.
    destruct (depthOrder_head F) as [rest Hrest].
    pose proof (length_top m Hwf F marked T Hm) as Hlen.
    split; [exact Hb |]. split; [exact Hf |]. split; [rewrite Hix, Hsub; reflexivity |].
    split; [reflexivity |]. cbv zeta.
    split; [rewrite Hlen; lia |].
    split.
    { intros facePt Hpt. rewrite Hrest. cbn [flat_map].
      rewrite lookup_app_l by lia.
      destruct (lookup_lt_is_Some_2 (pointsAtDepth m T F) (Z.to_nat facePt)) as [p Hp]; [lia |].
      exists p. split; [exact Hp |].
      apply (elem_of_top m Hwf F marked T Hm). apply list_elem_of_lookup. eauto. }
    split.
    { intros i j p Hi Hj. rewrite Hrest. cbn [flat_map].
      rewrite !lookup_app_l by lia. intros Hpi Hpj.
      pose proof (NoDup_lookup _ _ _ _ (NoDup_pointsAtDepth m T F) Hpi Hpj). lia. }
    split.
    { intros p Hp. apply (elem_of_top m Hwf F marked T Hm) in Hp.
      apply list_elem_of_lookup in Hp as [i Hi].
      pose proof (lookup_lt_Some _ _ _ Hi) as Hlt.
      exists (Z.of_nat i). split; [lia |].
      rewrite Hrest. cbn [flat_map]. rewrite Nat2Z.id, lookup_app_l by lia. exact Hi. }
    split.
    { apply NoDup_levels; [exact Hwf | apply NoDup_depthOrder]. }
    intros x. apply (elem_of_levels m Hwf F marked T Hm x F). lia.
Qed.

End RegisterStatements.

(** ** The global vector of the Face Sub-mesh *)

Lemma Qplus_0_l_eq (a : Q) : (0 + a)%Q = a.
Proof.
  destruct a as [n d]. unfold Qplus. cbn.
  rewrite Z.mul_1_r. reflexivity.
Qed.

Lemma Qplus_0_r_eq (a : Q) : (a + 0)%Q = a.
Proof.
  destruct a as [n d]. unfold Qplus. cbn.
  rewrite Z.mul_1_r, Z.add_0_r, Pos.mul_1_r. reflexivity.
Qed.

Lemma lookup_addContributions (cs : list (nat * Q)) :
  forall (g : list Q) (j : nat),
    fold_left addContribution cs g !! j
      = (fun y => fold_left Qplus (contributionsTo j cs) y) <$> (g !! j).
Proof.
  induction cs as [| [i x] cs IH]; intros g j.
  - cbn. destruct (g !! j); reflexivity.
  - cbn [fold_left]. rewrite IH. unfold addContribution at 1. cbn [fst snd].
    unfold contributionsTo. rewrite filter_cons. cbn [fst].
    destruct (decide (i = j)) as [-> | Hne].
    + rewrite list_lookup_alter_eq. destruct (g !! j); reflexivity.
    + rewrite list_lookup_alter_ne by exact Hne. reflexivity.
Qed.

Lemma length_addContributions (cs : list (nat * Q)) :
  forall g : list Q, length (fold_left addContribution cs g) = length g.
Proof.
  induction cs as [| c cs IH]; intros g; [reflexivity |].
  cbn [fold_left]. rewrite IH. unfold addContribution. apply length_alter.
Qed.

Lemma length_fit n l : length (fit n l) = n.
Proof.
  unfold fit. rewrite length_take, length_app, length_replicate. lia.
Qed.

Section GlobalVector.
Variable env : Env.

(** C1.  In a [Save] that returns normally, and whose unchecked
    [VecZeroEntries] of line 165 did its work, the global vector of the
    Face Sub-mesh that is written out is the zero vector to which the local
    face buffer has been added with [ADD_VALUES]: every entry is the sum of
    the contributions made to it, those of the other processes included.
    In particular an entry that receives [a] from one local representation
    and 0 from another holds [a]. *)
Theorem Save_adds_contributions (sequenceNumber : Z) (time : Q) (w w' : World) :
  Save env sequenceNumber time w = (inr tt, w') ->
  ierr env (VecZeroEntries_ GlobalFaceVec) = 0 ->
  let loc := valuesOf w' LocalFaceVec in
  let g := valuesOf w' GlobalFaceVec in
  g = localToGlobalAdd env loc (replicate (faceGlobalSize env) 0%Q) /\
  (exists out,
     viewer w' = out ++ [Field (name (this w)) sequenceNumber time g]) /\
  forall j, (j < faceGlobalSize env)%nat ->
    g !! j = Some (Qsum (contributionsTo j (contributions env loc))) /\
    forall a,
      contributionsTo j (contributions env loc) = [a; 0%Q] \/
      contributionsTo j (contributions env loc) = [0%Q; a] ->
      g !! j = Some a.
Proof.
  intros H Hzero. unfold Save in H.
  unfold DMGetLocalVector, DMRestoreLocalVector in H.
  run.
  all: try congruence.
  all: cbn [valuesOf vecs VecId_eqb vec values viewer this name].
  all: rewrite ?length_fit.
  all: split; [reflexivity |].
  all: split; [eexists; reflexivity |].
  all: intros j Hj; unfold localToGlobalAdd; rewrite lookup_addContributions;
       rewrite lookup_replicate_2 by exact Hj; cbn [fmap option_fmap option_map].
  all: split; [reflexivity |].
  all: intros a [-> | ->]; cbn [fold_left];
       rewrite ?Qplus_0_l_eq, ?Qplus_0_r_eq; reflexivity.
Qed.

End GlobalVector.

(** ** Layout of a section *)

Lemma Zsum_nonneg l : Forall (fun d => 0 <= d) l -> 0 <= Zsum l.
Proof.
  unfold Zsum. induction 1 as [| d l Hd _ IH]; cbn; lia.
Qed.

Lemma Zsum_app l k : Zsum (l ++ k) = Zsum l + Zsum k.
Proof.
  unfold Zsum. induction l as [| d l IH]; cbn; [reflexivity |].
  rewrite IH. lia.
Qed.

Lemma Zsum_take_drop l i : Zsum l = Zsum (take i l) + Zsum (drop i l).
Proof. rewrite <- Zsum_app, take_drop. reflexivity. Qed.

Section Layout.

Variable sec : PetscSection.
Hypothesis Hwf : wfSection sec.

Lemma chart_index p :
  inChart sec p = true ->
  0 <= p - pStart sec /\ (Z.to_nat (p - pStart sec) < length (atlasDof sec))%nat.
Proof.
  unfold inChart. intros H. apply andb_prop in H as [H1 H2].
  apply Z.leb_le in H1. apply Z.ltb_lt in H2.
  destruct Hwf as [Hlen _]. lia.
Qed.

Lemma dofOf_nonneg p : 0 <= dofOf sec p.
Proof.
  unfold dofOf. destruct (atlasDof sec !! _) as [d |] eqn:E; cbn; [| lia].
  destruct Hwf as [_ Hall]. rewrite Forall_forall in Hall.
  apply Hall. apply list_elem_of_lookup. eauto.
Qed.

Lemma offsetOf_nonneg p : 0 <= offsetOf sec p.
Proof.
  unfold offsetOf. apply Zsum_nonneg.
  destruct Hwf as [_ Hall]. apply Forall_take, Hall.
Qed.

(** The data of a point ends where the data of the next points begins. *)
Lemma offsetOf_next p q :
  inChart sec p = true -> inChart sec q = true -> p < q ->
  offsetOf sec p + dofOf sec p <= offsetOf sec q.
Proof.
  intros Hp Hq Hlt.
  destruct (chart_index p Hp) as [Hp0 Hpl], (chart_index q Hq) as [Hq0 Hql].
  unfold offsetOf, dofOf.
  set (i := Z.to_nat (p - pStart sec)). set (j := Z.to_nat (q - pStart sec)).
  assert (Hij : (i < j)%nat) by lia.
  destruct (lookup_lt_is_Some_2 _ _ Hpl) as [d Hd]. fold i in Hd. rewrite Hd. cbn.
  rewrite (Zsum_take_drop (take j (atlasDof sec)) i).
  rewrite take_take. replace (i `min` j)%nat with i by lia.
  assert (Hdrop : drop i (take j (atlasDof sec))
                  = d :: drop (S i) (take j (atlasDof sec))).
  { apply drop_S. rewrite lookup_take_lt by lia. exact Hd. }
  rewrite Hdrop. cbn.
  assert (0 <= Zsum (drop (S i) (take j (atlasDof sec)))).
  { apply Zsum_nonneg. destruct Hwf as [_ Hall].
    apply Forall_drop, Forall_take, Hall. }
  unfold Zsum in *. lia.
Qed.

Lemma offsetOf_end p :
  inChart sec p = true ->
  offsetOf sec p + dofOf sec p <= PetscSectionGetStorageSize sec.
Proof.
  intros Hp. destruct (chart_index p Hp) as [Hp0 Hpl].
  unfold offsetOf, dofOf, PetscSectionGetStorageSize.
  set (i := Z.to_nat (p - pStart sec)).
  destruct (lookup_lt_is_Some_2 _ _ Hpl) as [d Hd]. fold i in Hd. rewrite Hd. cbn.
  rewrite (Zsum_take_drop (atlasDof sec) i).
  rewrite (drop_S _ _ _ Hd). cbn.
  assert (0 <= Zsum (drop (S i) (atlasDof sec))).
  { apply Zsum_nonneg. destruct Hwf as [_ Hall]. apply Forall_drop, Hall. }
  unfold Zsum in *. lia.
Qed.

(** The block size divides every dof count, so a block fits in the data of
    any point that has data. *)
Lemma gcd_divides (l : list Z) d : d ∈ l -> (foldr Z.gcd 0 l | d).
Proof.
  induction l as [| x l IH]; intros Hd; [inversion Hd |].
  cbn. apply elem_of_cons in Hd as [-> | Hd].
  - apply Z.gcd_divide_l.
  - etransitivity; [apply Z.gcd_divide_r | apply IH, Hd].
Qed.

Lemma blockSize_pos : 0 < sectionBlockSize sec.
Proof.
  unfold sectionBlockSize.
  destruct (Z.eqb_spec (foldr Z.gcd 0 (atlasDof sec)) 0) as [E | E]; [lia |].
  assert (0 <= foldr Z.gcd 0 (atlasDof sec)).
  { destruct (atlasDof sec); cbn; [lia | apply Z.gcd_nonneg]. }
  lia.
Qed.

Lemma blockSize_fits p :
  inChart sec p = true -> hasData sec p = true ->
  sectionBlockSize sec <= dofOf sec p.
Proof.
  intros Hp Hd. unfold hasData in Hd. apply Z.ltb_lt in Hd.
  destruct (chart_index p Hp) as [_ Hpl].
  destruct (lookup_lt_is_Some_2 _ _ Hpl) as [d Hl].
  assert (Hdof : dofOf sec p = d) by (unfold dofOf; rewrite Hl; reflexivity).
  rewrite Hdof in *.
  assert (Hdiv : (foldr Z.gcd 0 (atlasDof sec) | d)).
  { apply gcd_divides, list_elem_of_lookup. eauto. }
  unfold sectionBlockSize.
  destruct (Z.eqb_spec (foldr Z.gcd 0 (atlasDof sec)) 0) as [E | E]; [lia |].
  apply Z.divide_pos_le; [lia | exact Hdiv].
Qed.

End Layout.

(** What [copyBlock] writes and what it leaves. *)
Lemma copyBlock_spec src so dst to count x :
  copyBlock src so dst to count = Some x ->
  0 <= so /\ 0 <= to /\ 0 <= count /\
  so + count <= Z.of_nat (length src) /\ to + count <= Z.of_nat (length dst) /\
  (forall k, 0 <= k < count ->
     x !! Z.to_nat (to + k) = src !! Z.to_nat (so + k)) /\
  (forall i : nat, ~ (to <= Z.of_nat i < to + count) -> x !! i = dst !! i).
Proof.
  unfold copyBlock. intros H.
  destruct (_ && _) eqn:E in H; [| discriminate].
  repeat (apply andb_prop in E as [E ?]).
  repeat match goal with K : (_ <=? _) = true |- _ => apply Z.leb_le in K end.
  injection H as <-.
  do 5 (split; [lia |]). split.
  - intros k Hk.
    rewrite lookup_app_r by (rewrite length_take; lia).
    rewrite length_take.
    replace (Z.to_nat (to + k) - Z.to_nat to `min` length dst)%nat
      with (Z.to_nat k) by lia.
    rewrite lookup_app_l by (rewrite length_take, length_drop; lia).
    rewrite lookup_take_lt by lia. rewrite lookup_drop. f_equal. lia.
  - intros i Hi.
    destruct (decide (Z.of_nat i < to)) as [Hlt | Hge].
    + rewrite lookup_app_l by (rewrite length_take; lia).
      apply lookup_take_lt. lia.
    + rewrite lookup_app_r by (rewrite length_take; lia).
      rewrite lookup_app_r by (rewrite !length_take, length_drop; lia).
      rewrite !length_take, length_drop, lookup_drop. f_equal. lia.
Qed.

(** ** The transfer loop *)

Lemma dofOf_le_storage sec p :
  wfSection sec -> dofOf sec p <= PetscSectionGetStorageSize sec.
Proof.
  intros [_ Hall]. unfold dofOf, PetscSectionGetStorageSize.
  destruct (atlasDof sec !! _) as [d |] eqn:E; cbn.
  - rewrite (Zsum_take_drop _ (Z.to_nat (p - pStart sec))).
    rewrite (drop_S _ _ _ E).
    assert (0 <= Zsum (take (Z.to_nat (p - pStart sec)) (atlasDof sec)))
      by (apply Zsum_nonneg, Forall_take, Hall).
    assert (0 <= Zsum (drop (S (Z.to_nat (p - pStart sec))) (atlasDof sec)))
      by (apply Zsum_nonneg, Forall_drop, Hall).
    unfold Zsum in *. cbn. lia.
  - apply Zsum_nonneg, Hall.
Qed.

Section TransferLoop.

Variable env : Env.
Variables (n : Z) (ix : list Z) (b f : DM) (bsec fsec : PetscSection).
Hypothesis Hbsec : localSection b = Some bsec.
Hypothesis Hfsec : localSection f = Some fsec.
Hypothesis Hwf : wfSection fsec.
Hypothesis Hn : n = sectionBlockSize fsec.

(** Both pointers of a turn of the loop are non-null. *)
Let both (facePt boundaryPt : Z) : bool :=
  hasData bsec boundaryPt && hasData fsec facePt.

Lemma transferPoint_ok facePt w w' :
  transferPoint env n ix facePt w = (inr tt, w') ->
  boundaryDm (this w) = Some b -> faceDm (this w) = Some f ->
  exists boundaryPt,
    0 <= facePt /\ ix !! Z.to_nat facePt = Some boundaryPt /\
    inChart fsec facePt = true /\
    if both facePt boundaryPt
    then copyBlock (valuesOf w LocalBoundaryVec) (offsetOf bsec boundaryPt)
                   (valuesOf w LocalFaceVec) (offsetOf fsec facePt) n
           = Some (valuesOf w' LocalFaceVec)
    else valuesOf w' LocalFaceVec = valuesOf w LocalFaceVec.
Proof.
  unfold transferPoint. intros H Hb Hf.
  apply bind_run in H as [(e & _ & [=]) | (boundaryPt & w1 & H & K)].
  apply indexAt_run in H as [-> [(bp & Hp0 & Hix & [= <-]) | [=]]].
  apply bind_run in K as [(e & _ & [=]) | (src & w2 & H & K)].
  apply pointLocal_run in H
    as [-> [([=] & _) | (_ & [(_ & [=]) | (d & Hd & [(_ & [=]) | (sec & Hsec &
          [(_ & [=]) | (Hcb & [= ->])])])])]].
  rewrite Hb in Hd. injection Hd as <-. rewrite Hbsec in Hsec. injection Hsec as <-.
  apply bind_run in K as [(e & _ & [=]) | (dst & w3 & H & K)].
  apply pointLocal_run in H
    as [-> [([=] & _) | (_ & [(_ & [=]) | (d & Hd & [(_ & [=]) | (sec & Hsec &
          [(_ & [=]) | (Hcf & [= ->])])])])]].
  cbn in Hd. rewrite Hf in Hd. injection Hd as <-.
  rewrite Hfsec in Hsec. injection Hsec as <-.
  exists boundaryPt. do 3 (split; [assumption |]).
  unfold both, hasData.
  destruct (0 <? dofOf fsec facePt), (0 <? dofOf bsec boundaryPt); cbn [andb].
  2-4: apply ret_run' in K as [_ ->]; reflexivity.
  apply PetscArraycpy_run in K
    as [(_ & [=] & _) | (_ & [(_ & [=] & _) | (x & Hx & _ & ->)])].
  cbn in *. exact Hx.
Qed.

Lemma both_fits facePt boundaryPt :
  inChart fsec facePt = true -> both facePt boundaryPt = true ->
  0 < n <= dofOf fsec facePt.
Proof.
  intros Hc Hb. unfold both in Hb. apply andb_prop in Hb as [_ Hd].
  rewrite Hn. split; [apply blockSize_pos | apply blockSize_fits; assumption].
Qed.

(** Blocks written for different points do not meet. *)
Lemma blocks_apart p q bp bq k i :
  inChart fsec p = true -> inChart fsec q = true -> p <> q ->
  both p bp = true -> both q bq = true ->
  0 <= k < n -> i = offsetOf fsec p + k ->
  ~ (offsetOf fsec q <= i < offsetOf fsec q + n).
Proof.
  intros Hp Hq Hne Hbp Hbq Hk ->.
  pose proof (both_fits p bp Hp Hbp). pose proof (both_fits q bq Hq Hbq).
  destruct (Z.lt_total p q) as [Hlt | [-> | Hgt]]; [| contradiction |].
  - pose proof (offsetOf_next fsec Hwf p q Hp Hq Hlt). lia.
  - pose proof (offsetOf_next fsec Hwf q p Hq Hp Hgt). lia.
Qed.

Lemma transfer_loop (pts : list Z) :
  NoDup pts ->
  forall w w',
    forEach pts (transferPoint env n ix) w = (inr tt, w') ->
    boundaryDm (this w) = Some b -> faceDm (this w) = Some f ->
    (forall p, p ∈ pts ->
       exists bp, 0 <= p /\ ix !! Z.to_nat p = Some bp /\
         inChart fsec p = true /\
         (both p bp = true ->
            forall k, 0 <= k < n ->
              valuesOf w' LocalFaceVec !! Z.to_nat (offsetOf fsec p + k)
                = valuesOf w LocalBoundaryVec !! Z.to_nat (offsetOf bsec bp + k))) /\
    (forall i : nat,
       (forall p bp, p ∈ pts -> ix !! Z.to_nat p = Some bp -> both p bp = true ->
          ~ (offsetOf fsec p <= Z.of_nat i < offsetOf fsec p + n)) ->
       valuesOf w' LocalFaceVec !! i = valuesOf w LocalFaceVec !! i).
Proof.
  induction pts as [| p pts IH]; intros Hnd w w' H Hb Hf.
  - apply ret_run' in H as [_ ->]. split; [intros p Hp; inversion Hp | auto].
  - apply NoDup_cons in Hnd as [Hp Hnd]. cbn [forEach] in H.
    apply bind_run in H as [(e & _ & [=]) | ([] & w1 & H & K)].
    pose proof (transferPoint_frame _ _ _ _ _ _ _ H)
      as (F1 & _ & _ & F4 & _ & _ & _ & _).
    destruct (transferPoint_ok p w w1 H Hb Hf) as (bp & Hp0 & Hix & Hc & Hcopy).
    destruct (IH Hnd w1 w' K) as [IH1 IH2]; [rewrite F1; exact Hb | rewrite F1; exact Hf |].
    assert (Hsrc : valuesOf w1 LocalBoundaryVec = valuesOf w LocalBoundaryVec).
    { unfold valuesOf. rewrite F4 by discriminate. reflexivity. }
    rewrite Hsrc in IH1. split.
    + intros q Hq. apply elem_of_cons in Hq as [-> | Hq]; [| apply IH1, Hq].
      exists bp. do 3 (split; [assumption |]). intros Hboth k Hk.
      rewrite Hboth in Hcopy.
      apply copyBlock_spec in Hcopy as (_ & _ & _ & _ & _ & Hw & _).
      rewrite <- (Hw k Hk). apply IH2.
      intros q bq Hq Hixq Hbq.
      destruct (IH1 q Hq) as (bq' & _ & Hixq' & Hcq & _).
      pose proof (offsetOf_nonneg fsec Hwf p).
      eapply (blocks_apart p q bp bq k); eauto; [congruence | lia].
    + intros i Hi. rewrite IH2.
      * destruct (both p bp) eqn:Hboth; [| rewrite Hcopy; reflexivity].
        apply copyBlock_spec in Hcopy as (_ & _ & _ & _ & _ & _ & Hkeep).
        apply Hkeep. apply (Hi p bp); [left | exact Hix | exact Hboth].
      * intros q bq Hq. apply Hi. now right.
Qed.

End TransferLoop.

Section SaveTransfer.
Variable env : Env.

(** What a [Save] that returns normally has done to the two local vectors:
    either one of them is empty and the loop was skipped, or the loop ran
    over the cells of the Face Sub-mesh on a zeroed local face vector. *)
Lemma Save_transfer (sequenceNumber : Z) (time : Q) (w w' : World) (b f : DM)
    (ix : list Z) :
  Save env sequenceNumber time w = (inr tt, w') ->
  boundaryDm (this w) = Some b -> faceDm (this w) = Some f ->
  subpointIS f = Some ix ->
  exists src cStart cEnd,
    DMPlexGetHeightStratum (plex f) 0 = (cStart, cEnd) /\
    length src = localSize b /\
    valuesOf w' LocalBoundaryVec = src /\
    length (valuesOf w' LocalFaceVec) = localSize f /\
    ((src = [] \/ localSize f = O) /\
       valuesOf w' LocalFaceVec = replicate (localSize f) 0%Q
     \/
     exists w0 w1,
       forEach (seqZ cStart (cEnd - cStart))
               (transferPoint env (localBlockSize f) ix) w0 = (inr tt, w1) /\
       boundaryDm (this w0) = Some b /\
       faceDm (this w0) = Some (setOutputSequence f (sequenceNumber, time)) /\
       valuesOf w0 LocalFaceVec = replicate (localSize f) 0%Q /\
       valuesOf w0 LocalBoundaryVec = src /\
       valuesOf w1 LocalFaceVec = valuesOf w' LocalFaceVec).
Proof.
  intros H Hb Hf Hix. unfold Save in H.
  unfold DMGetLocalVector, DMRestoreLocalVector in H.
  run.
  all: match goal with E : DMPlexGetHeightStratum _ 0 = _ |- _ => cbn in E end.
  all: match goal with E : subpointIS _ = Some _ |- _ =>
         cbn in E; rewrite Hix in E; injection E as <- end.
  all: change (localSize (setOutputSequence ?d ?x)) with (localSize d) in *.
  all: change (localBlockSize (setOutputSequence ?d ?x)) with (localBlockSize d) in *.
  all: rewrite ?length_fit, ?length_replicate in *.
  all: eexists _, _, _.
  all: split; [eassumption |].
  all: cbn [valuesOf vecs VecId_eqb vec values].
  all: try match goal with
       | K : forall v, v <> LocalFaceVec -> _ = _ |- _ =>
           rewrite (K LocalBoundaryVec) by discriminate;
           cbn [valuesOf vecs VecId_eqb vec values]
       end.
  all: split; [apply length_fit |].
  all: split; [reflexivity |].
  all: rewrite ?length_fit, ?length_replicate.
  all: split; [first [reflexivity | assumption] |].
  all: unfold ran in *.
  all: repeat match goal with u : unit |- _ => destruct u end.
  all: try (right; eexists _, _; split; [eassumption |];
            cbn [this boundaryDm faceDm valuesOf vecs VecId_eqb vec values];
            rewrite ?length_fit, ?length_replicate;
            repeat split; first [reflexivity | assumption]).
  all: left; split; [| reflexivity].
  all: match goal with E : _ && _ = false |- _ =>
         unfold arrayNonNull in E; cbn [values] in E;
         rewrite ?length_fit, ?length_replicate in E;
         apply andb_false_iff in E as [E | E];
         apply negb_false_iff, Nat.eqb_eq in E
       end.
  all: try (right; assumption).
  all: left; apply nil_length_inv; rewrite length_fit; assumption.
Qed.

End SaveTransfer.

Section TransferStatement.
Variable env : Env.

(** A turn of the loop on a point one of whose two locations is null does
    nothing and raises nothing. *)
Lemma transferPoint_skips n ix b f bsec fsec facePt boundaryPt w :
  boundaryDm (this w) = Some b -> faceDm (this w) = Some f ->
  localSection b = Some bsec -> localSection f = Some fsec ->
  0 <= facePt -> ix !! Z.to_nat facePt = Some boundaryPt ->
  inChart bsec boundaryPt = true -> inChart fsec facePt = true ->
  ierr env (DMPlexPointLocalRead_ boundaryPt) = 0 ->
  ierr env (DMPlexPointLocalRef_ facePt) = 0 ->
  hasData bsec boundaryPt && hasData fsec facePt = false ->
  (transferPoint env n ix facePt w).1 = inr tt /\
  vecs (transferPoint env n ix facePt w).2 = vecs w /\
  trace (transferPoint env n ix facePt w).2
    = trace w ++ [DMPlexPointLocalRead_ boundaryPt; DMPlexPointLocalRef_ facePt].
Proof.
  intros Hb Hf Hbs Hfs Hp Hix Hcb Hcf Hr Hw Hboth.
  unfold transferPoint, indexAt.
  destruct (facePt <? 0) eqn:E; [apply Z.ltb_lt in E; lia |].
  rewrite Hix.
  unfold pointLocal, checkError, handle, log, hasData, mbind, M_bind, bind,
    mret, M_ret, ret in *.
  cbn. rewrite Hr. cbn. rewrite Hb, Hbs, Hcb. cbn. rewrite Hw. cbn.
  rewrite Hf, Hfs, Hcf. cbn.
  rewrite <- app_assoc.
  destruct (0 <? dofOf fsec facePt), (0 <? dofOf bsec boundaryPt);
    cbn in *; try discriminate; auto.
Qed.

(** C2.  In a [Save] that returns normally, the local face buffer is zeroed
    and then, for every cell [facePt] of the Face Sub-mesh and the Boundary
    Mesh point [boundaryPt] the index set gives for it: when both locations
    are non-null, the block of the Face Sub-mesh block size at [facePt]
    holds the values of the boundary result at [boundaryPt]; when one of
    them is null, the entries of [facePt] are still zero.  A turn of the
    loop on such a point makes the two lookups, changes no vector and
    raises nothing. *)
Theorem Save_transfers_blocks (sequenceNumber : Z) (time : Q) (w w' : World)
    (b f : DM) (bsec fsec : PetscSection) (ix : list Z) (cStart cEnd : Z) :
  Save env sequenceNumber time w = (inr tt, w') ->
  boundaryDm (this w) = Some b -> faceDm (this w) = Some f ->
  localSection b = Some bsec -> localSection f = Some fsec ->
  wfSection bsec -> wfSection fsec ->
  subpointIS f = Some ix ->
  DMPlexGetHeightStratum (plex f) 0 = (cStart, cEnd) ->
  (forall p, cStart <= p < cEnd -> inChart fsec p = true) ->
  forall facePt boundaryPt,
    cStart <= facePt < cEnd -> ix !! Z.to_nat facePt = Some boundaryPt ->
    (if hasData bsec boundaryPt && hasData fsec facePt
     then forall k, 0 <= k < sectionBlockSize fsec ->
            exists v,
              valuesOf w' LocalBoundaryVec
                !! Z.to_nat (offsetOf bsec boundaryPt + k) = Some v /\
              valuesOf w' LocalFaceVec
                !! Z.to_nat (offsetOf fsec facePt + k) = Some v
     else forall k, 0 <= k < dofOf fsec facePt ->
            valuesOf w' LocalFaceVec
              !! Z.to_nat (offsetOf fsec facePt + k) = Some 0%Q) /\
    (hasData bsec boundaryPt && hasData fsec facePt = false ->
     forall (n : Z) (w0 : World) (b0 f0 : DM),
       boundaryDm (this w0) = Some b0 -> faceDm (this w0) = Some f0 ->
       localSection b0 = Some bsec -> localSection f0 = Some fsec ->
       0 <= facePt -> inChart bsec boundaryPt = true ->
       ierr env (DMPlexPointLocalRead_ boundaryPt) = 0 ->
       ierr env (DMPlexPointLocalRef_ facePt) = 0 ->
       (transferPoint env n ix facePt w0).1 = inr tt /\
       vecs (transferPoint env n ix facePt w0).2 = vecs w0 /\
       trace (transferPoint env n ix facePt w0).2
         = trace w0 ++ [DMPlexPointLocalRead_ boundaryPt;
                        DMPlexPointLocalRef_ facePt]).
Proof.
  intros H Hb Hf Hbs Hfs Hwb Hwf Hix Hstr Hcells facePt boundaryPt Hrange Hlook.
  split; [| intros; eapply transferPoint_skips; eauto].
  destruct (Save_transfer env _ _ _ _ _ _ _ H Hb Hf Hix)
    as (src & cS & cE & Hstr' & Hlen & Hsrc & Hflen & Hcase).
  rewrite Hstr in Hstr'. injection Hstr' as <- <-.
  assert (HLf : localSize f = Z.to_nat (PetscSectionGetStorageSize fsec))
    by (unfold localSize; rewrite Hfs; reflexivity).
  assert (HLb : localSize b = Z.to_nat (PetscSectionGetStorageSize bsec))
    by (unfold localSize; rewrite Hbs; reflexivity).
  pose proof (Hcells facePt Hrange) as Hc.
  pose proof (offsetOf_end fsec Hwf facePt Hc) as Hend.
  pose proof (offsetOf_nonneg fsec Hwf facePt) as Hoff.
  pose proof (dofOf_le_storage bsec boundaryPt Hwb) as Hdb.
  destruct Hcase as [[Hempty Hzero] | (w0 & w1 & Hloop & Hb0 & Hf0 & Hz0 & Hs0 & Hfin)].
  - destruct (hasData bsec boundaryPt && hasData fsec facePt) eqn:Hboth.
    + exfalso. apply andb_prop in Hboth as [B1 B2]. unfold hasData in *.
      apply Z.ltb_lt in B1, B2.
      destruct Hempty as [-> | E]; [cbn in Hlen |]; lia.
    + intros k Hk. rewrite Hzero. apply lookup_replicate_2. lia.
  - assert (Hfs' : localSection (setOutputSequence f (sequenceNumber, time))
                     = Some fsec) by exact Hfs.
    assert (Hn : localBlockSize f = sectionBlockSize fsec)
      by (unfold localBlockSize; rewrite Hfs; reflexivity).
    destruct (transfer_loop env _ ix b _ bsec fsec Hbs Hfs' Hwf Hn
                _ (NoDup_seqZ cStart (cEnd - cStart)) w0 w1 Hloop Hb0 Hf0)
      as [T1 T2].
    destruct (T1 facePt) as (bp & Hp0 & Hixp & _ & Hcopy);
      [apply elem_of_seqZ; lia |].
    rewrite Hlook in Hixp. injection Hixp as <-.
    destruct (hasData bsec boundaryPt && hasData fsec facePt) eqn:Hboth.
    + intros k Hk. rewrite <- Hfin, Hsrc, <- Hs0, <- (Hcopy eq_refl k) by lia.
      assert (Hfit : 0 < sectionBlockSize fsec <= dofOf fsec facePt).
      { apply andb_prop in Hboth as [_ B2].
        split; [apply blockSize_pos | apply blockSize_fits; assumption]. }
      destruct (lookup_lt_is_Some_2 (valuesOf w1 LocalFaceVec)
                  (Z.to_nat (offsetOf fsec facePt + k))) as [v Hv];
        [rewrite Hfin, Hflen; lia | eauto].
    + intros k Hk. rewrite <- Hfin, T2.
      * rewrite Hz0. apply lookup_replicate_2. lia.
      * intros q bq Hq Hixq Hbq.
        apply elem_of_seqZ in Hq.
        destruct (Z.lt_total facePt q) as [Hlt | [<- | Hgt]].
        -- pose proof (offsetOf_next fsec Hwf facePt q Hc (Hcells q ltac:(lia)) Hlt).
           lia.
        -- congruence.
        -- pose proof (offsetOf_next fsec Hwf q facePt (Hcells q ltac:(lia)) Hc Hgt).
           assert (sectionBlockSize fsec <= dofOf fsec q).
           { apply andb_prop in Hbq as [_ B2].
             apply blockSize_fits; auto. apply Hcells. lia. }
           lia.
Qed.

End TransferStatement.

(** ** A monitor without faces *)



Section EmptySave.
Variable env : Env.
Hypothesis Hall : forall c, ierr env c = 0.



Lemma addFields_total (comps : list string) :
  forall w f, faceDm (this w) = Some f ->
    exists w', forEach comps (addField env) w = (inr tt, w').
Proof.
  induction comps as [| field comps IH]; intros w f Hf.
  - exists w. reflexivity.
  - cbn [forEach].
    destruct (addField env field w) as [[e | []] w1] eqn:H.
    + exfalso. unfold addField in H. run.
      all: try match goal with E : ierr env ?c <> 0 |- _ => exact (E (Hall c)) end.
      all: congruence.
    + assert (Hf1 : exists f1, faceDm (this w1) = Some f1).
      { unfold addField in H. run. all: cbn; eauto. }
      destruct Hf1 as [f1 Hf1]. destruct (IH w1 f1 Hf1) as [w' H'].
      exists w'. unfold mbind, M_bind, bind. rewrite H. exact H'.
Qed.




End EmptySave.

(** ** The destructor *)

Section Destructor.

Variable env : Env.

(** The destructor destroys what it finds, the Boundary Mesh first, and
    leaves both handles null: run again, it makes no call. *)
Theorem destroy_releases_both (w : World) :
  ierr env (DMDestroy_ BoundaryDM) = 0 ->
  ierr env (DMDestroy_ FaceDM) = 0 ->
  exists w',
    destroy env w = (inr tt, w') /\
    boundaryDm (this w') = None /\ faceDm (this w') = None /\
    newCalls w w' = destroyCalls (this w) /\
    destroy env w' = (inr tt, w').
Proof.
  intros Hb Hf. destruct w as [[nm sv bsv bd fd] tr co vs vw].
  unfold destroy, noexcept, checkError, log, get, modify, mbind, M_bind, bind, ret,
    throw, newCalls, destroyCalls.
  destruct bd as [b |], fd as [f |]; cbn; rewrite ?Hb, ?Hf; cbn;
    eexists; (split; [reflexivity |]); cbn;
    rewrite <- ?app_assoc, ?drop_app_length, ?drop_all; auto.
Qed.

(** When destroying the Boundary Mesh fails, [checkError] throws inside the
    destructor, which is [noexcept]: the program is terminated on the
    spot, the Face Sub-mesh is never destroyed. *)
Theorem destroy_stops_at_first_failure (w : World) (b : DM) :
  boundaryDm (this w) = Some b ->
  ierr env (DMDestroy_ BoundaryDM) <> 0 ->
  exists w',
    destroy env w = (inl std_terminate, w') /\
    this w' = this w /\
    newCalls w w' = [DMDestroy_ BoundaryDM].
Proof.
  intros Hb Hne. destruct w as [[nm sv bsv bd fd] tr co vs vw]. cbn in Hb. subst bd.
  unfold destroy, noexcept, checkError, log, get, modify, mbind, M_bind, bind, ret,
    throw, newCalls.
  cbn. destruct (Z.eqb_spec (ierr env (DMDestroy_ BoundaryDM)) 0) as [E | _];
    [contradiction |].
  eexists. split; [reflexivity |]. cbn. rewrite drop_app_length. auto.
Qed.

End Destructor.

(** ** What a Save that returns normally has done *)

Section SaveResult.

Variable env : Env.

Lemma Save_result (sequenceNumber : Z) (time : Q) (w w' : World) :
  Save env sequenceNumber time w = (inr tt, w') ->
  exists s bs b f,
    solver (this w) = Some s /\ boundarySolver (this w) = Some bs /\
    boundaryDm (this w) = Some b /\ faceDm (this w) = Some f /\
    this w' = {| name := name (this w); solver := Some s; boundarySolver := Some bs;
                 boundaryDm := Some b;
                 faceDm := Some (setOutputSequence f (sequenceNumber, time)) |} /\
    viewer w' = viewer w
      ++ (if Z.eqb sequenceNumber 0 then [Topology f] else [])
      ++ [Field (name (this w)) sequenceNumber time (valuesOf w' GlobalFaceVec)] /\
    valuesOf w' LocXVec
      = fit (localSize (GetDM s)) (globalToLocal env (GetSolutionVector s)) /\
    valuesOf w' LocalBoundaryVec
      = fit (localSize b)
          (ComputeRHSFunction bs time (valuesOf w' LocXVec)
             (replicate (localSize b) 0%Q)).
Proof.
  intros H. unfold Save in H.
  unfold DMGetLocalVector, DMRestoreLocalVector in H.
  run.
  all: unfold ran in *.
  all: eexists _, _, _, _.
  all: do 4 (split; [first [eassumption | reflexivity] |]).
  all: try match goal with
       | K : forall v, v <> LocalFaceVec -> _ = _ |- _ =>
           rewrite !(K LocXVec), !(K LocalBoundaryVec) by discriminate
       end.
  all: cbn [valuesOf vecs VecId_eqb vec values outputSequence setOutputSequence
            fst snd this viewer].
  all: rewrite ?length_replicate, ?length_fit.
  all: repeat match goal with
       | E : _ (this _) = Some _ |- _ => rewrite E; clear E
       end.
  all: rewrite <- ?app_assoc.
  all: repeat split; reflexivity.
Qed.

End SaveResult.

Section SaveStatementsMore.

Variable env : Env.

(** A [Save] that returns normally has added to the output stream the
    topology record of the Face Sub-mesh when the sequence number is 0, and
    then one field record with the monitor's name, the sequence number, the
    time and the global vector; nothing else. *)
Theorem Save_writes_one_record (sequenceNumber : Z) (time : Q) (w w' : World) :
  Save env sequenceNumber time w = (inr tt, w') ->
  exists f,
    faceDm (this w) = Some f /\
    newOutput w w' =
      (if Z.eqb sequenceNumber 0 then [Topology f] else [])
      ++ [Field (name (this w)) sequenceNumber time (valuesOf w' GlobalFaceVec)].
Proof.
  intros H.
  destruct (Save_result env _ _ _ _ H)
    as (s & bs & b & f & _ & _ & _ & Hf & _ & Hv & _).
  exists f. split; [exact Hf |].
  unfold newOutput. rewrite Hv, drop_app_length. reflexivity.
Qed.

(** In a [Save] that returns normally the boundary solver's routine is run
    on the ghosted solution of the solver and on a zeroed result vector;
    what it gives back is what the local boundary vector holds afterwards,
    so nothing of an earlier [Save] is left in it. *)
Theorem Save_computes_from_zero (sequenceNumber : Z) (time : Q) (w w' : World) :
  Save env sequenceNumber time w = (inr tt, w') ->
  exists s bs b,
    solver (this w) = Some s /\ boundarySolver (this w) = Some bs /\
    boundaryDm (this w) = Some b /\
    valuesOf w' LocalBoundaryVec
      = fit (localSize b)
          (ComputeRHSFunction bs time
             (fit (localSize (GetDM s)) (globalToLocal env (GetSolutionVector s)))
             (replicate (localSize b) 0%Q)).
Proof.
  intros H.
  destruct (Save_result env _ _ _ _ H)
    as (s & bs & b & f & Hs & Hbs & Hb & _ & _ & _ & Hx & Hy).
  exists s, bs, b. rewrite <- Hx. auto.
Qed.

(** A [Save] that returns normally changes nothing of the monitor but the
    sequence number and time the Face Sub-mesh is tagged with: a registered
    monitor stays registered, with the same name. *)
Theorem Save_keeps_the_monitor (sequenceNumber : Z) (time : Q) (w w' : World)
    (s : Solver) (bs : BoundarySolver) :
  registeredWith s bs (this w) ->
  Save env sequenceNumber time w = (inr tt, w') ->
  registeredWith s bs (this w') /\
  name (this w') = name (this w) /\
  boundaryDm (this w') = boundaryDm (this w) /\
  exists f, faceDm (this w) = Some f /\
            faceDm (this w') = Some (setOutputSequence f (sequenceNumber, time)).
Proof.
  intros Hreg H.
  destruct (Save_result env _ _ _ _ H)
    as (s0 & bs0 & b0 & f0 & Hs & Hbs & Hb & Hf & Hthis & _).
  destruct Hreg as (Rs & Rbs & Rin & b & f & sec & Rb & Rf & R).
  rewrite Hs in Rs. injection Rs as ->. rewrite Hbs in Rbs. injection Rbs as ->.
  rewrite Hb in Rb. injection Rb as ->. rewrite Hf in Rf. injection Rf as ->.
  rewrite Hthis. cbn. split; [| rewrite Hb; eauto].
  unfold registeredWith. cbn.
  split; [reflexivity |]. split; [reflexivity |]. split; [exact Rin |].
  exists b, (setOutputSequence f (sequenceNumber, time)), sec.
  split; [reflexivity |]. split; [reflexivity |]. exact R.
Qed.

End SaveStatementsMore.

(** ** What Save writes, however it ends *)

Lemma fields_hold_no_topology (fields : list Output) (d : DM) :
  forallb isField fields = true -> Topology d ∉ fields.
Proof.
  intros H Hin. rewrite forallb_forall in H.
  apply list_elem_of_In, H in Hin. discriminate Hin.
Qed.

Section SaveOutput.

Variable env : Env.

(** What [Save] adds to the output stream, however it ends: the topology
    record of the Face Sub-mesh, when the sequence number is 0 and [DMView]
    succeeds on it, and after it nothing but field records. *)
Lemma Save_output sequenceNumber time w r w' :
  Save env sequenceNumber time w = (r, w') ->
  exists topology fields,
    viewer w' = viewer w ++ topology ++ fields /\
    forallb isField fields = true /\
    (topology = [] /\
       (sequenceNumber <> 0 \/ ierr env DMView_ <> 0 \/ faceDm (this w) = None) \/
     exists f, sequenceNumber = 0 /\ ierr env DMView_ = 0 /\
               faceDm (this w) = Some f /\ topology = [Topology f]).
Proof.
  intros H. unfold Save in H.
  unfold DMGetLocalVector, DMRestoreLocalVector in H.
  run.
  all: cbn [viewer]; rewrite <- ?app_assoc.
  all: try match goal with
           | E : (_ =? 0) = true |- _ => apply Z.eqb_eq in E
           | E : (_ =? 0) = false |- _ => apply Z.eqb_neq in E
           end.
  all: first
    [ exists [], []; rewrite app_nil_r;
      split; [reflexivity | split; [reflexivity | left; split; [reflexivity | tauto]]]
    | eexists [], [Field _ _ _ _]; cbn [app];
      split; [reflexivity | split; [reflexivity | left; split; [reflexivity | tauto]]]
    | eexists [Topology _], []; cbn [app];
      split; [reflexivity | split; [reflexivity | right; eexists; repeat split; eassumption]]
    | eexists [Topology _], [Field _ _ _ _]; cbn [app];
      split; [reflexivity | split; [reflexivity | right; eexists; repeat split; eassumption]]
    ].
Qed.


(** C7.  Whatever the library calls return and whatever state the monitor
    is in, [Save] calls [DMView] on the Face Sub-mesh exactly when the
    sequence number is 0, and the output stream receives a topology record
    only then: the record is the one of the Face Sub-mesh, it is written
    when that [DMView] returns 0, once, and before any field record.  So a
    [Save] that returns normally has written the topology record if and
    only if the sequence number is 0, and a [Save] with another sequence
    number writes none however it ends. *)
Theorem topology_only_at_sequence_zero (sequenceNumber : Z) (time : Q) (w : World) r w' :
  Save env sequenceNumber time w = (r, w') ->
  (DMView_ ∈ newCalls w w' <-> sequenceNumber = 0) /\
  (forall d, Topology d ∈ newOutput w w' <->
             sequenceNumber = 0 /\ ierr env DMView_ = 0 /\ faceDm (this w) = Some d) /\
  (exists fields, forallb isField fields = true /\
     (newOutput w w' = fields \/ exists f, newOutput w w' = Topology f :: fields)) /\
  (sequenceNumber <> 0 -> forallb isField (newOutput w w') = true) /\
  (r = inr tt -> ((exists d, Topology d ∈ newOutput w w') <-> sequenceNumber = 0)).
Proof.
  intros H.
  assert (Hcalls : DMView_ ∈ newCalls w w' <-> sequenceNumber = 0).
  { destruct (Save_calls env _ _ _ _ _ H) as (loopCalls & new & HL & Ht & Hne & Hp & _).
    rewrite (newCalls_app _ _ _ Ht). split.
    - intros Hin. destruct Hp as [k Hk].
      assert (Hs : DMView_ ∈ saveCalls sequenceNumber time (name (this w)) loopCalls).
      { rewrite Hk. apply elem_of_app. now left. }
      unfold saveCalls in Hs.
      destruct (Z.eqb_spec sequenceNumber 0) as [E | E]; [exact E |].
      cbn [app] in Hs.
      repeat (apply elem_of_cons in Hs as [Hs | Hs]; [discriminate Hs |]).
      apply elem_of_app in Hs as [Hs | Hs].
      + apply (perPoint_elem _ _ HL) in Hs. discriminate Hs.
      + repeat (apply elem_of_cons in Hs as [Hs | Hs]; [discriminate Hs |]).
        inversion Hs.
    - intros ->. unfold saveCalls in Hp. cbn in Hp.
      destruct new as [| c new]; [done |].
      apply prefix_cons_inv_1 in Hp as ->. left. }
  destruct (Save_output _ _ _ _ _ H) as (topology & fields & Hv & Hfields & Hcase).
  assert (Hnew : newOutput w w' = topology ++ fields).
  { unfold newOutput. rewrite Hv. apply drop_app_length. }
  assert (Hiff : forall d, Topology d ∈ newOutput w w' <->
             sequenceNumber = 0 /\ ierr env DMView_ = 0 /\ faceDm (this w) = Some d).
  { intros d. rewrite Hnew, elem_of_app. split.
    - intros [Hin | Hin]; [| destruct (fields_hold_no_topology _ _ Hfields Hin)].
      destruct Hcase as [[-> _] | (f & Hseq & Herr & Hf & ->)]; [inversion Hin |].
      apply list_elem_of_singleton in Hin. injection Hin as ->. auto.
    - intros (Hseq & Herr & Hd). left.
      destruct Hcase as [[_ [Hc | [Hc | Hc]]] | (f & _ & _ & Hf & ->)].
      + contradiction.
      + contradiction.
      + rewrite Hd in Hc. discriminate Hc.
      + rewrite Hd in Hf. injection Hf as ->. apply list_elem_of_singleton. reflexivity. }
  split; [exact Hcalls |]. split; [exact Hiff |]. split; [| split].
  - exists fields. split; [exact Hfields |]. rewrite Hnew.
    destruct Hcase as [[-> _] | (f & _ & _ & _ & ->)]; [left | right; exists f];
      reflexivity.
  - intros Hseq. rewrite Hnew.
    destruct Hcase as [[-> _] | (f & Hs & _)]; [exact Hfields | contradiction].
  - intros ->. split.
    + intros [d Hd]. apply Hiff in Hd. tauto.
    + intros Hseq.
      destruct (Save_result env _ _ _ _ H) as (_ & _ & _ & f & _ & _ & _ & Hf & _ & Hout & _).
      exists f. unfold newOutput. rewrite Hout, drop_app_length.
      rewrite Hseq. cbn. left.
Qed.

End SaveOutput.

(** ** Register: the name, and the faces it is given *)

Section RegisterMore.

Variable env : Env.

Lemma Register_frame s w w' :
  Register env s w = (inr tt, w') ->
  name (this w') = (GetSolverId s +:+ name (this w))%string /\
  solver (this w') = Some s /\
  checkedOut w' = checkedOut w /\ vecs w' = vecs w /\ viewer w' = viewer w.
Proof.
  intros H. unfold Register, dynamic_pointer_cast in H.
  destruct (solverType s) as [bs |] eqn:Hs; [| discriminate H].
  unfold Monitor_Register, setBoundarySolver, setName, onLabel in H.
  cbn [clone labels] in H.
  run.
  all: match goal with
       | K : clearDofs _ _ _ _ _ = _ |- _ =>
           apply clearDofs_run in K as [(C1 & C2 & C3 & C4) [[= ->] | (? & [=] & _)]]
       end.
  all: match goal with
       | K : markFaces _ _ _ _ _ _ = _ |- _ =>
           eapply markFaces_ok in K
             as (_ & _ & M1 & M2 & M3 & M4 & M5 & _ & _ & b' & Hb' & _ & _);
             [| cbn; rewrite length_replicate; reflexivity
              | rewrite C1; cbn; reflexivity]
       end.
  all: match goal with
       | K : forEach _ (addField _) _ = (inr ?u, _) |- _ =>
           destruct u;
           eapply addFields_ok in K
             as (A1 & A2 & A3 & A4 & A5 & _ & _ & _);
             [| cbn; reflexivity]
       end.
  all: cbn in *.
  all: rewrite A4, M4, C1, A5, M5, C1; cbn; rewrite A1, M1, C2, A2, M2, C3, A3, M3, C4.
  all: auto.
Qed.

(** [Register] writes nothing to the output stream, and after it has
    succeeded on a solver, a [Save] that returns normally adds to the stream
    the topology record of the Face Sub-mesh [Register] made, when the
    sequence number is 0, and then one field record under the solver's
    identifier followed by the name the monitor had before [Register];
    nothing else. *)
Theorem Register_then_Save_names_the_record (s : Solver) (w w1 w2 : World)
    (sequenceNumber : Z) (time : Q) :
  Register env s w = (inr tt, w1) ->
  Save env sequenceNumber time w1 = (inr tt, w2) ->
  viewer w1 = viewer w /\
  exists f,
    faceDm (this w1) = Some f /\
    viewer w2 = viewer w
      ++ (if sequenceNumber =? 0 then [Topology f] else [])
      ++ [Field (GetSolverId s +:+ name (this w))%string sequenceNumber time
            (valuesOf w2 GlobalFaceVec)].
Proof.
  intros HR HS.
  destruct (Register_frame _ _ _ HR) as (Hn & _ & _ & _ & Hv).
  destruct (Save_result env _ _ _ _ HS) as (_ & _ & _ & f & _ & _ & _ & Hf & _ & Hout & _).
  rewrite Hn, Hv in Hout.
  split; [exact Hv |]. exists f. split; [exact Hf | exact Hout].
Qed.
Hypothesis Hall : forall c, ierr env c = 0.

(** The loop of lines 52-58, when it stops: a face identifier outside the
    chart of the section. *)
Lemma markFaces_fails n (ids : list Z) :
  forall sec w e w' b,
    markFaces env true n ids sec w = (inl e, w') ->
    boundaryDm (this w) = Some b ->
    (exists id, id ∈ ids /\ inChart sec id = false /\
       e = petsc_error (PetscSectionSetDof_ id n) PETSC_ERR_ARG_OUTOFRANGE) /\
    faceDm (this w') = faceDm (this w) /\ is_Some (boundaryDm (this w')).
Proof.
  unfold markFaces.
  induction ids as [| id ids IH]; intros sec w e w' b H Hb.
  - discriminate H.
  - cbn [foldM] in H.
    apply bind_run in H as [(e0 & H & [= <-]) | (sec1 & w1 & H & K)].
    + apply bind_run in H as [(e1 & H & [= <-]) | ([] & w0 & H & H1)].
      * apply onLabel_run in H
          as [(E & _) | (_ & [([[=] | Hn] & _) | (d & _ & _ & [=] & _)])].
        -- exfalso. exact (E (Hall _)).
        -- congruence.
      * apply onLabel_run in H
          as [(_ & [=] & _) | (_ & [(_ & [=] & _) | (d & _ & Hd & _ & ->)])].
        apply SetDof_run in H1 as [-> [(E & _) | (_ & [(Hc & [= ->]) | (_ & [=])])]].
        -- exfalso. exact (E (Hall _)).
        -- split; [exists id; split; [left | auto] |]. cbn. eauto.
    + apply bind_run in H as [(e1 & _ & [=]) | ([] & w0 & H & H1)].
      apply onLabel_run in H
        as [(_ & [=] & _) | (_ & [(_ & [=] & _) | (d & _ & Hd & _ & ->)])].
      apply SetDof_run in H1 as [-> [(_ & [=]) | (_ & [(_ & [=]) | (Hc & [= ->])])]].
      eapply IH in K as ((id' & Hin & Hc' & ->) & Hf & Hsome); [| cbn; reflexivity].
      split; [exists id'; split; [now right | auto] |].
      cbn in Hf. auto.
Qed.

Lemma Register_fails s bs w e w' :
  solverType s = IsBoundarySolver bs ->
  Register env s w = (inl e, w') ->
  (exists id, id ∈ GetBoundaryGeometry bs /\
     inRange (DMPlexGetHeightStratum (plex (GetDM s)) 1) id = false /\
     e = petsc_error (PetscSectionSetDof_ id (Z.of_nat (length (GetOutputComponents bs))))
           PETSC_ERR_ARG_OUTOFRANGE) /\
  faceDm (this w') = faceDm (this w) /\ is_Some (boundaryDm (this w')).
Proof.
  intros Hs H.
  unfold Register, dynamic_pointer_cast in H. rewrite Hs in H.
  unfold Monitor_Register, setBoundarySolver, setName, onLabel in H.
  cbn [clone labels] in H.
  run.
  all: try (exfalso; match goal with E : ierr env ?c <> 0 |- _ => exact (E (Hall c)) end).
  all: try match goal with
       | K : clearDofs _ _ _ _ _ = (inl _, _) |- _ =>
           exfalso; apply clearDofs_run in K as [_ [[=] | (c & _ & E)]]; exact (E (Hall c))
       end.
  all: try match goal with
       | K : forEach ?cs (addField _) ?w0 = (inl _, _) |- _ =>
           exfalso; destruct (addFields_total env Hall cs w0 _ eq_refl) as [? K'];
           rewrite K' in K; discriminate K
       end.
  all: match goal with
       | K : clearDofs _ _ _ _ _ = (inr _, _) |- _ =>
           apply clearDofs_run in K as [(C1 & _) [[= ->] | (? & [=] & _)]]
       end.
  all: match goal with
       | K : markFaces _ (bool_decide ?P) _ _ _ _ = _ |- _ =>
           rewrite (bool_decide_eq_true_2 P) in K
             by first [eexists; eassumption
                      | cbn; rewrite lookup_insert_eq; eexists; reflexivity]
       | _ => idtac
       end.
  all: try match goal with
       | K : markFaces _ true _ _ _ _ = (inl _, _) |- _ =>
           eapply markFaces_fails in K as ((id & Hin & Hc & ->) & Hf & Hsome);
             [| rewrite C1; cbn; reflexivity];
           rewrite C1 in Hf; cbn in Hf, Hc;
           split; [exists id; auto | auto]
       end.
  all: exfalso.
  all: try match goal with
       | K : markFaces _ true _ _ _ _ = (inr _, _) |- _ =>
           eapply markFaces_ok in K
             as (_ & _ & _ & _ & _ & _ & _ & _ & _ & b' & Hb' & _ & _);
             [| cbn; rewrite length_replicate; reflexivity
              | rewrite C1; cbn; reflexivity]
       end.
  all: try match goal with
       | K : forEach _ (addField _) _ = (inr ?u, _) |- _ =>
           destruct u;
           eapply addFields_ok in K as (_ & _ & _ & _ & _ & _ & _ & f' & Hf' & _);
             [| cbn; reflexivity]
       end.
  all: cbn in *; try congruence.
  all: match goal with
       | K : bool_decide _ = false |- _ => apply bool_decide_eq_false in K; apply K
       end.
  all: first [eexists; eassumption | rewrite lookup_insert_eq; eexists; reflexivity].
Qed.

(** With no library call failing, [Register] on a boundary solver succeeds
    exactly when every face identifier of the boundary geometry lies in the
    face range of the mesh.  Otherwise it stops at the first identifier
    outside with the out-of-range error of [PetscSectionSetDof]: the
    Boundary Mesh has been cloned by then, no Face Sub-mesh is made. *)
Theorem Register_needs_faces_in_range (s : Solver) (bs : BoundarySolver) (w : World) :
  solverType s = IsBoundarySolver bs ->
  labels (GetDM s) !! labelName = None ->
  let faces := DMPlexGetHeightStratum (plex (GetDM s)) 1 in
  let r := Register env s w in
  (r.1 = inr tt <->
   forall id, id ∈ GetBoundaryGeometry bs -> inRange faces id = true) /\
  (r.1 <> inr tt ->
   (exists id, id ∈ GetBoundaryGeometry bs /\ inRange faces id = false /\
      r.1 = inl (petsc_error
                   (PetscSectionSetDof_ id (Z.of_nat (length (GetOutputComponents bs))))
                   PETSC_ERR_ARG_OUTOFRANGE)) /\
   faceDm (this r.2) = faceDm (this w) /\ is_Some (boundaryDm (this r.2))).
Proof.
  intros Hs Hfresh faces r.
  destruct (Register env s w) as [[e | []] w'] eqn:H; subst r; cbn [fst snd].
  - destruct (Register_fails s bs w e w' Hs H) as ((id & Hin & Hout & ->) & Hf & Hb).
    split.
    + split; [discriminate |]. intros Hall'. specialize (Hall' id Hin).
      fold faces in Hout. congruence.
    + intros _. split; [exists id; auto | auto].
  - split; [| congruence]. split; [| reflexivity]. intros _.
    destruct (Register_ok env s bs w w' Hs Hfresh H) as [(_ & _ & Hin & _) _].
    exact Hin.
Qed.

End RegisterMore.

End MonitorFacts.

(* ===================================================================== *)
(** * More on the buoyancy source                                          *)
(* ===================================================================== *)

Module SourceFacts.
Import Buoyancy BuoyancyFacts.

Section Loop.

Variables RHOE RHOU : Z.
Variables (ctx : Buoyancy) (uOff : array Z) (u : array double) (density : double).

Lemma sourceLoop_frame (ns : list Z) :
  forall f f',
    sourceLoop RHOE RHOU ctx uOff u density ns f = Some f' ->
    forall i, i <> RHOE -> (forall n, n ∈ ns -> i <> RHOU + n) -> f' i = f i.
Proof.
  induction ns as [| n ns IH]; intros f f' H i HE Hi.
  - injection H as <-. reflexivity.
  - cbn [sourceLoop] in H. unfold sourceStep in H.
    destruct (vectorAt (buoyancyVector ctx) n) as [b |]; [| discriminate H].
    rewrite (IH _ _ H i HE) by (intros k Hk; apply Hi; now right).
    rewrite store_other by exact HE.
    apply store_other. apply Hi. left.
Qed.

Lemma sourceLoop_defined (ns : list Z) :
  forall f,
    is_Some (sourceLoop RHOE RHOU ctx uOff u density ns f) <->
    (forall n, n ∈ ns -> is_Some (vectorAt (buoyancyVector ctx) n)).
Proof.
  induction ns as [| n ns IH]; intros f.
  - cbn. split; [intros _ n Hn; inversion Hn | eauto].
  - cbn [sourceLoop]. unfold sourceStep.
    destruct (vectorAt (buoyancyVector ctx) n) as [b |] eqn:Hb.
    + rewrite IH. split.
      * intros H k Hk. apply elem_of_cons in Hk as [-> | Hk]; [eauto | apply H, Hk].
      * intros H k Hk. apply H. now right.
    + split; [intros [x Hx]; discriminate Hx |].
      intros H. destruct (H n) as [x Hx]; [left | congruence].
Qed.

End Loop.

Lemma vectorAt_defined (v : list double) (n : Z) :
  is_Some (vectorAt v n) <-> 0 <= n < Z.of_nat (length v).
Proof.
  unfold vectorAt. destruct (Z.ltb_spec n 0) as [Hneg | Hpos].
  - split; [intros [x Hx]; discriminate Hx | lia].
  - rewrite lookup_lt_is_Some. lia.
Qed.

Section Source.

Variables RHO RHOE RHOU : Z.
Variables (ctx : Buoyancy) (uOff : array Z) (u : array double).

(** The buoyancy vector bounds the dimension: [ComputeBuoyancySource] reads
    [buoyancyVector[n]] for every [n < dim], so it is defined exactly when
    the vector has at least [dim] entries; a [dim] of zero or less is
    always fine. *)
Theorem ComputeBuoyancySource_defined_iff (dim : Z) (time : double) (f : array double) :
  is_Some (ComputeBuoyancySource RHO RHOE RHOU dim time uOff u f ctx) <->
  dim <= Z.of_nat (length (buoyancyVector ctx)).
Proof.
  unfold ComputeBuoyancySource. rewrite sourceLoop_defined. split.
  - intros H. destruct (Z.le_gt_cases dim 0) as [Hle | Hgt]; [lia |].
    specialize (H (dim - 1)). rewrite vectorAt_defined in H.
    rewrite elem_of_seqZ in H. lia.
  - intros H n Hn. apply elem_of_seqZ in Hn. apply vectorAt_defined. lia.
Qed.

(** [ComputeBuoyancySource] writes the density, energy and [dim] momentum
    entries of [f] and nothing else. *)
Theorem ComputeBuoyancySource_writes_only (dim : Z) (time : double) (f f' : array double) :
  ComputeBuoyancySource RHO RHOE RHOU dim time uOff u f ctx = Some f' ->
  forall i, i <> RHO -> i <> RHOE -> ~ (RHOU <= i < RHOU + dim) -> f' i = f i.
Proof.
  unfold ComputeBuoyancySource. intros H i H1 H2 H3.
  rewrite (sourceLoop_frame _ _ _ _ _ _ _ _ _ H i H2).
  - rewrite !store_other by assumption. reflexivity.
  - intros n Hn. apply elem_of_seqZ in Hn. lia.
Qed.

Hypothesis RHO_RHOE : RHO <> RHOE.
Hypothesis RHO_first : RHO < RHOU.
Hypothesis RHOE_first : RHOE < RHOU.

(** The source terms are set, not accumulated: what [f] held in the entries
    that are written has no influence on the result, so every call on the
    same cell state gives the same source terms. *)
Theorem ComputeBuoyancySource_overwrites (dim : Z) (time time' : double)
    (f g f' g' : array double) :
  ComputeBuoyancySource RHO RHOE RHOU dim time uOff u f ctx = Some f' ->
  ComputeBuoyancySource RHO RHOE RHOU dim time' uOff u g ctx = Some g' ->
  f' RHO = g' RHO /\ f' RHOE = g' RHOE /\
  forall n, 0 <= n < dim -> f' (RHOU + n) = g' (RHOU + n).
Proof.
  intros Hf Hg.
  assert (Hdim : dim <= Z.of_nat (length (buoyancyVector ctx))).
  { apply (ComputeBuoyancySource_defined_iff dim time f). eauto. }
  unfold ComputeBuoyancySource in Hf, Hg.
  assert (Hin : forall n, n ∈ seqZ 0 dim ->
                  0 <= n /\ is_Some (vectorAt (buoyancyVector ctx) n)).
  { intros n Hn. apply elem_of_seqZ in Hn. rewrite vectorAt_defined. lia. }
  destruct (sourceLoop_spec RHO RHOE RHOU RHO_RHOE RHO_first RHOE_first ctx uOff u
              (seqZ 0 dim) (store (store f RHO zero) RHOE zero) (NoDup_seqZ _ _) Hin)
    as (f1 & Hf1 & F1 & F2 & F3 & _).
  destruct (sourceLoop_spec RHO RHOE RHOU RHO_RHOE RHO_first RHOE_first ctx uOff u
              (seqZ 0 dim) (store (store g RHO zero) RHOE zero) (NoDup_seqZ _ _) Hin)
    as (g1 & Hg1 & G1 & G2 & G3 & _).
  rewrite Hf in Hf1. injection Hf1 as <-. rewrite Hg in Hg1. injection Hg1 as <-.
  split; [| split].
  - rewrite F1, G1.
    rewrite (store_other (store f RHO zero) RHOE RHO), (store_other (store g RHO zero) RHOE RHO)
      by exact RHO_RHOE.
    rewrite !store_same. reflexivity.
  - rewrite F2, G2, !store_same. reflexivity.
  - intros n Hn. rewrite F3, G3 by (apply elem_of_seqZ; lia). reflexivity.
Qed.

End Source.

Lemma ComputeBuoyancySource_writes_only_witness :
  exists f',
    ComputeBuoyancySource 0 1 2 3 zero (fun _ => 0)
      (fun i => if Z.eqb i 0 then dbl 1 (-1) else dbl 1 0) (fun _ => dbl 7 0)
      {| buoyancyVector := [zero; zero; dbl (-8) 0]; densityAvg := dbl 1 0 |} = Some f' /\
    f' 5 = dbl 7 0.
Proof.
  eexists. split; [reflexivity |].
  apply (ComputeBuoyancySource_writes_only 0 1 2
           {| buoyancyVector := [zero; zero; dbl (-8) 0]; densityAvg := dbl 1 0 |}
           (fun _ => 0) (fun i => if Z.eqb i 0 then dbl 1 (-1) else dbl 1 0)
           3 zero (fun _ => dbl 7 0) _ eq_refl 5); lia.
Defined.

Lemma ComputeBuoyancySource_overwrites_witness :
  exists f' g',
    ComputeBuoyancySource 0 1 2 3 zero (fun _ => 0)
      (fun i => if Z.eqb i 0 then dbl 1 (-1) else dbl 1 0) (fun _ => dbl 7 0)
      {| buoyancyVector := [zero; zero; dbl (-8) 0]; densityAvg := dbl 1 0 |} = Some f' /\
    ComputeBuoyancySource 0 1 2 3 (dbl 1 0) (fun _ => 0)
      (fun i => if Z.eqb i 0 then dbl 1 (-1) else dbl 1 0) (fun _ => zero)
      {| buoyancyVector := [zero; zero; dbl (-8) 0]; densityAvg := dbl 1 0 |} = Some g' /\
    f' 1 = g' 1.
Proof.
  eexists _, _. split; [reflexivity |]. split; [reflexivity |].
  apply (ComputeBuoyancySource_overwrites 0 1 2
           {| buoyancyVector := [zero; zero; dbl (-8) 0]; densityAvg := dbl 1 0 |}
           (fun _ => 0) (fun i => if Z.eqb i 0 then dbl 1 (-1) else dbl 1 0)
           ltac:(lia) ltac:(lia) ltac:(lia)
           3 zero (dbl 1 0) (fun _ => dbl 7 0) (fun _ => zero) _ _ eq_refl eq_refl).
Defined.

End SourceFacts.

(* ===================================================================== *)
(** * The pre-step that updates the reference density                    *)
(* ===================================================================== *)

Module AverageFacts.
Import Buoyancy Average.

Lemma omap_cons {A B} (f : A -> option B) (x : A) (l : list A) :
  omap f (x :: l) = match f x with
                    | Some y => y :: omap f l
                    | None => omap f l
                    end.
Proof. reflexivity. Qed.

Lemma R_bind_inv {A B} (m : R A) (k : A -> R B) s r s' :
  (m ≫= k) s = (r, s') ->
  (exists e, m s = (inl e, s') /\ r = inl e) \/
  (exists a s1, m s = (inr a, s1) /\ k a s1 = (r, s')).
Proof.
  unfold mbind, R_bind, bind. destruct (m s) as [[e | a] s1]; intros H.
  - left. exists e. inversion H. auto.
  - right. eauto.
Qed.

Lemma CHKERRQ_inv ranks c s r s' :
  CHKERRQ ranks c s = (r, s') ->
  s' = {| average := average s; steps := steps s ++ [c] |} /\
  (code ranks c = 0 /\ r = inr tt \/
   code ranks c <> 0 /\ r = inl (Returned (code ranks c))).
Proof.
  unfold CHKERRQ, mbind, R_bind, bind, made, ret, stop.
  destruct (Z.eqb_spec (code ranks c) 0) as [E | E]; intros [= <- <-]; auto.
Qed.

Lemma CHKERRMPI_inv ranks c s r s' :
  CHKERRMPI ranks c s = (r, s') ->
  s' = {| average := average s; steps := steps s ++ [c] |} /\
  (code ranks c = 0 /\ r = inr tt \/
   code ranks c <> 0 /\ r = inl (Returned PETSC_ERR_MPI)).
Proof.
  unfold CHKERRMPI, mbind, R_bind, bind, made, ret, stop.
  destruct (Z.eqb_spec (code ranks c) 0) as [E | E]; intros [= <- <-]; auto.
Qed.

Section Update.

Variable RHO : Z.
Variable ranks : Ranks.
Variable flow : Flow.

(** The cell of index [c], when the index is inside the array. *)
Let index (c : Z) : option Z :=
  match points (cellRange flow) with
  | None => Some c
  | Some ps => if Z.ltb c 0 then None else ps !! Z.to_nat c
  end.

Let density (cell : Z) : option Q :=
  (fun euler => flowArray flow (euler + RHO)) <$> globalField flow cell (flowEulerId flow).

Lemma cells_index :
  cells flow = omap index (seqZ (start (cellRange flow))
                                (end_ (cellRange flow) - start (cellRange flow))).
Proof.
  unfold cells, index. destruct (points (cellRange flow)); [reflexivity |].
  induction (seqZ _ _) as [| c cs IH]; [reflexivity |].
  cbn. f_equal. exact IH.
Qed.

Lemma visit_inv acc c s r s' :
  visit RHO ranks flow acc c s = (r, s') ->
  average s' = average s /\
  exists t, steps s' = steps s ++ t /\ forallb isRead t = true /\
    (index c = None -> r = inl Undefined /\ t = []) /\
    (forall cell, index c = Some cell ->
       t = [DMPlexPointGlobalFieldRead_ cell (flowEulerId flow)] /\
       let ierr := code ranks (DMPlexPointGlobalFieldRead_ cell (flowEulerId flow)) in
       (ierr <> 0 /\ r = inl (Returned ierr) \/
        ierr = 0 /\
        r = inr (match density cell with
                 | Some d => ((acc.1 + d)%Q, acc.2 + 1)
                 | None => acc
                 end))).
Proof.
  unfold visit, cellOf, index, density. intros H.
  assert (Hread : forall cell,
    (CHKERRQ ranks (DMPlexPointGlobalFieldRead_ cell (flowEulerId flow)) ;;
     match globalField flow cell (flowEulerId flow) with
     | Some euler => ret ((acc.1 + flowArray flow (euler + RHO)%Z)%Q, acc.2 + 1)
     | None => ret acc
     end) s = (r, s') ->
    average s' = average s /\
    steps s' = steps s ++ [DMPlexPointGlobalFieldRead_ cell (flowEulerId flow)] /\
    (code ranks (DMPlexPointGlobalFieldRead_ cell (flowEulerId flow)) <> 0 /\
       r = inl (Returned (code ranks (DMPlexPointGlobalFieldRead_ cell (flowEulerId flow)))) \/
     code ranks (DMPlexPointGlobalFieldRead_ cell (flowEulerId flow)) = 0 /\
       r = inr (match (fun euler => flowArray flow (euler + RHO))
                        <$> globalField flow cell (flowEulerId flow) with
                | Some d => ((acc.1 + d)%Q, acc.2 + 1)
                | None => acc
                end))).
  { intros cell K.
    apply R_bind_inv in K as [(e & K & ->) | ([] & s1 & K & L)].
    - apply CHKERRQ_inv in K as [-> [[E [=]] | [E [= ->]]]]. cbn. auto.
    - apply CHKERRQ_inv in K as [-> [[E _] | [E [=]]]].
      destruct (globalField flow cell (flowEulerId flow)); injection L as <- <-;
        cbn; auto. }
  assert (Hfound : forall cell,
    (ret cell ≫= fun cell : Z =>
       CHKERRQ ranks (DMPlexPointGlobalFieldRead_ cell (flowEulerId flow)) ;;
       match globalField flow cell (flowEulerId flow) with
       | Some euler => ret ((acc.1 + flowArray flow (euler + RHO)%Z)%Q, acc.2 + 1)
       | None => ret acc
       end) s = (r, s') ->
    average s' = average s /\
    exists t, steps s' = steps s ++ t /\ forallb isRead t = true /\
      (Some cell = None -> r = inl Undefined /\ t = []) /\
      (forall cell0, Some cell = Some cell0 ->
         t = [DMPlexPointGlobalFieldRead_ cell0 (flowEulerId flow)] /\
         let ierr := code ranks (DMPlexPointGlobalFieldRead_ cell0 (flowEulerId flow)) in
         (ierr <> 0 /\ r = inl (Returned ierr) \/
          ierr = 0 /\
          r = inr (match (fun euler => flowArray flow (euler + RHO))
                           <$> globalField flow cell0 (flowEulerId flow) with
                   | Some d => ((acc.1 + d)%Q, acc.2 + 1)
                   | None => acc
                   end)))).
  { intros cell K.
    apply R_bind_inv in K as [(e & [=] & _) | (x & s1 & [= <- <-] & K)].
    apply Hread in K as (Ha & Ht & Hr).
    split; [exact Ha |]. eexists. split; [exact Ht |].
    split; [reflexivity |]. split; [discriminate |].
    intros ? [= <-]. split; [reflexivity | exact Hr]. }
  destruct (points (cellRange flow)) as [ps |]; [| apply Hfound, H].
  destruct (if c <? 0 then None else ps !! Z.to_nat c) as [cell |];
    [apply Hfound, H |].
  apply R_bind_inv in H as [(e & [= <- <-] & ->) | (x & s1 & [=] & _)].
  split; [reflexivity |]. exists []. rewrite app_nil_r.
  split; [reflexivity |]. split; [reflexivity |]. split; [auto |].
  intros ? [=].
Qed.

(** The loop only reads: it leaves [densityAvg] alone and makes no other
    call than [DMPlexPointGlobalFieldRead]. *)
Lemma march_frame cs :
  forall acc s r s',
    march RHO ranks flow cs acc s = (r, s') ->
    average s' = average s /\
    exists t, steps s' = steps s ++ t /\ forallb isRead t = true.
Proof.
  induction cs as [| c cs IH]; intros acc s r s' H.
  - injection H as <- <-. split; [reflexivity |]. exists []. rewrite app_nil_r. auto.
  - cbn [march] in H.
    apply R_bind_inv in H as [(e & H & ->) | (acc' & s1 & H & K)].
    + apply visit_inv in H as (Ha & t & Ht & Hr & _). eauto.
    + apply visit_inv in H as (Ha & t & Ht & Hr & _).
      apply IH in K as (Ha' & t' & Ht' & Hr').
      split; [congruence |]. exists (t ++ t').
      rewrite Ht', Ht, app_assoc, forallb_app, Hr, Hr'. auto.
Qed.

(** The loop when nothing fails: the densities of the owned cells are
    added up and counted, in the order of the range. *)
Lemma march_ok cs :
  (forall c, c ∈ cs -> is_Some (index c)) ->
  (forall cell field, code ranks (DMPlexPointGlobalFieldRead_ cell field) = 0) ->
  forall acc s,
    march RHO ranks flow cs acc s =
      (inr (fold_left Qplus (omap density (omap index cs)) acc.1,
            acc.2 + Z.of_nat (length (omap density (omap index cs)))),
       {| average := average s;
          steps := steps s
            ++ map (fun cell => DMPlexPointGlobalFieldRead_ cell (flowEulerId flow))
                   (omap index cs) |}).
Proof.
  intros Hin Hcode.
  induction cs as [| c cs IH]; intros acc s.
  - cbn. rewrite app_nil_r, Z.add_0_r. destruct acc, s. reflexivity.
  - cbn [march]. destruct (Hin c) as [cell Hcell]; [left |].
    destruct (visit RHO ranks flow acc c s) as [r s1] eqn:H.
    pose proof (visit_inv _ _ _ _ _ H) as (Ha & t & Ht & _ & _ & Hv).
    destruct (Hv cell Hcell) as [-> [[E _] | [_ ->]]];
      [exfalso; apply E, Hcode |].
    unfold mbind, R_bind, bind. rewrite H.
    rewrite IH by (intros; apply Hin; now right).
    rewrite (omap_cons index), Hcell, (omap_cons density).
    rewrite Ha, Ht. destruct (density cell) as [d |];
      cbn [fst snd fold_left length map]; rewrite <- app_assoc.
    + rewrite Nat2Z.inj_succ, <- Z.add_1_l, Z.add_assoc. reflexivity.
    + reflexivity.
Qed.

Lemma range_index :
  rangeInBounds flow ->
  forall c, c ∈ seqZ (start (cellRange flow))
                     (end_ (cellRange flow) - start (cellRange flow)) ->
            is_Some (index c).
Proof.
  unfold rangeInBounds, index. intros Hb c Hc. apply elem_of_seqZ in Hc.
  destruct (points (cellRange flow)) as [ps |]; [| eauto].
  destruct (Hb c ltac:(lia)) as [H0 Hlen].
  destruct (Z.ltb_spec c 0); [lia |].
  apply lookup_lt_is_Some. lia.
Qed.

Lemma ownedDensities_index :
  ownedDensities RHO flow = omap density (cells flow).
Proof. reflexivity. Qed.

(** [UpdateAverageDensity] when no call before the last one fails. *)
Lemma UpdateAverageDensity_ok (s : Run) :
  (forall c, c <> VecRestoreArrayRead_ -> code ranks c = 0) ->
  rangeInBounds flow ->
  UpdateAverageDensity RHO ranks flow s =
    (if Z.eqb (code ranks VecRestoreArrayRead_) 0 then inr tt
     else inl (Returned (code ranks VecRestoreArrayRead_)),
     {| average :=
          quotient (allDensity ranks (fold_left Qplus (ownedDensities RHO flow) 0%Q))
                   (allCount ranks (Z.of_nat (length (ownedDensities RHO flow))));
        steps := steps s ++ [VecGetArrayRead_; GetCellRange_]
          ++ map (fun cell => DMPlexPointGlobalFieldRead_ cell (flowEulerId flow))
                 (cells flow)
          ++ [Allreduce_density_; Allreduce_count_; RestoreRange_;
              VecRestoreArrayRead_] |}).
Proof.
  intros Hcode Hb.
  unfold UpdateAverageDensity, CHKERRQ, CHKERRMPI, made, setAverage,
    mbind, R_bind, bind, ret, stop.
  rewrite (Hcode VecGetArrayRead_) by discriminate. cbn [Z.eqb].
  rewrite march_ok; [| apply range_index, Hb | intros; apply Hcode; discriminate].
  rewrite (Hcode Allreduce_density_), (Hcode Allreduce_count_) by discriminate.
  rewrite <- cells_index, <- ownedDensities_index.
  cbn [fst snd average steps Z.eqb]. rewrite Z.add_0_l.
  repeat rewrite <- app_assoc.
  destruct (code ranks VecRestoreArrayRead_ =? 0); reflexivity.
Qed.

(** When a call before the final [VecRestoreArrayRead] fails,
    [UpdateAverageDensity] returns at once: [densityAvg] keeps its value,
    and neither [RestoreRange] nor [VecRestoreArrayRead] is called, so the
    array and the range taken at the start are not given back. *)
Theorem UpdateAverageDensity_early_return (s : Run) e s' :
  code ranks VecRestoreArrayRead_ = 0 ->
  UpdateAverageDensity RHO ranks flow s = (inl e, s') ->
  average s' = average s /\
  exists t, steps s' = steps s ++ t /\
            (VecRestoreArrayRead_ ∉ t) /\ (RestoreRange_ ∉ t).
Proof.
  intros Hlast H. unfold UpdateAverageDensity in H.
  assert (Hreads : forall t, forallb isRead t = true ->
            (VecRestoreArrayRead_ ∉ t) /\ (RestoreRange_ ∉ t)).
  { intros t Ht. rewrite forallb_forall in Ht.
    split; intros Hin; apply list_elem_of_In, Ht in Hin; discriminate Hin. }
  assert (Hnot : forall (c : Step) (l : list Step), c ∉ l <-> ~ In c l).
  { intros c l. rewrite <- list_elem_of_In. reflexivity. }
  apply R_bind_inv in H as [(e0 & H & [= <-]) | ([] & s1 & H & K)].
  { apply CHKERRQ_inv in H as [-> _]. split; [reflexivity |].
    eexists. split; [reflexivity |]. rewrite !Hnot. cbn. intuition discriminate. }
  apply CHKERRQ_inv in H as [-> _].
  apply R_bind_inv in K as [(e0 & [=] & _) | ([] & s2 & [= <-] & K)].
  apply R_bind_inv in K as [(e0 & H & [= <-]) | (loc & s3 & H & K)].
  { apply march_frame in H as (Ha & t & Ht & Hr).
    split; [exact Ha |]. exists ([VecGetArrayRead_; GetCellRange_] ++ t).
    cbn in Ht. rewrite Ht, <- !app_assoc. split; [reflexivity |].
    destruct (Hreads t Hr) as [H1 H2].
    rewrite !not_elem_of_app. rewrite !Hnot in *. cbn. intuition discriminate. }
  apply march_frame in H as (Ha & t & Ht & Hr). cbn in Ha, Ht.
  destruct (Hreads t Hr) as [H1 H2].
  apply R_bind_inv in K as [(e0 & H & [= <-]) | ([] & s4 & H & K)].
  { apply CHKERRMPI_inv in H as [-> _]. split; [exact Ha |].
    exists ([VecGetArrayRead_; GetCellRange_] ++ t ++ [Allreduce_density_]).
    cbn [steps]. rewrite Ht, <- !app_assoc. split; [reflexivity |].
    rewrite !not_elem_of_app. rewrite !Hnot in *. cbn. intuition discriminate. }
  apply CHKERRMPI_inv in H as [-> _].
  apply R_bind_inv in K as [(e0 & H & [= <-]) | ([] & s5 & H & K)].
  { apply CHKERRMPI_inv in H as [-> _]. split; [exact Ha |].
    exists ([VecGetArrayRead_; GetCellRange_] ++ t
            ++ [Allreduce_density_; Allreduce_count_]).
    cbn [steps]. rewrite Ht, <- !app_assoc. split; [reflexivity |].
    rewrite !not_elem_of_app. rewrite !Hnot in *. cbn. intuition discriminate. }
  apply CHKERRMPI_inv in H as [-> _].
  apply R_bind_inv in K as [(e0 & [=] & _) | ([] & s6 & [= <-] & K)].
  apply R_bind_inv in K as [(e0 & [=] & _) | ([] & s7 & [= <-] & K)].
  apply CHKERRQ_inv in K as [_ [[_ [=]] | [E _]]]. contradiction.
Qed.

End Update.

End AverageFacts.

(* ===================================================================== *)
(** * The reference density                                                *)
(* ===================================================================== *)

Module AverageStatements.
Import Buoyancy Average AverageFacts.

Section Update.

Variable RHO : Z.
Variable ranks : Ranks.
Variable flow : Flow.


(** A region without a cell on any rank: the division by the cell count is
    not guarded, and [densityAvg] stops being a number. *)
Theorem UpdateAverageDensity_no_cell (s : Run) :
  (forall c, code ranks c = 0) ->
  rangeInBounds flow ->
  ownedDensities RHO flow = [] ->
  Forall (fun p => p.2 = 0) (others ranks) ->
  (UpdateAverageDensity RHO ranks flow s).1 = inr tt /\
  average (UpdateAverageDensity RHO ranks flow s).2 = NotFinite.
Proof.
  intros Hcode Hb Hnone Hothers.
  rewrite UpdateAverageDensity_ok by (intros; auto).
  rewrite Hcode, Hnone. cbn [fst snd average length Z.eqb Z.of_nat].
  split; [reflexivity |].
  assert (H0 : allCount ranks 0 = 0).
  { unfold allCount. induction Hothers as [| p l Hp _ IH]; [reflexivity |].
    cbn [map fold_left]. rewrite Hp. exact IH. }
  change (Z.of_nat 0) with 0. unfold quotient. rewrite H0. reflexivity.
Qed.


End Update.

End AverageStatements.

(* ===================================================================== *)
(** * The statements on the small mesh                                     *)
(* ===================================================================== *)

Module Instances.
Import Petsc Monitor Statements Examples PetscFacts MonitorFacts.
Local Open Scope Z_scope.

(** ** The global vector: a face held by two processes *)

Lemma Save_adds_contributions_witness :
  contributionsTo 0
    (contributions twoProcesses
       (valuesOf (Save twoProcesses 1 (1 # 20) registered).2 LocalFaceVec))
    = [1%Q; 0%Q] /\
  valuesOf (Save twoProcesses 1 (1 # 20) registered).2 GlobalFaceVec !! 0%nat
    = Some 1%Q.
Proof.
  assert (Hc : contributionsTo 0
                 (contributions twoProcesses
                    (valuesOf (Save twoProcesses 1 (1 # 20) registered).2
                       LocalFaceVec))
               = [1%Q; 0%Q]) by (vm_compute; reflexivity).
  split; [exact Hc |].
  pose proof (Save_adds_contributions twoProcesses 1 (1 # 20) registered
                (Save twoProcesses 1 (1 # 20) registered).2) as T.
  cbv zeta in T.
  destruct T as (_ & _ & T); [vm_compute; reflexivity | reflexivity |].
  destruct (T 0%nat) as [_ Ta]; [cbn; lia |].
  apply Ta. left. exact Hc.
Defined.

(** ** The transfer: the second entry of the block of face 7 *)

Lemma Save_transfers_blocks_witness :
  exists v,
    valuesOf (Save serial 1 (1 # 20) registered).2 LocalBoundaryVec !! 3%nat = Some v /\
    valuesOf (Save serial 1 (1 # 20) registered).2 LocalFaceVec !! 3%nat = Some v.
Proof.
  pose (b := default quadDM (boundaryDm (this registered))).
  pose (f := default quadDM (faceDm (this registered))).
  pose (bsec := default PetscSectionCreate (localSection b)).
  pose (fsec := default PetscSectionCreate (localSection f)).
  pose (ix := default [] (subpointIS f)).
  assert (T := proj1 (Save_transfers_blocks serial 1 (1 # 20) registered
                        (Save serial 1 (1 # 20) registered).2
                        b f bsec fsec ix 0 2
                        ltac:(vm_compute; reflexivity)
                        ltac:(vm_compute; reflexivity)
                        ltac:(vm_compute; reflexivity)
                        ltac:(vm_compute; reflexivity)
                        ltac:(vm_compute; reflexivity)
                        ltac:(split; [vm_compute; reflexivity
                                     | vm_compute; repeat constructor; discriminate])
                        ltac:(split; [vm_compute; reflexivity
                                     | vm_compute; repeat constructor; discriminate])
                        ltac:(vm_compute; reflexivity)
                        ltac:(vm_compute; reflexivity)
                        ltac:(intros p Hp; assert (Hp' : p = 0 \/ p = 1) by lia;
                              destruct Hp' as [-> | ->]; vm_compute; reflexivity)
                        1 7 ltac:(lia) ltac:(vm_compute; reflexivity))).
  assert (Hn : sectionBlockSize fsec = 2) by (vm_compute; reflexivity).
  rewrite Hn in T.
  specialize (T 1 ltac:(lia)).
  vm_compute in T. vm_compute. exact T.
Defined.

(** ** Register on the quadrilateral *)

Lemma Register_marks_and_lays_out_witness :
  exists b sec,
    boundaryDm (this (Register serial boundarySolverEx fresh).2) = Some b /\
    localSection b = Some sec /\
    (7 ∈ stratum (labelOf b) 1) /\ dofOf sec 7 = 2 /\
    (6 ∉ stratum (labelOf b) 1) /\ dofOf sec 6 = 0.
Proof.
  destruct (Register_marks_and_lays_out serial boundarySolverEx fluxes fresh
              (Register serial boundarySolverEx fresh).2
              eq_refl ltac:(vm_compute; reflexivity) ltac:(vm_compute; reflexivity)
              ltac:(vm_compute; reflexivity))
    as (b & sec & Hb & Hsec & Hf).
  exists b, sec. split; [exact Hb |]. split; [exact Hsec |].
  destruct (Hf 7 ltac:(vm_compute; reflexivity)) as [H7 _].
  destruct (Hf 6 ltac:(vm_compute; reflexivity)) as [_ H6].
  destruct H7 as [H7 H7']; [cbn; left |].
  destruct H6 as [H6 H6'].
  { cbn. intros Hc.
    repeat (apply elem_of_cons in Hc as [Hc | Hc]; [discriminate Hc |]).
    inversion Hc. }
  auto.
Defined.

(** The index set of the quadrilateral's sub-mesh has six entries for two
    marked faces, and its third entry is the vertex 1. *)
Lemma subpointIS_covers_the_closure :
  exists f ix,
    faceDm (this registered) = Some f /\ subpointIS f = Some ix /\
    length ix = 6%nat /\ length (GetBoundaryGeometry fluxes) = 2%nat /\
    ix !! 2%nat = Some 1 /\ 1 ∉ GetBoundaryGeometry fluxes.
Proof.
  assert (Hn : 1 ∉ GetBoundaryGeometry fluxes).
  { cbn. intros Hc.
    repeat (apply elem_of_cons in Hc as [Hc | Hc]; [discriminate Hc |]).
    inversion Hc. }
  eexists _, _. split; [vm_compute; reflexivity |].
  split; [reflexivity |]. split; [reflexivity |]. split; [reflexivity |].
  split; [reflexivity | exact Hn].
Qed.

Lemma subpointIS_bijection_on_cells_witness :
  exists f ix cStart cEnd,
    faceDm (this (Register serial boundarySolverEx fresh).2) = Some f /\
    subpointIS f = Some ix /\
    DMPlexGetHeightStratum (plex f) 0 = (cStart, cEnd) /\
    cEnd - cStart = 2 /\ NoDup ix.
Proof.
  destruct (subpointIS_bijection_on_cells serial boundarySolverEx fluxes fresh
              (Register serial boundarySolverEx fresh).2
              eq_refl ltac:(vm_compute; reflexivity) ltac:(vm_compute; reflexivity)
              ltac:(vm_compute; reflexivity))
    as (b & f & ix & cStart & cEnd & Hb & Hf & Hix & Hstr & Hsize & _ & _ & _ & Hnd & _).
  exists f, ix, cStart, cEnd.
  split; [exact Hf |]. split; [exact Hix |]. split; [exact Hstr |].
  split; [| exact Hnd].
  rewrite Hsize. vm_compute. reflexivity.
Defined.

(** ** Register on a solver that is not a boundary solver *)

Lemma Register_rejects_other_solver_witness :
  solverType flowSolverEx = OtherSolver /\
  exists what w',
    Register serial flowSolverEx fresh = (inl (invalid_argument what), w') /\
    boundaryDm (this w') = None /\ faceDm (this w') = None /\ trace w' = [].
Proof.
  split; [reflexivity |].
  destruct (Register_rejects_other_solver serial flowSolverEx fresh eq_refl)
    as (what & w' & H & Hb & Hf & Ht & _).
  exists what, w'. auto.
Defined.

(** ** The ghost exchange of Save *)

(** On the quadrilateral, the end of the exchange does not follow its begin
    at once. *)
Lemma exchange_not_back_to_back :
  ~ immediatelyFollowed DMGlobalToLocalBegin_ DMGlobalToLocalEnd_
      (newCalls registered (Save serial 1 (1 # 20) registered).2).
Proof.
  intros (pre & post & H). vm_compute in H.
  repeat (destruct pre as [| ? pre]; [discriminate H | injection H as _ H]).
  destruct pre; discriminate H.
Qed.

Lemma exchange_encloses_local_work_witness :
  DMGlobalToLocalEnd_ ∈ newCalls registered (Save serial 1 (1 # 20) registered).2 /\
  exists pre post,
    newCalls registered (Save serial 1 (1 # 20) registered).2 =
      pre ++ [DMGlobalToLocalBegin_; DMGetLocalVector_ BoundaryDM;
              VecZeroEntries_ LocalBoundaryVec; DMGlobalToLocalEnd_] ++ post.
Proof.
  assert (Hin : DMGlobalToLocalEnd_ ∈
                newCalls registered (Save serial 1 (1 # 20) registered).2).
  { vm_compute. do 5 right. left. }
  split; [exact Hin |].
  apply (exchange_encloses_local_work serial 1 (1 # 20) registered
           (Save serial 1 (1 # 20) registered).1
           (Save serial 1 (1 # 20) registered).2).
  - apply surjective_pairing.
  - exact Hin.
Defined.

(** ** The buffers of a Save that fails *)

(** When the boundary solver's computation fails, [Save] leaves with the
    local solution view and the local boundary vector still outstanding. *)
Lemma failed_Save_keeps_buffers :
  checkedOut registered = [] /\
  (Save computeFails 1 (1 # 20) registered).1
    = inl (petsc_error (ComputeRHSFunction_ (1 # 20)) 1) /\
  checkedOut (Save computeFails 1 (1 # 20) registered).2
    = [LocXVec; LocalBoundaryVec].
Proof. vm_compute. auto. Qed.

Lemma Save_releases_at_the_end_only_witness :
  checkedOut (Save serial 1 (1 # 20) registered).2 = [] /\
  LocXVec ∈ checkedOut (Save computeFails 1 (1 # 20) registered).2.
Proof.
  split.
  - refine (proj1 (Save_releases_at_the_end_only serial 1 (1 # 20) registered
                     (inr tt) (Save serial 1 (1 # 20) registered).2 _)
                  tt eq_refl eq_refl).
    vm_compute. reflexivity.
  - refine (proj1 (proj2 (Save_releases_at_the_end_only computeFails 1 (1 # 20)
                            registered
                            (inl (petsc_error (ComputeRHSFunction_ (1 # 20)) 1))
                            (Save computeFails 1 (1 # 20) registered).2 _)
                         (ComputeRHSFunction_ (1 # 20)) 1 eq_refl eq_refl)).
    vm_compute. reflexivity.
Defined.

(** ** A boundary solver without faces *)


(** ** The destructor on the registered monitor *)

Lemma destroy_releases_both_witness :
  exists w',
    destroy serial registered = (inr tt, w') /\
    boundaryDm (this w') = None /\ faceDm (this w') = None /\
    newCalls registered w' = [DMDestroy_ BoundaryDM; DMDestroy_ FaceDM].
Proof.
  destruct (destroy_releases_both serial registered eq_refl eq_refl)
    as (w' & H & Hb & Hf & Hc & _).
  exists w'. split; [exact H |]. split; [exact Hb |]. split; [exact Hf |].
  rewrite Hc. vm_compute. reflexivity.
Defined.

Lemma destroy_stops_at_first_failure_witness :
  exists w',
    destroy destroyFails registered = (inl std_terminate, w') /\
    faceDm (this w') = faceDm (this registered) /\
    newCalls registered w' = [DMDestroy_ BoundaryDM].
Proof.
  destruct (destroy_stops_at_first_failure destroyFails registered
              (default quadDM (boundaryDm (this registered)))
              ltac:(vm_compute; reflexivity) ltac:(discriminate))
    as (w' & H & Ht & Hc).
  exists w'. split; [exact H |]. split; [rewrite Ht; reflexivity | exact Hc].
Defined.

(** ** Save on the registered monitor *)

Lemma topology_only_at_sequence_zero_witness :
  (exists f,
     faceDm (this registered) = Some f /\
     Topology f ∈ newOutput registered (Save serial 0 0 registered).2) /\
  forallb isField (newOutput registered (Save serial 1 (1 # 20) registered).2) = true.
Proof.
  split.
  - exists (default quadDM (faceDm (this registered))).
    assert (K : faceDm (this registered)
                = Some (default quadDM (faceDm (this registered))))
      by (vm_compute; reflexivity).
    split; [exact K |].
    apply (proj1 (proj2
      (topology_only_at_sequence_zero serial 0 0 registered (inr tt)
         (Save serial 0 0 registered).2 ltac:(vm_compute; reflexivity)))).
    split; [reflexivity |]. split; [reflexivity | exact K].
  - exact (proj1 (proj2 (proj2 (proj2
      (topology_only_at_sequence_zero serial 1 (1 # 20) registered (inr tt)
         (Save serial 1 (1 # 20) registered).2 ltac:(vm_compute; reflexivity)))))
      ltac:(discriminate)).
Defined.

Lemma Save_writes_one_record_witness :
  exists f g,
    newOutput registered (Save serial 0 0 registered).2
      = [Topology f; Field "boundary_monitor" 0 0 g].
Proof.
  destruct (Save_writes_one_record serial 0 0 registered
              (Save serial 0 0 registered).2 ltac:(vm_compute; reflexivity))
    as (f & _ & H).
  exists f, (valuesOf (Save serial 0 0 registered).2 GlobalFaceVec).
  exact H.
Defined.

Lemma Save_computes_from_zero_witness :
  exists s bs b,
    solver (this registered) = Some s /\ boundarySolver (this registered) = Some bs /\
    boundaryDm (this registered) = Some b /\
    valuesOf (Save serial 1 (1 # 20) registered).2 LocalBoundaryVec
      = fit (localSize b)
          (ComputeRHSFunction bs (1 # 20)
             (fit (localSize (GetDM s)) (globalToLocal serial (GetSolutionVector s)))
             (replicate (localSize b) 0%Q)).
Proof.
  exact (Save_computes_from_zero serial 1 (1 # 20) registered
           (Save serial 1 (1 # 20) registered).2 ltac:(vm_compute; reflexivity)).
Defined.

Lemma Save_keeps_the_monitor_witness :
  registeredWith boundarySolverEx fluxes
    (this (Save serial 1 (1 # 20) (Register serial boundarySolverEx fresh).2).2).
Proof.
  exact (proj1 (Save_keeps_the_monitor serial 1 (1 # 20)
                  (Register serial boundarySolverEx fresh).2
                  (Save serial 1 (1 # 20) (Register serial boundarySolverEx fresh).2).2
                  boundarySolverEx fluxes
                  (proj1 (Register_ok serial boundarySolverEx fluxes fresh
                            (Register serial boundarySolverEx fresh).2 eq_refl
                            ltac:(vm_compute; reflexivity)
                            ltac:(vm_compute; reflexivity)))
                  ltac:(vm_compute; reflexivity))).
Defined.

(** ** Register, then Save *)

Lemma Register_then_Save_names_the_record_witness :
  viewer (Register serial boundarySolverEx fresh).2 = [] /\
  exists g,
    viewer (Save serial 1 (1 # 20) (Register serial boundarySolverEx fresh).2).2
      = [Field "boundary_monitor" 1 (1 # 20) g].
Proof.
  destruct (Register_then_Save_names_the_record serial boundarySolverEx fresh
              (Register serial boundarySolverEx fresh).2
              (Save serial 1 (1 # 20) (Register serial boundarySolverEx fresh).2).2
              1 (1 # 20)
              ltac:(vm_compute; reflexivity) ltac:(vm_compute; reflexivity))
    as (Hv & f & _ & H).
  split; [exact Hv |].
  exists (valuesOf (Save serial 1 (1 # 20) (Register serial boundarySolverEx fresh).2).2
            GlobalFaceVec).
  exact H.
Defined.

(** ** Register with a face that is not one *)

Lemma Register_needs_faces_in_range_witness :
  exists id,
    id ∈ GetBoundaryGeometry stray /\
    inRange (DMPlexGetHeightStratum quad 1) id = false /\
    (Register serial straySolverEx fresh).1
      = inl (petsc_error (PetscSectionSetDof_ id 2) PETSC_ERR_ARG_OUTOFRANGE).
Proof.
  destruct (Register_needs_faces_in_range serial (fun _ => eq_refl)
              straySolverEx stray fresh eq_refl ltac:(vm_compute; reflexivity))
    as [_ H].
  destruct H as [H _]; [vm_compute; discriminate |].
  exact H.
Defined.

End Instances.

Module AverageInstances.
Import Buoyancy Average AverageFacts AverageStatements.


Lemma UpdateAverageDensity_no_cell_witness :
  average (UpdateAverageDensity 0 alone noCells before).2 = NotFinite.
Proof.
  apply (UpdateAverageDensity_no_cell 0 alone noCells before (fun _ => eq_refl)).
  - cbn. intros c Hc. lia.
  - reflexivity.
  - constructor.
Defined.

Lemma UpdateAverageDensity_early_return_witness :
  (UpdateAverageDensity 0 reductionFails threeCells before).1
    = inl (Returned PETSC_ERR_MPI) /\
  average (UpdateAverageDensity 0 reductionFails threeCells before).2 = Finite 1%Q.
Proof.
  split; [reflexivity |].
  destruct (UpdateAverageDensity_early_return 0 reductionFails threeCells before
              (Returned PETSC_ERR_MPI)
              (UpdateAverageDensity 0 reductionFails threeCells before).2
              eq_refl ltac:(vm_compute; reflexivity)) as [Ha _].
  exact Ha.
Defined.



End AverageInstances.
